(** * md2letter: a shallow embedding of the conversion pipeline of the
    [convert] crate (block splitter, block categoriser, block parsers,
    inline tokeniser and transformer) and the properties of its spec. *)

From Stdlib Require Import Ascii String List Bool Arith Lia DecimalString.
From stdpp Require Import base gmap strings list.
Import ListNotations.

Open Scope list_scope.

(** Characters are ASCII; a Rust [String] / [&str] is a [list ascii]
    (indices are char indices, which agree with byte indices on ASCII). *)
Abbreviation str := (list ascii).

Definition chr_lf : ascii := "010"%char.
Definition chr_cr : ascii := "013"%char.
Definition chr_tab : ascii := "009"%char.
Definition chr_space : ascii := " "%char.

Definition ascii_eqb (a b : ascii) : bool := if ascii_dec a b then true else false.

Definition s (x : string) : str := list_ascii_of_string x.

(** Rust's [char::is_whitespace] on ASCII: U+0009 .. U+000D and U+0020. *)
Definition is_whitespace (c : ascii) : bool :=
  match nat_of_ascii c with
  | 9 | 10 | 11 | 12 | 13 | 32 => true
  | _ => false
  end.

Fixpoint trim_start (l : str) : str :=
  match l with
  | [] => []
  | c :: l' => if is_whitespace c then trim_start l' else l
  end.

(** [str::trim]. *)
Definition trim (l : str) : str := rev (trim_start (rev (trim_start l))).

(** [str::split] on a single character: always at least one piece. *)
Fixpoint split_on (sep : ascii) (l : str) : list str :=
  match l with
  | [] => [[]]
  | c :: l' =>
      if ascii_eqb c sep then [] :: split_on sep l'
      else match split_on sep l' with
           | [] => [[c]]
           | p :: ps => (c :: p) :: ps
           end
  end.

(** ** util::SourcePosition, SourceSpan *)
Record SourcePosition := mkPos { line : nat; column : nat }.
Definition SourcePosition_zero : SourcePosition := mkPos 1 1.
Record SourceSpan := mkSpan { span_start : SourcePosition; span_end : SourcePosition }.

(** Outcome of a Rust call that may return [Err] or panic
    ([unwrap] on [None], out-of-range slicing, ...). *)
Record ParseError := mkParseError { message : string; source_position : SourcePosition }.

Inductive run (A : Type) : Type :=
| Ok : A -> run A
| Err : ParseError -> run A
| Panic : run A.
Arguments Ok {A} _.
Arguments Err {A} _.
Arguments Panic {A}.

Definition run_bind {A B} (r : run A) (f : A -> run B) : run B :=
  match r with
  | Ok a => f a
  | Err e => Err e
  | Panic => Panic
  end.

(** ** splitter::BlockSplitter *)
Module Splitter.

Record SplitterBlock := mkBlock { src : str; span : SourceSpan }.

Record BlockSplitter := mkSplitter {
  reader : str;
  unread_chars_buffer : str;
  last_char_source_position : SourcePosition;
  next_char_source_position : SourcePosition
}.

Definition new (input : str) : BlockSplitter :=
  mkSplitter input [] SourcePosition_zero SourcePosition_zero.

Definition advance (p : SourcePosition) (c : ascii) : SourcePosition :=
  if ascii_eqb c chr_lf then mkPos (S (line p)) 1 else mkPos (line p) (S (column p)).

(** Chars popped from the unread buffer: a ['\r'] is dropped. *)
Fixpoint pop_unread (u : str) : option (ascii * str) :=
  match u with
  | [] => None
  | c :: u' => if ascii_eqb c chr_cr then pop_unread u' else Some (c, u')
  end.

(** Chars read from the reader: a ['\r'] is dropped before the
    positions are updated. *)
Fixpoint read_reader (r : str) : option (ascii * str) :=
  match r with
  | [] => None
  | c :: r' => if ascii_eqb c chr_cr then read_reader r' else Some (c, r')
  end.

Definition read_next_char (st : BlockSplitter) : option ascii * BlockSplitter :=
  match pop_unread (unread_chars_buffer st) with
  | Some (c, u') =>
      (Some c, mkSplitter (reader st) u' (last_char_source_position st)
                 (next_char_source_position st))
  | None =>
      match read_reader (reader st) with
      | None => (None, mkSplitter (reader st) [] (last_char_source_position st)
                         (next_char_source_position st))
      | Some (c, r') =>
          (Some c, mkSplitter r' [] (next_char_source_position st)
                     (advance (next_char_source_position st) c))
      end
  end.

Definition push_unread_char (st : BlockSplitter) (c : ascii) : BlockSplitter :=
  mkSplitter (reader st) (unread_chars_buffer st ++ [c])
    (last_char_source_position st) (next_char_source_position st).

(** The [loop] of [Iterator::next]; [fuel] bounds the number of chars
    still to be read. [None] only when the fuel is exhausted. *)
Fixpoint next_loop (fuel : nat) (st : BlockSplitter) (start_position end_position : SourcePosition)
    (buffer : str) (newline_count consecutive_backtick_counter : nat) (in_code_block : bool)
    : option (option SplitterBlock * BlockSplitter) :=
  match fuel with
  | O => None
  | S fuel' =>
    let '(next_char, st) := read_next_char st in
    match next_char with
    | None =>
        Some (match buffer with
              | [] => None
              | _ => Some (mkBlock buffer (mkSpan start_position end_position))
              end, st)
    | Some c =>
        if ascii_eqb c chr_cr then
          next_loop fuel' st start_position end_position buffer newline_count
            consecutive_backtick_counter in_code_block
        else if ascii_eqb c chr_lf then
          next_loop fuel' st start_position end_position (buffer ++ [c]) (S newline_count)
            consecutive_backtick_counter in_code_block
        else if ascii_eqb c chr_space || ascii_eqb c chr_tab then
          next_loop fuel' st start_position end_position (buffer ++ [c]) newline_count
            consecutive_backtick_counter in_code_block
        else if (2 <=? newline_count) && negb in_code_block then
          let st := push_unread_char st c in
          Some (Some (mkBlock (trim buffer) (mkSpan start_position end_position)), st)
        else
          let '(counter, in_code) :=
            if ascii_eqb c "`"%char then
              if (match buffer with [] => true | _ => false end)
                 || (0 <? consecutive_backtick_counter) || in_code_block then
                let counter := S consecutive_backtick_counter in
                if counter =? 3 then (0, negb in_code_block) else (counter, in_code_block)
              else (consecutive_backtick_counter, in_code_block)
            else (0, in_code_block) in
          next_loop fuel' st start_position (next_char_source_position st) (buffer ++ [c]) 0
            counter in_code
    end
  end.

Definition next (st : BlockSplitter) : option (option SplitterBlock * BlockSplitter) :=
  next_loop (S (length (reader st) + length (unread_chars_buffer st))) st
    (last_char_source_position st) (next_char_source_position st) [] 0 0 false.

(** Collecting the iterator. *)
Fixpoint collect (fuel : nat) (st : BlockSplitter) : option (list SplitterBlock) :=
  match fuel with
  | O => None
  | S fuel' =>
      match next st with
      | None => None
      | Some (None, _) => Some []
      | Some (Some b, st') => cons b <$> collect fuel' st'
      end
  end.

Definition blocks (input : str) : option (list SplitterBlock) :=
  collect (S (S (length input))) (new input).

Definition block_srcs (input : str) : option (list str) := map src <$> blocks input.

End Splitter.

(** ** categorizer::BlockCategorizer *)
Module Categorizer.

Inductive BlockKind :=
| Text | Heading | List | Table | Image | Quote | Code | Function | HorizontalRule.

Record CategorizedBlock := mkCategorized { kind : BlockKind; src : str; span : SourceSpan }.

Fixpoint count_leading (ch : ascii) (l : str) : nat :=
  match l with
  | c :: l' => if ascii_eqb c ch then S (count_leading ch l') else 0
  | [] => 0
  end.

Definition is_code_block (src : str) : bool := 3 <=? count_leading "`"%char src.

Definition is_ordered_list (src : str) : bool :=
  let next_char_is_period :=
    match nth_error src 1 with Some c => ascii_eqb c "."%char | None => false end in
  let next_char_is_space := next_char_is_period &&
    match nth_error src 2 with Some c => ascii_eqb c " "%char | None => false end in
  next_char_is_period && next_char_is_space.

Definition is_unordered_list (src : str) (_char : ascii) : bool :=
  match nth_error src 1 with Some c => ascii_eqb c " "%char | None => false end.

Definition is_horizontal_rule (src : str) (ch : ascii) : bool :=
  let counter := count_leading ch src in
  let is_possible_horizontal_rule := 3 <=? counter in
  if is_possible_horizontal_rule then
    forallb (fun c => ascii_eqb c " "%char || ascii_eqb c chr_tab) (skipn counter src)
  else false.

(** [for c in src.chars().skip(counter) { counter += 1; if c == stop { break } }]:
    the final counter and whether [stop] was met. *)
Fixpoint scan_until (stop : ascii) (l : str) (counter : nat) : nat * bool :=
  match l with
  | [] => (counter, false)
  | c :: l' => if ascii_eqb c stop then (S counter, true) else scan_until stop l' (S counter)
  end.

Definition only_blank (l : str) : bool :=
  forallb (fun c => ascii_eqb c " "%char || ascii_eqb c chr_tab || ascii_eqb c chr_lf) l.

Definition is_image (src : str) : bool :=
  match nth_error src 1 with
  | Some c =>
      if negb (ascii_eqb c "["%char) then false
      else
        let '(counter, _) := scan_until "]"%char (skipn 2 src) 2 in
        let '(counter, _) := scan_until "("%char (skipn counter src) counter in
        let '(counter, may_be_image_block) := scan_until ")"%char (skipn counter src) counter in
        if only_blank (skipn counter src) then may_be_image_block else false
  | None => false
  end.

(** The name loop of [is_function_block]: [inl false] is an early
    [return false]; [inr (counter, anticipate_params)] leaves the loop. *)
Fixpoint function_name_scan (l : str) (counter : nat) (has_name : bool) : bool + (nat * bool) :=
  match l with
  | [] => inr (counter, false)
  | c :: l' =>
      let counter := S counter in
      if ascii_eqb c "("%char then
        (if has_name then inr (counter, true) else inl false)
      else if ascii_eqb c chr_tab || ascii_eqb c "#"%char then inl false
      else if ascii_eqb c " "%char then
        (if has_name then inr (counter, false) else inl false)
      else function_name_scan l' counter true
  end.

Definition is_function_block (src : str) : bool :=
  match function_name_scan (skipn 1 src) 1 false with
  | inl b => b
  | inr (counter, anticipate_params) =>
      let '(counter, params_are_valid) :=
        if anticipate_params then scan_until ")"%char (skipn counter src) counter
        else (counter, true) in
      if negb params_are_valid then false
      else only_blank (skipn counter src)
  end.

Fixpoint is_heading_rest (l : str) : bool :=
  match l with
  | [] => false
  | c :: l' =>
      if ascii_eqb c " "%char then true
      else if ascii_eqb c "#"%char then is_heading_rest l'
      else false
  end.

Definition is_heading (src : str) : bool := is_heading_rest (skipn 1 src).

Definition kind_of (first_char : ascii) (src : str) : BlockKind :=
  if ascii_eqb first_char "#"%char then
    (if is_heading src then Heading else if is_function_block src then Function else Text)
  else if ascii_eqb first_char "!"%char then (if is_image src then Image else Text)
  else if existsb (ascii_eqb first_char) (s "123456789") then
    (if is_ordered_list src then List else Text)
  else if ascii_eqb first_char "-"%char || ascii_eqb first_char "+"%char
          || ascii_eqb first_char "*"%char then
    (if is_horizontal_rule src first_char then HorizontalRule
     else if is_unordered_list src first_char then List else Text)
  else if ascii_eqb first_char "_"%char then
    (if is_horizontal_rule src first_char then HorizontalRule else Text)
  else if ascii_eqb first_char ">"%char then Quote
  else if ascii_eqb first_char "|"%char then Table
  else if ascii_eqb first_char "`"%char then (if is_code_block src then Code else Text)
  else Text.

(** [categorize]: [src.chars().next().unwrap()] panics ([None]) on an
    empty source. *)
Definition categorize (block : Splitter.SplitterBlock) : option CategorizedBlock :=
  let source_span := Splitter.span block in
  let src := Splitter.src block in
  match src with
  | [] => None
  | first_char :: _ => Some (mkCategorized (kind_of first_char src) src source_span)
  end.

End Categorizer.

(** ** parser::function::FunctionParser (a whole Function block) *)
Module FunctionParser.

(** [FunctionParameters = HashMap<String, String>]. *)
Abbreviation FunctionParameters := (gmap string string).

Record FunctionBlock := mkFunctionBlock { name : str; parameters : FunctionParameters }.

(** The name loop: [inl ()] is the early [Err] on whitespace;
    [inr (name, offset)] leaves the loop. *)
Fixpoint name_loop (l : str) (name : str) (offset : nat) : unit + (str * nat) :=
  match l with
  | [] => inr (name, offset)
  | c :: l' =>
      if ascii_eqb c "#"%char then name_loop l' name (S offset)
      else if ascii_eqb c " "%char || ascii_eqb c chr_tab then inl tt
      else if ascii_eqb c "("%char then inr (name, offset)
      else name_loop l' (name ++ [c]) (S offset)
  end.

(** [for entry in parameters_str.split(',')]: [let key = parts.next().unwrap()]
    never fails (split yields a first piece); [parts.next().unwrap()] on
    the value panics ([None]) when the entry has no [':']. *)
Fixpoint insert_entries (entries : list str) (parameters : FunctionParameters)
    : option FunctionParameters :=
  match entries with
  | [] => Some parameters
  | entry :: rest =>
      match split_on ":"%char entry with
      | key :: value :: _ =>
          insert_entries rest
            (<[string_of_list_ascii (trim key) := string_of_list_ascii (trim value)]> parameters)
      | _ => None
      end
  end.

Definition parse (src0 : str) (span : SourceSpan) : run FunctionBlock :=
  let src := trim src0 in
  match name_loop src [] 0 with
  | inl _ => Err (mkParseError "Unexpected whitespace in function name" (span_start span))
  | inr (name, offset) =>
      if (match name with [] => true | _ => false end) then
        Err (mkParseError "Function name is empty" (span_start span))
      else
        let src := skipn offset src in
        if (match src with "("%char :: _ => true | _ => false end) then
          if negb (match last src with Some c => ascii_eqb c ")"%char | None => false end) then
            Err (mkParseError "Expected closing parenthesis for function parameters"
                   (span_start span))
          else
            let parameters_str := firstn (length src - 2) (skipn 1 src) in
            if (match parameters_str with [] => true | _ => false end) then
              Ok (mkFunctionBlock name ∅)
            else
              match insert_entries (split_on ","%char parameters_str) ∅ with
              | Some parameters => Ok (mkFunctionBlock name parameters)
              | None => Panic
              end
        else Ok (mkFunctionBlock name ∅)
  end.

End FunctionParser.

(** [str::lines]: split at ['\n'], no final empty line, one trailing
    ['\r'] removed from each line. *)
Definition strip_cr (l : str) : str :=
  match last l with
  | Some c => if ascii_eqb c chr_cr then removelast l else l
  | None => l
  end.

Definition lines (l : str) : list str :=
  let pieces := split_on chr_lf l in
  let pieces := match last pieces with
                | Some [] => removelast pieces
                | _ => pieces
                end in
  map strip_cr pieces.

(** ** parser::list::ListParser, item detection *)
Module ListParser.

Inductive Indent := Zero | Tab (n : nat) | Space (n : nat).

Definition Indent_count (i : Indent) : nat :=
  match i with Zero => 0 | Tab n => n | Space n => n end.

Record ItemInSource := mkItem {
  indent : Indent;
  symbol : str;
  is_ordered : bool;
  content : str;
  item_span : SourceSpan
}.

Record IsStartOfNewLineResult := mkStartResult {
  is_start_of_new_item : bool;
  r_indent : Indent;
  r_symbol : str;
  r_is_ordered : bool
}.

Definition is_digit (c : ascii) : bool :=
  let n := nat_of_ascii c in (48 <=? n) && (n <=? 57).

Definition mixed_indent_error (line_number : nat) : ParseError :=
  mkParseError "Mixed tab and space in list item indentation. Started indenting with tab and then encountered space."
    (mkPos line_number 1).

(** The [for (index, c) in line.chars().enumerate()] loop. *)
Fixpoint start_loop (line : str) (rest : str) (index : nat) (indent : Indent) (line_number : nat)
    : run IsStartOfNewLineResult :=
  match rest with
  | [] => Ok (mkStartResult false indent [] false)
  | c :: rest' =>
      if ascii_eqb c chr_tab then
        match indent with
        | Zero => start_loop line rest' (S index) (Tab 1) line_number
        | Tab n => start_loop line rest' (S index) (Tab (S n)) line_number
        | Space _ => Err (mixed_indent_error line_number)
        end
      else if ascii_eqb c " "%char then
        match indent with
        | Zero => start_loop line rest' (S index) (Space 1) line_number
        | Space n => start_loop line rest' (S index) (Space (S n)) line_number
        | Tab _ => Err (mixed_indent_error line_number)
        end
      else
        let is_valid_unordered_symbol :=
          ascii_eqb c "-"%char || ascii_eqb c "*"%char || ascii_eqb c "+"%char in
        let is_valid_ordered_symbol :=
          is_digit c && (match nth_error line (S index) with
                         | Some d => ascii_eqb d "."%char | None => false end) in
        let symbol :=
          if is_valid_unordered_symbol then Some [c]
          else if is_valid_ordered_symbol then Some (firstn 2 (skipn index line))
          else None in
        let is_followed_by_space :=
          match symbol with
          | Some sy => match nth_error line (index + length sy) with
                       | Some d => ascii_eqb d " "%char | None => false end
          | None => false
          end in
        Ok (mkStartResult (match symbol with Some _ => is_followed_by_space | None => false end)
              indent (match symbol with Some sy => sy | None => [] end) is_valid_ordered_symbol)
  end.

Definition is_start_of_new_item_fn (line : str) (line_number : nat) : run IsStartOfNewLineResult :=
  start_loop line line 0 Zero line_number.

(** The loop of [find_items_in_src]; [items.last_mut().unwrap()] panics
    on a continuation line before any item. *)
Fixpoint items_loop (ls : list str) (index : nat) (start_line : nat) (items : list ItemInSource)
    : run (list ItemInSource) :=
  match ls with
  | [] => Ok items
  | line :: ls' =>
      let line_number := start_line + index in
      run_bind (is_start_of_new_item_fn line line_number) (fun r =>
        if is_start_of_new_item r then
          let indent_count := Indent_count (r_indent r) in
          let symbol_length := length (r_symbol r) in
          let item := mkItem (r_indent r) (r_symbol r) (r_is_ordered r)
                        (skipn (indent_count + symbol_length + 1) line)
                        (mkSpan (mkPos line_number 1) (mkPos line_number (length line + 1))) in
          items_loop ls' (S index) start_line (items ++ [item])
        else
          match rev items with
          | [] => Panic
          | last_item :: before =>
              let last_item :=
                mkItem (indent last_item) (symbol last_item) (is_ordered last_item)
                  (content last_item ++ line)
                  (mkSpan (span_start (item_span last_item))
                          (mkPos line_number (length line + 1))) in
              items_loop ls' (S index) start_line (rev before ++ [last_item])
          end)
  end.

Definition find_items_in_src (src : str) (span : SourceSpan) : run (list ItemInSource) :=
  items_loop (lines src) 0 (line (span_start span)) [].

End ListParser.

(** ** parser::text::tokenizer::Tokenizer *)
Module Tokenizer.

Abbreviation FunctionParameters := (gmap string string).

Inductive TokenKind :=
| Error (message : string) (source_position : SourcePosition)
| Text (s : str)
| Link (label target : str)
| Image (label src : str)
| Function (name : str) (parameters : FunctionParameters)
| BoldStart | BoldEnd | ItalicStart | ItalicEnd | CodeStart | CodeEnd.

Record Token := mkToken { kind : TokenKind; span : SourceSpan }.

Inductive SourcePositionUpdate :=
| NewLine (old_column : nat)
| Column
| Ignore.

Record FutureToken := mkFuture { token_kind : TokenKind; ft_offset : nat }.

Definition MAX_SOURCE_POSITION_UPDATE_HISTORY_SIZE := 100.

Record Tokenizer := mkTokenizer {
  src : str;
  offset : nat;
  offset_source_position : SourcePosition;
  source_position_update_history : list SourcePositionUpdate;
  is_in_code_emphasis : bool;
  next_token_is_code_emphasis : bool;
  future_closing_formatting_tokens : list FutureToken;
  is_initialized : bool
}.

Definition new (src : str) (span : SourceSpan) : Tokenizer :=
  mkTokenizer src 0 (span_start span) [] false false [] false.

(** A state monad over the tokeniser in which [None] is a panic. *)
Definition TM (A : Type) := Tokenizer -> option (A * Tokenizer).
Definition ret {A} (a : A) : TM A := fun t => Some (a, t).
Definition bind {A B} (m : TM A) (f : A -> TM B) : TM B :=
  fun t => match m t with Some (a, t') => f a t' | None => None end.
Definition get : TM Tokenizer := fun t => Some (t, t).
Definition put (t : Tokenizer) : TM unit := fun _ => Some (tt, t).
Definition panic {A} : TM A := fun _ => None.
Notation "'let*' x := m 'in' k" := (bind m (fun x => k)) (at level 200, x binder, right associativity).

Definition set_offset (t : Tokenizer) (o : nat) : Tokenizer :=
  mkTokenizer (src t) o (offset_source_position t) (source_position_update_history t)
    (is_in_code_emphasis t) (next_token_is_code_emphasis t)
    (future_closing_formatting_tokens t) (is_initialized t).
Definition set_position (t : Tokenizer) (p : SourcePosition) (h : list SourcePositionUpdate) : Tokenizer :=
  mkTokenizer (src t) (offset t) p h (is_in_code_emphasis t) (next_token_is_code_emphasis t)
    (future_closing_formatting_tokens t) (is_initialized t).
Definition set_initialized (t : Tokenizer) : Tokenizer :=
  mkTokenizer (src t) (offset t) (offset_source_position t) (source_position_update_history t)
    (is_in_code_emphasis t) (next_token_is_code_emphasis t)
    (future_closing_formatting_tokens t) true.
Definition set_code (t : Tokenizer) (in_code next_is_code : bool) : Tokenizer :=
  mkTokenizer (src t) (offset t) (offset_source_position t) (source_position_update_history t)
    in_code next_is_code (future_closing_formatting_tokens t) (is_initialized t).
Definition set_futures (t : Tokenizer) (f : list FutureToken) : Tokenizer :=
  mkTokenizer (src t) (offset t) (offset_source_position t) (source_position_update_history t)
    (is_in_code_emphasis t) (next_token_is_code_emphasis t) f (is_initialized t).

Definition read_at (t : Tokenizer) (o : nat) : option ascii := nth_error (src t) o.

(** [read_next]; a ['\r'] records an [Ignore] update and reads on. *)
Fixpoint read_next_fuel (fuel : nat) (t : Tokenizer) : option (option ascii * Tokenizer) :=
  match fuel with
  | O => None
  | S fuel' =>
    let t := if is_initialized t then set_offset t (S (offset t)) else set_initialized t in
    match read_at t (offset t) with
    | None => Some (None, t)
    | Some c =>
        if ascii_eqb c chr_cr then
          read_next_fuel fuel'
            (set_position t (offset_source_position t) (Ignore :: source_position_update_history t))
        else
          let p := offset_source_position t in
          let '(p', h) :=
            if ascii_eqb c chr_lf then
              (mkPos (S (line p)) 1, NewLine (column p) :: source_position_update_history t)
            else (mkPos (line p) (S (column p)), Column :: source_position_update_history t) in
          let h := if MAX_SOURCE_POSITION_UPDATE_HISTORY_SIZE <? length h then removelast h else h in
          Some (Some c, set_position t p' h)
    end
  end.

Definition read_next : TM (option ascii) :=
  fun t => read_next_fuel (S (length (src t))) t.

Definition mark_char_as_unconsumed : TM unit :=
  fun t =>
    match offset t with
    | O => None
    | S o =>
        let t := set_offset t o in
        match source_position_update_history t with
        | [] => None
        | u :: h =>
            let p := offset_source_position t in
            let p := match u with
                     | NewLine old_column => mkPos (line p - 1) old_column
                     | Column => mkPos (line p) (column p - 1)
                     | Ignore => p
                     end in
            Some (tt, set_position t p h)
        end
    end.

Fixpoint ignore_next_chars (count : nat) : TM unit :=
  match count with
  | O => ret tt
  | S n => let* _ := read_next in ignore_next_chars n
  end.

Definition look_ahead (t : Tokenizer) (count : nat) : option ascii := read_at t (offset t + count).

Fixpoint find_next_char_matching_fuel (fuel : nat) (t : Tokenizer) (c : ascii) (count : nat)
    : option nat :=
  match fuel with
  | O => None
  | S fuel' =>
      match look_ahead t (S count) with
      | None => None
      | Some next_char =>
          if ascii_eqb next_char c then Some count
          else find_next_char_matching_fuel fuel' t c (S count)
      end
  end.

Definition find_next_char_matching (t : Tokenizer) (c : ascii) (start_at : nat) : option nat :=
  find_next_char_matching_fuel (S (length (src t))) t c start_at.

Inductive Precedence := PBold | PItalic | PNone.

(** [Vec::insert]. *)
Definition list_insert_at {A} (i : nat) (x : A) (l : list A) : list A :=
  firstn i l ++ x :: skipn i l.

(** The [while let Some(next_char) = self.look_ahead(count + 1)] loop of
    [find_formatting_pair]. *)
Fixpoint pair_loop (fuel : nat) (t : Tokenizer) (is_italic is_bold in_code_emphasis : bool)
    (result : list FutureToken) (precedence : Precedence) (count : nat) (ignore_next_star : bool)
    : option (list FutureToken) :=
  match fuel with
  | O => None
  | S fuel' =>
  let o := offset t in
  match look_ahead t (S count) with
  | None => None
  | Some next_char =>
    if in_code_emphasis then
      pair_loop fuel' t is_italic is_bold (negb (ascii_eqb next_char "`"%char)) result
        precedence (S count) ignore_next_star
    else if ascii_eqb next_char "\"%char then
      pair_loop fuel' t is_italic is_bold in_code_emphasis result precedence (S count) true
    else if ascii_eqb next_char "`"%char then
      let in_code := match find_next_char_matching t "`"%char (S count) with
                     | Some _ => true | None => in_code_emphasis end in
      pair_loop fuel' t is_italic is_bold in_code result precedence (S count) ignore_next_star
    else if ascii_eqb next_char "*"%char then
      if ignore_next_star then
        pair_loop fuel' t is_italic is_bold in_code_emphasis result precedence (S count) false
      else if is_italic && is_bold then
        let next_char_1 := look_ahead t (count + 2) in
        let next_char_2 := look_ahead t (count + 3) in
        if (match next_char_1 with Some c => ascii_eqb c "*"%char | None => false end) then
          let count := S count in
          if (match next_char_2 with Some c => ascii_eqb c "*"%char | None => false end) then
            Some (match precedence with
                  | PBold => result ++ [mkFuture ItalicEnd (o + count);
                                        mkFuture BoldEnd (o + count + 1)]
                  | PItalic => result ++ [mkFuture BoldEnd (o + count + 1);
                                          mkFuture ItalicEnd (o + count + 2)]
                  | PNone =>
                      let r := result ++ [mkFuture BoldEnd (o + count + 1)] in
                      let r := list_insert_at 0 (mkFuture ItalicStart o) r in
                      r ++ [mkFuture ItalicEnd (o + count + 2)]
                  end)
          else
            let r := result ++ [mkFuture BoldEnd (o + count)] in
            let '(r, precedence) :=
              match precedence with
              | PNone =>
                  let r := list_insert_at 0 (mkFuture ItalicStart o) r in
                  let r := list_insert_at 1 (mkFuture BoldStart (o + 2)) r in
                  (r, PItalic)
              | p => (r, p)
              end in
            pair_loop fuel' t is_italic false in_code_emphasis r precedence (S count)
              ignore_next_star
        else
          let r := result ++ [mkFuture ItalicEnd (o + count + 1)] in
          let '(r, precedence) :=
            match precedence with
            | PNone =>
                let r := list_insert_at 0 (mkFuture BoldStart o) r in
                let r := list_insert_at 1 (mkFuture ItalicStart (o + 2)) r in
                (r, PBold)
            | p => (r, p)
            end in
          pair_loop fuel' t false is_bold in_code_emphasis r precedence (S count) ignore_next_star
      else if is_italic then
        let is_bold_opening :=
          match look_ahead t (count + 2) with Some c => ascii_eqb c "*"%char | None => false end in
        if is_bold_opening then
          let count := S count in
          pair_loop fuel' t is_italic true in_code_emphasis
            (result ++ [mkFuture BoldStart (o + count + 1)]) precedence (S count) ignore_next_star
        else Some (result ++ [mkFuture ItalicEnd (o + count + 1)])
      else if is_bold then
        let is_italic_opening :=
          match look_ahead t (count + 2) with
          | Some c => negb (ascii_eqb c "*"%char) | None => true end in
        if is_italic_opening then
          pair_loop fuel' t true is_bold in_code_emphasis
            (result ++ [mkFuture ItalicStart (o + count + 1)]) precedence (S count) ignore_next_star
        else Some (result ++ [mkFuture BoldEnd (o + count + 1)])
      else
        pair_loop fuel' t is_italic is_bold in_code_emphasis result precedence (S count)
          ignore_next_star
    else
      pair_loop fuel' t is_italic is_bold in_code_emphasis result precedence (S count) false
  end
  end.

Definition find_formatting_pair (t : Tokenizer) : option (list FutureToken) :=
  let o := offset t in
  match look_ahead t 1, look_ahead t 2 with
  | Some next_char_1, Some next_char_2 =>
      let is_bold := ascii_eqb next_char_1 "*"%char in
      let is_italic := if is_bold then ascii_eqb next_char_2 "*"%char else true in
      let '(result, precedence) :=
        if is_bold && is_italic then ([], PNone)
        else if is_bold then ([mkFuture BoldStart o], PBold)
        else ([mkFuture ItalicStart o], PItalic) in
      pair_loop (S (length (src t))) t is_italic is_bold false result precedence 2 false
  | _, _ => None
  end.


(** One pass of the [loop] of [Iterator::next]: go on with a new text
    buffer, or return from [next]. *)
Inductive Step := Continue (text_buffer : str) | Return (token : option Token).

Definition mk_span (start : SourcePosition) : TM SourceSpan :=
  fun t => Some (mkSpan start (offset_source_position t), t).

Definition emit (k : TokenKind) (start : SourcePosition) : TM Step :=
  let* sp := mk_span start in ret (Return (Some (mkToken k sp))).

(** [if !text_buffer.is_empty() { self.mark_char_as_unconsumed(); return Text }]. *)
Definition flush_text (start : SourcePosition) (text_buffer : str) : TM Step :=
  let* _ := mark_char_as_unconsumed in emit (Text text_buffer) start.

Definition is_empty (l : str) : bool := match l with [] => true | _ => false end.

(** [loop { match self.look_ahead(count) { Some(stop) => break, Some(c) => acc.push(c), None => break }; count += 1 }]. *)
Fixpoint collect_until (fuel : nat) (t : Tokenizer) (stop : ascii) (count : nat) (acc : str)
    : nat * str :=
  match fuel with
  | O => (count, acc)
  | S fuel' =>
      match look_ahead t count with
      | Some c => if ascii_eqb c stop then (count, acc)
                  else collect_until fuel' t stop (S count) (acc ++ [c])
      | None => (count, acc)
      end
  end.

Definition insert_parameter (name value : str) (ps : FunctionParameters) : FunctionParameters :=
  <[string_of_list_ascii (trim name) := string_of_list_ascii (trim value)]> ps.

Fixpoint parameter_loop (fuel : nat) (t : Tokenizer) (count : nat) (parameters : FunctionParameters)
    (parameter_name parameter_value : str) (is_in_arg_name : bool) : nat * FunctionParameters :=
  match fuel with
  | O => (count, parameters)
  | S fuel' =>
      match look_ahead t count with
      | None => (count, parameters)
      | Some c =>
          if ascii_eqb c ")"%char then
            (count, if is_empty (trim parameter_name) then parameters
                    else insert_parameter parameter_name parameter_value parameters)
          else if ascii_eqb c ","%char then
            parameter_loop fuel' t (S count)
              (if is_empty (trim parameter_value) then parameters
               else insert_parameter parameter_name parameter_value parameters) [] [] true
          else if ascii_eqb c ":"%char then
            if is_in_arg_name then
              parameter_loop fuel' t (S count) parameters parameter_name parameter_value false
            else
              parameter_loop fuel' t (S count) parameters parameter_name
                (parameter_value ++ [c]) is_in_arg_name
          else if is_in_arg_name then
            parameter_loop fuel' t (S count) parameters (parameter_name ++ [c]) parameter_value
              is_in_arg_name
          else
            parameter_loop fuel' t (S count) parameters parameter_name (parameter_value ++ [c])
              is_in_arg_name
      end
  end.

(** The ['#'] branch. *)
Definition function_branch (start : SourcePosition) (text_buffer : str) : TM Step :=
  let* t := get in
  let fuel := S (length (src t)) in
  let '(count, function_name) := collect_until fuel t "("%char 1 [] in
  if is_empty function_name then ret (Continue (text_buffer ++ ["#"%char]))
  else
    let count := S count in
    let '(count, parameters) := parameter_loop fuel t count ∅ [] [] true in
    if negb (is_empty text_buffer) then flush_text start text_buffer
    else let* _ := ignore_next_chars count in emit (Function function_name parameters) start.

(** The ['!'] branch. *)
Definition image_branch (start : SourcePosition) (text_buffer : str) : TM Step :=
  let* t := get in
  let fuel := S (length (src t)) in
  let literal := ret (Continue (text_buffer ++ ["!"%char])) in
  if negb (match look_ahead t 1 with Some c => ascii_eqb c "["%char | None => false end)
  then literal
  else
    let '(count, label) := collect_until fuel t "]"%char 2 [] in
    if is_empty label then literal
    else if negb (match look_ahead t (count + 1) with
                  | Some c => ascii_eqb c "("%char | None => false end) then literal
    else
      let count := count + 2 in
      let '(count, image_src) := collect_until fuel t ")"%char count [] in
      if is_empty image_src then literal
      else if negb (is_empty text_buffer) then flush_text start text_buffer
      else let* _ := ignore_next_chars count in emit (Image label image_src) start.

(** The ['['] branch. *)
Definition link_branch (start : SourcePosition) (text_buffer : str) : TM Step :=
  let* t := get in
  let fuel := S (length (src t)) in
  let literal := ret (Continue (text_buffer ++ ["["%char])) in
  let '(count, label) := collect_until fuel t "]"%char 1 [] in
  if is_empty label then literal
  else if negb (match look_ahead t (count + 1) with
                | Some c => ascii_eqb c "("%char | None => false end) then literal
  else
    let count := count + 2 in
    let '(count, target) := collect_until fuel t ")"%char count [] in
    if is_empty target then literal
    else if negb (is_empty text_buffer) then flush_text start text_buffer
    else let* _ := ignore_next_chars count in emit (Link label target) start.

Definition is_bold_end (k : TokenKind) : bool := match k with BoldEnd => true | _ => false end.
Definition is_bold_start (k : TokenKind) : bool := match k with BoldStart => true | _ => false end.

(** The ['*'] branch. *)
Definition star_branch (start : SourcePosition) (text_buffer : str) : TM Step :=
  let* t := get in
  let o := offset t in
  match List.find (fun ft => ft_offset ft =? o) (future_closing_formatting_tokens t) with
  | Some ft =>
      if negb (is_empty text_buffer) then flush_text start text_buffer
      else
        let* _ := put (set_futures t (List.filter (fun x => negb (ft_offset x =? o))
                                        (future_closing_formatting_tokens t))) in
        let* _ := if is_bold_end (token_kind ft) then ignore_next_chars 1 else ret tt in
        emit (token_kind ft) start
  | None =>
      match find_formatting_pair t with
      | Some future_tokens =>
          if negb (is_empty text_buffer) then flush_text start text_buffer
          else
            match future_tokens with
            | [] => panic
            | first :: rest =>
                let* _ := put (set_futures t (future_closing_formatting_tokens t ++ rest)) in
                if is_bold_start (token_kind first) then
                  let* _ := ignore_next_chars 1 in emit BoldStart start
                else emit ItalicStart start
            end
      | None => ret (Continue (text_buffer ++ ["*"%char]))
      end
  end.

(** The ['`'] branch. *)
Definition backtick_branch (start : SourcePosition) (text_buffer : str) : TM Step :=
  if negb (is_empty text_buffer) then flush_text start text_buffer
  else
    let* t := get in
    match find_next_char_matching t "`"%char 0 with
    | None =>
        emit (Error "Could not find closing backtick" (offset_source_position t)) start
    | Some _ =>
        let* _ := put (set_code t true (next_token_is_code_emphasis t)) in
        emit CodeStart start
    end.

Fixpoint next_loop (fuel : nat) (start : SourcePosition) (text_buffer : str)
    (treat_next_special_char_as_text : bool) : TM (option Token) :=
  match fuel with
  | O => panic
  | S fuel' =>
    let continue_with buf := next_loop fuel' start buf false in
    let dispatch (m : TM Step) : TM (option Token) :=
      let* st := m in
      match st with Continue buf => continue_with buf | Return tok => ret tok end in
    let* next_char := read_next in
    match next_char with
    | None =>
        if is_empty text_buffer then ret None
        else let* sp := mk_span start in ret (Some (mkToken (Text text_buffer) sp))
    | Some c =>
      if treat_next_special_char_as_text then continue_with (text_buffer ++ [c])
      else
      let* t := get in
      if is_in_code_emphasis t then
        if next_token_is_code_emphasis t then
          let* _ := put (set_code t false false) in
          dispatch (emit CodeEnd start)
        else if ascii_eqb c "`"%char then
          let* _ := put (set_code t (is_in_code_emphasis t) true) in
          dispatch (flush_text start text_buffer)
        else continue_with (text_buffer ++ [c])
      else if ascii_eqb c "\"%char then next_loop fuel' start text_buffer true
      else if ascii_eqb c " "%char || ascii_eqb c chr_tab then
        continue_with (text_buffer ++ [" "%char])
      else if ascii_eqb c chr_lf then
        continue_with (match last text_buffer with
                       | Some " "%char => text_buffer
                       | _ => text_buffer ++ [" "%char]
                       end)
      else if ascii_eqb c "#"%char then dispatch (function_branch start text_buffer)
      else if ascii_eqb c "!"%char then dispatch (image_branch start text_buffer)
      else if ascii_eqb c "["%char then dispatch (link_branch start text_buffer)
      else if ascii_eqb c "*"%char then dispatch (star_branch start text_buffer)
      else if ascii_eqb c "`"%char then dispatch (backtick_branch start text_buffer)
      else if ascii_eqb c chr_cr then continue_with text_buffer
      else continue_with (text_buffer ++ [c])
    end
  end.

(** [Iterator::next]. *)
Definition next : TM (option Token) :=
  fun t => next_loop (S (S (length (src t)))) (offset_source_position t) [] false t.

Fixpoint collect (fuel : nat) : TM (list Token) :=
  match fuel with
  | O => panic
  | S fuel' =>
      let* tok := next in
      match tok with
      | None => ret []
      | Some tk => let* rest := collect fuel' in ret (tk :: rest)
      end
  end.

(** All tokens of a block; [None] is a panic. *)
Definition tokenize (src : str) (span : SourceSpan) : option (list Token) :=
  option_map fst (collect (S (2 * length src + 2)) (new src span)).

Definition kinds (src : str) : option (list TokenKind) :=
  option_map (map kind) (tokenize src (mkSpan SourcePosition_zero SourcePosition_zero)).

End Tokenizer.

(** ** parser::block::text::TextTree *)
Module TextTree.

Inductive TextNodeKind :=
| Root
| Text (src : str)
| Bold
| Italic
| Code
| Link (target : str)
| Image (src : str)
| Function (name : str) (parameters : gmap string string).

Record TextNode := mkNode { id : nat; kind : TextNodeKind; children : list nat; span : SourceSpan }.

(** [nodes: HashMap<TextNodeId, TextNode>]; [next_id] is the id generator. *)
Record TextTree := mkTree { nodes : gmap nat TextNode; root : nat; next_id : nat }.

Definition new (span : SourceSpan) : TextTree :=
  mkTree {[0 := mkNode 0 Root [] span]} 0 1.

Definition register_child (n : TextNode) (c : nat) : TextNode :=
  mkNode (id n) (kind n) (children n ++ [c]) (span n).

(** [register_node]; [get_mut(&parent_id).unwrap()] panics ([None]). *)
Definition register_node (t : TextTree) (parent_id : nat) (k : TextNodeKind) (sp : SourceSpan)
    : option (nat * TextTree) :=
  let i := next_id t in
  let ns := <[i := mkNode i k [] sp]> (nodes t) in
  match ns !! parent_id with
  | None => None
  | Some p => Some (i, mkTree (<[parent_id := register_child p i]> ns) (root t) (S i))
  end.

End TextTree.

(** ** parser::block::list::ListTree *)
Module ListTree.

Inductive ListNodeStyle := Ordered | Unordered.
Inductive ListNodeKind := Parent | Leaf (text_tree : TextTree.TextTree).
Record ListNode := mkNode { id : nat; kind : ListNodeKind; style : ListNodeStyle; children : list nat }.
Record ListTree := mkTree { items : gmap nat ListNode; root : nat; next_id : nat }.

Definition new : ListTree := mkTree {[0 := mkNode 0 Parent Unordered []]} 0 1.

End ListTree.

(** ** parser::block::quote::QuoteTree *)
Module QuoteTree.

Inductive QuoteNodeKind := Parent | Leaf (text_tree : TextTree.TextTree).
Record QuoteNode := mkNode { id : nat; kind : QuoteNodeKind; children : list nat }.
Record QuoteTree := mkTree { nodes : gmap nat QuoteNode; root : nat; next_id : nat }.

End QuoteTree.

(** ** parser::block::ParsedBlock *)
Inductive ParsedBlockKind :=
| PText (text_tree : TextTree.TextTree)
| PList (tree : ListTree.ListTree)
| PHeading (level : nat) (text_tree : TextTree.TextTree)
| PTable (header_row : list TextTree.TextTree) (rows : list (list TextTree.TextTree))
| PImage (text_tree : TextTree.TextTree) (src : str)
| PQuote (tree : QuoteTree.QuoteTree)
| PCode (language : option str) (src : str)
| PFunction (name : str) (parameters : gmap string string)
| PHorizontalRule.

Record ParsedBlock := mkParsed { pkind : ParsedBlockKind; pspan : SourceSpan }.

(** ** parser::text::TextParser *)
Module TextParser.

Import TextTree.

Definition reg (t : TextTree) (parent : nat) (k : TextNodeKind) (sp : SourceSpan)
    : run (nat * TextTree) :=
  match register_node t parent k sp with Some r => Ok r | None => Panic end.

(** The [for token in self.tokenizer] loop; the tokens are pulled one
    at a time, so an [Error] token stops the tokeniser there. *)
Fixpoint parse_loop (fuel : nat) (tok : Tokenizer.Tokenizer) (tree : TextTree) (stack : list nat)
    : run TextTree :=
  match fuel with
  | O => Panic
  | S fuel' =>
    match Tokenizer.next tok with
    | None => Panic
    | Some (None, _) => Ok tree
    | Some (Some token, tok) =>
      match last stack with
      | None => Panic
      | Some parent_node_id =>
        let sp := Tokenizer.span token in
        match Tokenizer.kind token with
        | Tokenizer.Error m p => Err (mkParseError m p)
        | Tokenizer.Text x =>
            run_bind (reg tree parent_node_id (Text x) sp) (fun '(_, tree) =>
              parse_loop fuel' tok tree stack)
        | Tokenizer.Link label target =>
            run_bind (reg tree parent_node_id (Link target) sp) (fun '(node_id, tree) =>
            run_bind (reg tree node_id (Text label) sp) (fun '(_, tree) =>
              parse_loop fuel' tok tree stack))
        | Tokenizer.Image label src =>
            run_bind (reg tree parent_node_id (Image src) sp) (fun '(node_id, tree) =>
            run_bind (reg tree node_id (Text label) sp) (fun '(_, tree) =>
              parse_loop fuel' tok tree stack))
        | Tokenizer.Function name parameters =>
            run_bind (reg tree parent_node_id (Function name parameters) sp) (fun '(_, tree) =>
              parse_loop fuel' tok tree stack)
        | Tokenizer.BoldStart =>
            run_bind (reg tree parent_node_id Bold sp) (fun '(node_id, tree) =>
              parse_loop fuel' tok tree (stack ++ [node_id]))
        | Tokenizer.ItalicStart =>
            run_bind (reg tree parent_node_id Italic sp) (fun '(node_id, tree) =>
              parse_loop fuel' tok tree (stack ++ [node_id]))
        | Tokenizer.CodeStart =>
            run_bind (reg tree parent_node_id Code sp) (fun '(node_id, tree) =>
              parse_loop fuel' tok tree (stack ++ [node_id]))
        | Tokenizer.BoldEnd | Tokenizer.ItalicEnd | Tokenizer.CodeEnd =>
            parse_loop fuel' tok tree (removelast stack)
        end
      end
    end
  end.

Definition parse_tree (src : str) (span : SourceSpan) : run TextTree :=
  let tree := new span in
  parse_loop (S (2 * length src + 2)) (Tokenizer.new src span) tree [root tree].

Definition parse (src : str) (span : SourceSpan) : run ParsedBlock :=
  run_bind (parse_tree src span) (fun tree => Ok (mkParsed (PText tree) span)).

End TextParser.

(** ** parser::heading::HeadingParser *)
Module HeadingParser.

(** [self.src[offset..]] panics when [offset] is past the end. *)
Definition parse (src : str) (span : SourceSpan) : run ParsedBlock :=
  let heading_level := Categorizer.count_leading "#"%char src in
  let offset := heading_level + 1 in
  if length src <? offset then Panic
  else
    run_bind (TextParser.parse (skipn offset src) span) (fun parsed_block =>
      match pkind parsed_block with
      | PText text_tree => Ok (mkParsed (PHeading heading_level text_tree) span)
      | _ => Panic
      end).

End HeadingParser.

(** ** parser::BlockParser and lib::convert

    The List, Code, Table, Image and Quote block parsers take part in
    [convert] only through their [ParseResult<ParsedBlock>]; they are
    section variables, so the statements below hold for any of them. *)
Section Pipeline.

Variable ListParser_parse : str -> SourceSpan -> run ParsedBlock.
Variable CodeParser_parse : str -> SourceSpan -> run ParsedBlock.
Variable TableParser_parse : str -> SourceSpan -> run ParsedBlock.
Variable ImageParser_parse : str -> SourceSpan -> run ParsedBlock.
Variable QuoteParser_parse : str -> SourceSpan -> run ParsedBlock.

Definition BlockParser_parse (categorized_block : Categorizer.CategorizedBlock) : run ParsedBlock :=
  let src := Categorizer.src categorized_block in
  let span := Categorizer.span categorized_block in
  match Categorizer.kind categorized_block with
  | Categorizer.Text => TextParser.parse src span
  | Categorizer.Heading => HeadingParser.parse src span
  | Categorizer.List => ListParser_parse src span
  | Categorizer.HorizontalRule => Ok (mkParsed PHorizontalRule span)
  | Categorizer.Code => CodeParser_parse src span
  | Categorizer.Table => TableParser_parse src span
  | Categorizer.Image => ImageParser_parse src span
  | Categorizer.Quote => QuoteParser_parse src span
  | Categorizer.Function =>
      run_bind (FunctionParser.parse src span) (fun b =>
        Ok (mkParsed (PFunction (FunctionParser.name b) (FunctionParser.parameters b)) span))
  end.

(** [splitter.map(categorize).map(parse).collect::<Result<Vec<_>, _>>()]:
    the iterator is lazy, so the first [Err] stops the splitter. *)
Fixpoint convert_blocks (fuel : nat) (splitter : Splitter.BlockSplitter) (acc : list ParsedBlock)
    : run (list ParsedBlock) :=
  match fuel with
  | O => Panic
  | S fuel' =>
      match Splitter.next splitter with
      | None => Panic
      | Some (None, _) => Ok acc
      | Some (Some block, splitter) =>
          match Categorizer.categorize block with
          | None => Panic
          | Some categorized_block =>
              run_bind (BlockParser_parse categorized_block) (fun parsed =>
                convert_blocks fuel' splitter (acc ++ [parsed]))
          end
      end
  end.

(** [convert]: after collecting the parsed blocks (and printing them) it
    returns [Ok("".to_string())]; the [Err] case carries the first
    [ParseError] (formatted into the boxed error in the source). *)
Definition convert (input : str) : run str :=
  run_bind (convert_blocks (S (S (length input))) (Splitter.new input) []) (fun _blocks =>
    Ok []).

End Pipeline.

(** ** transformer: the Letter Script tree and [transform] *)
Module Transformer.

Inductive LetterScriptNodeKind :=
| Root
| Text (text : str)
| Heading
| Paragraph
| Section
| Image (src : str)
| Quote
| List (ordered : bool)
| ListItem
| HorizontalRule
| Link (target : str)
| Bold
| Italic
| Code (language : option str)
| Table
| TableHeaderRow
| TableRow
| TableCell
| Function (name : str) (parameters : gmap string string).

Record LetterScriptNode := mkNode {
  id : nat; kind : LetterScriptNodeKind; children : list nat; span : SourceSpan }.

Record LetterScriptTree := mkTree {
  node_lookup : gmap nat LetterScriptNode; root_id : nat; next_id : nat }.

Definition zero_span : SourceSpan := mkSpan SourcePosition_zero SourcePosition_zero.

Definition new : LetterScriptTree := mkTree {[0 := mkNode 0 Root [] zero_span]} 0 1.

Definition get_node (t : LetterScriptTree) (i : nat) : option LetterScriptNode :=
  node_lookup t !! i.

Definition register_child (n : LetterScriptNode) (c : nat) : LetterScriptNode :=
  mkNode (id n) (kind n) (children n ++ [c]) (span n).

(** [register_node]; [get_mut(&parent_id).unwrap()] panics ([None]). *)
Definition register_node (t : LetterScriptTree) (parent_id : nat) (k : LetterScriptNodeKind)
    (sp : SourceSpan) : option (nat * LetterScriptTree) :=
  let i := next_id t in
  let ns := <[i := mkNode i k [] sp]> (node_lookup t) in
  match ns !! parent_id with
  | None => None
  | Some p => Some (i, mkTree (<[parent_id := register_child p i]> ns) (root_id t) (S i))
  end.

(** The transformer's state: the tree and [node_stack]. The stack is a
    list whose head is the [Vec]'s last element: [last().unwrap()] is
    [head] (a panic when empty), [push] is [cons], [pop] is [tail]. *)
Abbreviation State := (LetterScriptTree * list nat)%type.

Fixpoint foldM {A B} (f : A -> B -> option A) (xs : list B) (a : A) : option A :=
  match xs with
  | [] => Some a
  | x :: xs' => f a x ≫= foldM f xs'
  end.

Definition push_node (parent_k : LetterScriptNodeKind) (sp : SourceSpan) (st : State) : option State :=
  let '(t, stk) := st in
  parent_id ← head stk;
  '(i, t) ← register_node t parent_id parent_k sp;
  Some (t, i :: stk).

Definition pop (st : State) : State := (st.1, tail st.2).

(** [transform_text_node]'s kind mapping; [Root] is [unreachable!()]. *)
Definition map_text_kind (k : TextTree.TextNodeKind) : option LetterScriptNodeKind :=
  match k with
  | TextTree.Root => None
  | TextTree.Text x => Some (Text x)
  | TextTree.Bold => Some Bold
  | TextTree.Italic => Some Italic
  | TextTree.Code => Some (Code None)
  | TextTree.Link target => Some (Link target)
  | TextTree.Image src => Some (Image src)
  | TextTree.Function name parameters => Some (Function name parameters)
  end.

(** The recursion follows the text tree; [fuel] bounds its depth. *)
Fixpoint transform_text_node (fuel : nat) (text_tree : TextTree.TextTree) (st : State)
    (text_node_id : nat) : option State :=
  match fuel with
  | O => None
  | S fuel' =>
      let '(t, stk) := st in
      _ ← head stk;
      text_node ← TextTree.nodes text_tree !! text_node_id;
      node_kind ← map_text_kind (TextTree.kind text_node);
      st ← push_node node_kind (TextTree.span text_node) (t, stk);
      st ← foldM (transform_text_node fuel' text_tree) (TextTree.children text_node) st;
      Some (pop st)
  end.

Definition transform_text_tree (text_tree : TextTree.TextTree) (st : State) : option State :=
  root ← TextTree.nodes text_tree !! TextTree.root text_tree;
  foldM (transform_text_node (S (TextTree.next_id text_tree)) text_tree)
    (TextTree.children root) st.

Fixpoint transform_list_item (fuel : nat) (list_tree : ListTree.ListTree) (sp : SourceSpan)
    (st : State) (item_node_id : nat) : option State :=
  match fuel with
  | O => None
  | S fuel' =>
      list_node ← ListTree.items list_tree !! item_node_id;
      match ListTree.kind list_node with
      | ListTree.Parent =>
          let is_ordered := match ListTree.style list_node with
                            | ListTree.Ordered => true | ListTree.Unordered => false end in
          st ← push_node (List is_ordered) sp st;
          st ← foldM (transform_list_item fuel' list_tree sp) (ListTree.children list_node) st;
          Some (pop st)
      | ListTree.Leaf text_tree =>
          st ← push_node ListItem sp st;
          st ← transform_text_tree text_tree st;
          Some (pop st)
      end
  end.

Definition transform_list_block (list_tree : ListTree.ListTree) (sp : SourceSpan) (st : State)
    : option State :=
  root ← ListTree.items list_tree !! ListTree.root list_tree;
  transform_list_item (S (ListTree.next_id list_tree)) list_tree sp st (ListTree.id root).

Fixpoint transform_quote_node (fuel : nat) (quote_tree : QuoteTree.QuoteTree) (sp : SourceSpan)
    (st : State) (quote_node_id : nat) : option State :=
  match fuel with
  | O => None
  | S fuel' =>
      quote_node ← QuoteTree.nodes quote_tree !! quote_node_id;
      match QuoteTree.kind quote_node with
      | QuoteTree.Parent =>
          st ← push_node Quote sp st;
          st ← foldM (transform_quote_node fuel' quote_tree sp) (QuoteTree.children quote_node) st;
          Some (pop st)
      | QuoteTree.Leaf text_tree => transform_text_tree text_tree st
      end
  end.

Definition transform_quote_block (quote_tree : QuoteTree.QuoteTree) (sp : SourceSpan) (st : State)
    : option State :=
  root ← QuoteTree.nodes quote_tree !! QuoteTree.root quote_tree;
  transform_quote_node (S (QuoteTree.next_id quote_tree)) quote_tree sp st (QuoteTree.id root).

Definition transform_table_cell (sp : SourceSpan) (st : State) (cell : TextTree.TextTree)
    : option State :=
  st ← push_node TableCell sp st;
  st ← transform_text_tree cell st;
  Some (pop st).

Definition transform_table_row (row_kind : LetterScriptNodeKind) (sp : SourceSpan) (st : State)
    (row : list TextTree.TextTree) : option State :=
  st ← push_node row_kind sp st;
  st ← foldM (transform_table_cell sp) row st;
  Some (pop st).

Definition transform_table_block (header_row : list TextTree.TextTree)
    (rows : list (list TextTree.TextTree)) (sp : SourceSpan) (st : State) : option State :=
  st ← push_node Table sp st;
  st ← transform_table_row TableHeaderRow sp st header_row;
  st ← foldM (transform_table_row TableRow sp) rows st;
  Some (pop st).

Definition transform_image_block (text_tree : TextTree.TextTree) (src : str) (sp : SourceSpan)
    (st : State) : option State :=
  st ← push_node (Image src) sp st;
  st ← transform_text_tree text_tree st;
  Some (pop st).

(** The code node gets a [Text] child; the stack is left unchanged. *)
Definition transform_code_block (language : option str) (src : str) (sp : SourceSpan) (st : State)
    : option State :=
  let '(t, stk) := st in
  parent_id ← head stk;
  '(node_id, t) ← register_node t parent_id (Code language) sp;
  '(_, t) ← register_node t node_id (Text src) sp;
  Some (t, stk).

Definition register_leaf (k : LetterScriptNodeKind) (sp : SourceSpan) (st : State) : option State :=
  let '(t, stk) := st in
  parent_id ← head stk;
  '(_, t) ← register_node t parent_id k sp;
  Some (t, stk).

Definition transform_text_block (text_tree : TextTree.TextTree) (sp : SourceSpan) (st : State)
    : option State :=
  st ← push_node Paragraph sp st;
  st ← transform_text_tree text_tree st;
  Some (pop st).

(** [current_level]: one plus the number of [Section] nodes on the stack
    ([get_node] unwraps). *)
Definition current_level (t : LetterScriptTree) (stk : list nat) : option nat :=
  foldM (fun acc node_id =>
           n ← get_node t node_id;
           Some (match kind n with Section => S acc | _ => acc end)) stk 1.

Fixpoint push_sections (count : nat) (sp : SourceSpan) (st : State) : option State :=
  match count with
  | O => Some st
  | S count' => st ← push_node Section sp st; push_sections count' sp st
  end.

Definition transform_heading_block (level : nat) (text_tree : TextTree.TextTree) (sp : SourceSpan)
    (st : State) : option State :=
  let '(t, stk) := st in
  cur ← current_level t stk;
  st ← (if cur <? level then push_sections (level - cur) sp (t, stk)
        else if level <? cur then Some (t, Nat.iter (cur - level) (@tail nat) stk)
        else Some (t, stk));
  st ← push_node Heading sp st;
  st ← transform_text_tree text_tree st;
  Some (pop st).

Definition transform_block (st : State) (block : ParsedBlock) : option State :=
  let sp := pspan block in
  match pkind block with
  | PText text_tree => transform_text_block text_tree sp st
  | PList list_tree => transform_list_block list_tree sp st
  | PHeading level text_tree => transform_heading_block level text_tree sp st
  | PTable header_row rows => transform_table_block header_row rows sp st
  | PImage text_tree src => transform_image_block text_tree src sp st
  | PQuote quote_tree => transform_quote_block quote_tree sp st
  | PCode language src => transform_code_block language src sp st
  | PFunction name parameters => register_leaf (Function name parameters) sp st
  | PHorizontalRule => register_leaf HorizontalRule sp st
  end.

(** [transform]: [node_stack] starts as [vec![tree.root_id()]]. *)
Definition transform (blocks : list ParsedBlock) : option LetterScriptTree :=
  let tree := new in
  st ← foldM transform_block blocks (tree, [root_id tree]);
  Some st.1.

(** Reading the tree: the ids of its [Heading] nodes in id order, the
    parent of a node (the node whose [children] list it), and the number
    of [Section] nodes among a node's proper ancestors. *)
Definition is_heading_node (t : LetterScriptTree) (i : nat) : bool :=
  match get_node t i with Some n => match kind n with Heading => true | _ => false end
                        | None => false end.

Definition is_section_node (t : LetterScriptTree) (i : nat) : bool :=
  match get_node t i with Some n => match kind n with Section => true | _ => false end
                        | None => false end.

Definition heading_ids (t : LetterScriptTree) : list nat :=
  List.filter (fun i => is_heading_node t i) (seq 0 (next_id t)).

Definition has_child (t : LetterScriptTree) (p x : nat) : bool :=
  match get_node t p with Some n => existsb (Nat.eqb x) (children n) | None => false end.

Definition parent_of (t : LetterScriptTree) (x : nat) : option nat :=
  List.find (fun p => has_child t p x) (seq 0 (next_id t)).

Fixpoint section_ancestors_fuel (fuel : nat) (t : LetterScriptTree) (x : nat) : option nat :=
  match fuel with
  | O => None
  | S fuel' =>
      if x =? root_id t then Some 0
      else match parent_of t x with
           | None => None
           | Some p =>
               k ← section_ancestors_fuel fuel' t p;
               Some ((if is_section_node t p then 1 else 0) + k)
           end
  end.

Definition section_ancestors (t : LetterScriptTree) (x : nat) : option nat :=
  section_ancestors_fuel (S (next_id t)) t x.

(** *** [LetterScriptTree::to_string] *)
Definition chr_quote : ascii := "034"%char.

Definition quoted (x : str) : str := [chr_quote] ++ x ++ [chr_quote].

Fixpoint str_ltb (a b : str) : bool :=
  match a, b with
  | _, [] => false
  | [], _ :: _ => true
  | c :: a', d :: b' =>
      if nat_of_ascii c <? nat_of_ascii d then true
      else if nat_of_ascii d <? nat_of_ascii c then false
      else str_ltb a' b'
  end.

Fixpoint insert_sorted (e : str * str) (l : list (str * str)) : list (str * str) :=
  match l with
  | [] => [e]
  | e' :: l' => if str_ltb e.1 e'.1 then e :: l else e' :: insert_sorted e l'
  end.

(** [entries.sort_by(|(a, _), (b, _)| a.cmp(b))]. *)
Definition sorted_entries (parameters : gmap string string) : list (str * str) :=
  fold_right insert_sorted []
    (map (fun '(k, v) => (list_ascii_of_string k, list_ascii_of_string v))
         (map_to_list parameters)).

Fixpoint join_lines (sep : str) (ls : list str) : str :=
  match ls with
  | [] => []
  | [l] => l
  | l :: ls' => l ++ sep ++ join_lines sep ls'
  end.

Definition stringify_node_start (n : LetterScriptNode) (indent_str : str) : str :=
  indent_str ++
  match kind n with
  | Text text => join_lines (chr_lf :: indent_str) (split_on chr_lf text)
  | Heading => s "<heading>"
  | Paragraph => s "<paragraph>"
  | Section => s "<section>"
  | Image src => s "<image src=" ++ quoted src ++ s ">"
  | Quote => s "<quote>"
  | List ordered => if ordered then s "<list ordered=" ++ quoted (s "true") ++ s ">" else s "<list>"
  | ListItem => s "<list-item>"
  | HorizontalRule => s "<horizontal-rule/>"
  | Link target => s "<link target=" ++ quoted target ++ s ">"
  | Bold => s "<b>"
  | Italic => s "<i>"
  | Code language =>
      s "<code" ++
      match language with Some l => s " language=" ++ quoted l | None => [] end ++ s ">"
  | Table => s "<table>"
  | TableHeaderRow => s "<table-header-row>"
  | TableRow => s "<table-row>"
  | TableCell => s "<table-cell>"
  | Function name parameters =>
      s "<" ++ name ++
      concat (map (fun '(k, v) => s " " ++ k ++ s "=" ++ quoted v) (sorted_entries parameters)) ++
      s ">"
  | Root => []
  end ++ [chr_lf].

Definition stringify_node_end (n : LetterScriptNode) (indent_str : str) : str :=
  let x := match kind n with
           | Heading => s "</heading>"
           | Paragraph => s "</paragraph>"
           | Section => s "</section>"
           | Image _ => s "</image>"
           | Quote => s "</quote>"
           | List _ => s "</list>"
           | ListItem => s "</list-item>"
           | Link _ => s "</link>"
           | Bold => s "</b>"
           | Italic => s "</i>"
           | Code _ => s "</code>"
           | Table => s "</table>"
           | TableHeaderRow => s "</table-header-row>"
           | TableRow => s "</table-row>"
           | TableCell => s "</table-cell>"
           | Function name _ => s "</" ++ name ++ s ">"
           | _ => []
           end in
  match x with [] => [] | _ => indent_str ++ x ++ [chr_lf] end.

Fixpoint stringify_node (fuel : nat) (t : LetterScriptTree) (indent : nat) (node_id : nat)
    : option str :=
  match fuel with
  | O => None
  | S fuel' =>
      n ← get_node t node_id;
      let indent_string := repeat chr_space indent in
      body ← foldM (fun acc c => r ← stringify_node fuel' t (indent + 4) c; Some (acc ++ r))
               (children n) [];
      Some (stringify_node_start n indent_string ++ body ++ stringify_node_end n indent_string)
  end.

Definition to_string (t : LetterScriptTree) : option str :=
  root_node ← get_node t (root_id t);
  foldM (fun acc c => r ← stringify_node (S (next_id t)) t 0 c; Some (acc ++ r))
    (children root_node) [].

End Transformer.

(** ** Invariants of the transformer's tree and stack (used by the proofs) *)
Module TreeInvariants.

Import Transformer.

(** [x] is listed among the children of [p]. *)
Definition childrel (t : LetterScriptTree) (p x : nat) : Prop :=
  exists n, node_lookup t !! p = Some n /\ In x (children n).

(** Ids are [0 .. next_id), node [0] is the [Root], every child has a
    larger id than its parent, and every other node has exactly one parent. *)
Record Inv (t : LetterScriptTree) : Prop := {
  inv_root : root_id t = 0;
  inv_dom : forall x, is_Some (node_lookup t !! x) <-> x < next_id t;
  inv_root_kind : exists n, node_lookup t !! 0 = Some n /\ kind n = Root;
  inv_child_lt : forall p n x, node_lookup t !! p = Some n -> In x (children n) ->
                 p < x /\ x < next_id t;
  inv_parent_unique : forall x p1 p2, childrel t p1 x -> childrel t p2 x -> p1 = p2;
  inv_parent_exists : forall x, 0 < x < next_id t -> exists p, childrel t p x
}.

(** [t'] extends [t]: the old nodes keep their kinds and parents. *)
Record Ext (t t' : LetterScriptTree) : Prop := {
  ext_next : next_id t <= next_id t';
  ext_root : root_id t' = root_id t;
  ext_kind : forall x, x < next_id t ->
             option_map kind (node_lookup t' !! x) = option_map kind (node_lookup t !! x);
  ext_child : forall p x, x < next_id t -> childrel t' p x <-> childrel t p x
}.

(** None of the nodes added from [t] to [t'] is a [Heading]. *)
Definition NewNoHeading (t t' : LetterScriptTree) : Prop :=
  forall y, next_id t <= y < next_id t' -> is_heading_node t' y = false.

Definition Grow (t t' : LetterScriptTree) : Prop := Inv t' /\ Ext t t' /\ NewNoHeading t t'.

(** The stack at a heading boundary: [Section] nodes over the root, each
    a child of the one below it; [k] counts them. *)
Inductive Chain (t : LetterScriptTree) : list nat -> nat -> Prop :=
| ch_root : Chain t [0] 0
| ch_sec x p rest k :
    Chain t (p :: rest) k -> is_section_node t x = true -> childrel t p x ->
    Chain t (x :: p :: rest) (S k).

(** A state whose stack holds only ids of the tree. *)
Definition StackBelow (st : State) : Prop :=
  Inv st.1 /\ Forall (fun y => y < next_id st.1) st.2.

(** [st'] has the stack of [st] and a grown tree. *)
Definition SameStack (st st' : State) : Prop := st'.2 = st.2 /\ Grow st.1 st'.1.

End TreeInvariants.

(** ** Sample inputs and predicates used in the statements *)
Module Auxiliary.

(** The chars the splitter's loop keeps in a block without ending a
    line's content: [' '], ['\t'], ['\n'] and the dropped ['\r']. *)
Definition is_blank (w : ascii) : bool :=
  ascii_eqb w chr_space || ascii_eqb w chr_tab || ascii_eqb w chr_lf || ascii_eqb w chr_cr.

Definition blank (w : ascii) : Prop := In w [chr_space; chr_tab; chr_lf; chr_cr].

(** A parsed heading block of the given level with an empty text tree. *)
Definition heading_block (level : nat) : ParsedBlock :=
  mkParsed (PHeading level (TextTree.new Transformer.zero_span)) Transformer.zero_span.

(** Rejoining block sources with one blank line between them. *)
Definition join_blocks (srcs : list str) : str := Transformer.join_lines [chr_lf; chr_lf] srcs.

End Auxiliary.

(** ** parser::code::CodeParser *)
Module CodeParser.

(** [str::starts_with] and [str::ends_with] on a string pattern. *)
Fixpoint starts_with (pat l : str) : bool :=
  match pat, l with
  | [], _ => true
  | c :: pat', d :: l' => ascii_eqb c d && starts_with pat' l'
  | _ :: _, [] => false
  end.

Definition ends_with (pat l : str) : bool := starts_with (rev pat) (rev l).

(** [str::trim_end]. *)
Definition trim_end (l : str) : str := rev (trim_start (rev l)).

Definition fence : str := s "```".

(** The loop over [trimmed_src[3..].chars()]: a space, tab or line feed
    ends it; a backtick clears what was read and ends it. *)
Fixpoint language_loop (l : str) (language_identifier : str) : str :=
  match l with
  | [] => language_identifier
  | c :: l' =>
      if ascii_eqb c " "%char || ascii_eqb c chr_tab || ascii_eqb c chr_lf then language_identifier
      else if ascii_eqb c "`"%char then []
      else language_loop l' (language_identifier ++ [c])
  end.

Record CodeBlockHeader := mkHeader { header_offset : nat; language_identifier : option str }.

Definition find_header (src : str) (span : SourceSpan) : run CodeBlockHeader :=
  let trimmed_src := trim_start src in
  let offset := length src - length trimmed_src in
  if starts_with fence trimmed_src then
    let li := language_loop (skipn 3 trimmed_src) [] in
    Ok (mkHeader (offset + 3 + length li) (match li with [] => None | _ => Some li end))
  else Err (mkParseError "Code block must be started with '```'" (span_start span)).

(** [offset -= 3] is a [usize] subtraction (a panic below 3). *)
Definition find_footer (src : str) (span : SourceSpan) : run nat :=
  let trimmed_src_len := length (trim_end src) in
  if ends_with fence src then
    (if trimmed_src_len <? 3 then Panic else Ok (trimmed_src_len - 3))
  else Err (mkParseError "Code block must be ended with '```'" (span_end span)).

(** [self.src[header.offset..footer.offset]] panics when the start is
    past the end. *)
Definition parse (src : str) (span : SourceSpan) : run ParsedBlock :=
  run_bind (find_header src span) (fun header =>
  run_bind (find_footer src span) (fun footer_offset =>
    if footer_offset <? header_offset header then Panic
    else
      let code_src :=
        trim (firstn (footer_offset - header_offset header) (skipn (header_offset header) src)) in
      Ok (mkParsed (PCode (language_identifier header) code_src) span))).

End CodeParser.

(** ** parser::image::ImageParser *)
Module ImageParser.

(** The loop over [src.char_indices()]: the index of the first [']']
    not matched by an earlier ['['], or [0] when there is none. *)
Fixpoint closing_bracket_loop (l : str) (i ignore_next_closing_brackets : nat) : nat :=
  match l with
  | [] => 0
  | c :: l' =>
      if ascii_eqb c "["%char then closing_bracket_loop l' (S i) (S ignore_next_closing_brackets)
      else if ascii_eqb c "]"%char then
        match ignore_next_closing_brackets with
        | O => i
        | S n => closing_bracket_loop l' (S i) n
        end
      else closing_bracket_loop l' (S i) ignore_next_closing_brackets
  end.

(** The chars up to the first [')']. *)
Fixpoint image_src_loop (l : str) : str :=
  match l with
  | [] => []
  | c :: l' => if ascii_eqb c ")"%char then [] else c :: image_src_loop l'
  end.

(** [&src[2..]] and [&src[closing_bracket_offset + 2..]] panic past the
    end; the [offset] counts the chars [trim] removed on both sides. *)
Definition parse (src0 : str) (span : SourceSpan) : run ParsedBlock :=
  let src := trim src0 in
  let offset := length src0 - length src in
  if length src <? 2 then Panic
  else
    let src := skipn 2 src in
    let closing_bracket_offset := closing_bracket_loop src 0 0 in
    let text_src := trim (firstn closing_bracket_offset src) in
    let ln := line (span_start span) in
    run_bind (TextParser.parse text_src
                (mkSpan (mkPos ln (offset + 2)) (mkPos ln (offset + 2 + closing_bracket_offset))))
      (fun text_block =>
         match pkind text_block with
         | PText text_tree =>
             if length src <? closing_bracket_offset + 2 then Panic
             else
               let image_src := image_src_loop (skipn (closing_bracket_offset + 2) src) in
               Ok (mkParsed (PImage text_tree image_src) span)
         | _ => Panic
         end).

End ImageParser.

(** ** parser::table::TableParser *)
Module TableParser.

Inductive RowKind := Header | HeaderSeparator | Body.

Definition for_line_index (line_index : nat) : RowKind :=
  match line_index with
  | 0 => Header
  | 1 => HeaderSeparator
  | _ => Body
  end.

(** The parser's [header_row] and [rows] fields. *)
Record TableRows := mkRows { header_row : list TextTree.TextTree; rows : list (list TextTree.TextTree) }.

(** [offset - value.len()] is a [usize] subtraction (a panic below 0). *)
Definition create_cell (value : str) (line_number offset : nat) : run TextTree.TextTree :=
  let trimmed_value := trim value in
  if offset <? length value then Panic
  else
    let span := mkSpan (mkPos line_number (offset - length value))
                  (mkPos line_number (offset - (length value - length trimmed_value))) in
    run_bind (TextParser.parse trimmed_value span) (fun parsed_block =>
      match pkind parsed_block with
      | PText text_tree => Ok text_tree
      | _ => Panic
      end).

(** [consume_buffer_and_register_cell] (the caller clears the buffer). *)
Definition consume_buffer_and_register_cell (tp : TableRows) (cell_value_buffer : str)
    (line_number offset row_index : nat) : run TableRows :=
  match for_line_index row_index with
  | HeaderSeparator => Ok tp
  | row_kind =>
      run_bind (create_cell cell_value_buffer line_number offset) (fun cell =>
        match row_kind with
        | Header => Ok (mkRows (header_row tp ++ [cell]) (rows tp))
        | _ =>
            let internal_row_index := row_index - 2 in
            let rs := if length (rows tp) <=? internal_row_index then rows tp ++ [[]] else rows tp in
            match last rs with
            | None => Panic
            | Some r => Ok (mkRows (header_row tp) (removelast rs ++ [r ++ [cell]]))
            end
        end)
  end.

(** The loop over [line.chars()]. *)
Fixpoint line_loop (tp : TableRows) (line : str) (started_row : bool) (offset : nat)
    (cell_value_buffer : str) (line_number row_index : nat) : run TableRows :=
  match line with
  | [] => Ok tp
  | c :: line' =>
      if ascii_eqb c "|"%char then
        if started_row then
          run_bind (consume_buffer_and_register_cell tp cell_value_buffer line_number offset row_index)
            (fun tp => line_loop tp line' true (S offset) [] line_number row_index)
        else line_loop tp line' true (S offset) cell_value_buffer line_number row_index
      else if ascii_eqb c chr_lf then
        line_loop tp line' false (S offset) cell_value_buffer line_number row_index
      else line_loop tp line' started_row (S offset) (cell_value_buffer ++ [c]) line_number row_index
  end.

(** The loop over [src.lines().enumerate()]. *)
Fixpoint rows_loop (tp : TableRows) (ls : list str) (row_index start_line : nat) : run TableRows :=
  match ls with
  | [] => Ok tp
  | l :: ls' =>
      run_bind (line_loop tp l false 1 [] (start_line + row_index) row_index) (fun tp =>
        rows_loop tp ls' (S row_index) start_line)
  end.

Definition parse (src : str) (span : SourceSpan) : run ParsedBlock :=
  run_bind (rows_loop (mkRows [] []) (lines src) 0 (line (span_start span))) (fun tp =>
    Ok (mkParsed (PTable (header_row tp) (rows tp)) span)).

End TableParser.

(** ** parser::list::ListParser::parse and ListTree::register_node *)
Module ListBlockParser.

Import ListTree ListParser.

(** [ListTree::register_node]; [get_mut(&parent_id).unwrap()] panics ([None]). *)
Definition register_node (t : ListTree) (parent_id : nat) (k : ListNodeKind) (st : ListNodeStyle)
    : option (nat * ListTree) :=
  let i := next_id t in
  let ns := <[i := mkNode i k st []]> (items t) in
  match ns !! parent_id with
  | None => None
  | Some p => Some (i, mkTree (<[parent_id := mkNode (id p) (kind p) (style p) (children p ++ [i])]> ns)
                          (root t) (S i))
  end.

(** [#[derive(PartialEq)]] on [Indent]. *)
Definition indent_eqb (a b : Indent) : bool :=
  match a, b with
  | Zero, Zero => true
  | Tab n, Tab m => n =? m
  | Space n, Space m => n =? m
  | _, _ => false
  end.

Definition reg (t : ListTree) (parent_id : nat) (k : ListNodeKind) (st : ListNodeStyle)
    : run (nat * ListTree) :=
  match register_node t parent_id k st with Some r => Ok r | None => Panic end.

(** The [for item in items] loop; the stacks are lists whose last
    element is the [Vec]'s last one. *)
Fixpoint items_parse_loop (items : list ItemInSource) (tree : ListTree)
    (parent_node_id_stack : list nat) (required_indents : list Indent) : run ListTree :=
  match items with
  | [] => Ok tree
  | item :: items' =>
      match last parent_node_id_stack with
      | None => Panic
      | Some parent_node_id =>
          let parent_node_level := length parent_node_id_stack in
          match nth_error required_indents (parent_node_level - 1) with
          | None => Panic
          | Some required_indent_for_same_level =>
              let list_node_style := if is_ordered item then Ordered else Unordered in
              run_bind (TextParser.parse (content item) (item_span item)) (fun text_block =>
                match pkind text_block with
                | PText text_tree =>
                    if indent_eqb (indent item) required_indent_for_same_level then
                      run_bind (reg tree parent_node_id (Leaf text_tree) list_node_style)
                        (fun '(_, tree) =>
                           items_parse_loop items' tree parent_node_id_stack required_indents)
                    else if Indent_count required_indent_for_same_level <? Indent_count (indent item) then
                      run_bind (reg tree parent_node_id Parent list_node_style)
                        (fun '(new_parent_node_id, tree) =>
                      run_bind (reg tree new_parent_node_id (Leaf text_tree) list_node_style)
                        (fun '(_, tree) =>
                           items_parse_loop items' tree (parent_node_id_stack ++ [new_parent_node_id])
                             (required_indents ++ [indent item])))
                    else
                      let required_indents := removelast required_indents in
                      let parent_node_id_stack := removelast parent_node_id_stack in
                      match last parent_node_id_stack with
                      | None => Panic
                      | Some new_parent_node_id =>
                          run_bind (reg tree new_parent_node_id (Leaf text_tree) list_node_style)
                            (fun '(_, tree) =>
                               items_parse_loop items' tree parent_node_id_stack required_indents)
                      end
                | _ => Panic
                end)
          end
      end
  end.

(** [ListParser::parse]. *)
Definition parse (src : str) (span : SourceSpan) : run ParsedBlock :=
  run_bind (find_items_in_src src span) (fun items =>
  run_bind (items_parse_loop items ListTree.new [ListTree.root ListTree.new] [Zero]) (fun tree =>
    Ok (mkParsed (PList tree) span))).

End ListBlockParser.

(** ** parser::quote::QuoteParser and QuoteTree::{new, register_node} *)
Module QuoteParser.

Import QuoteTree.

Definition new : QuoteTree := mkTree {[0 := mkNode 0 Parent []]} 0 1.

(** [QuoteTree::register_node]; [get_mut(&parent).unwrap()] panics ([None]). *)
Definition register_node (t : QuoteTree) (parent : nat) (k : QuoteNodeKind) : option (nat * QuoteTree) :=
  let i := next_id t in
  let ns := <[i := mkNode i k []]> (nodes t) in
  match ns !! parent with
  | None => None
  | Some p => Some (i, mkTree (<[parent := mkNode (id p) (kind p) (children p ++ [i])]> ns) (root t) (S i))
  end.

Record IndentedQuoteLine := mkQuoteLine {
  q_line : str; q_line_number : nat; q_indent : nat; q_offset : nat }.

Definition decimal (n : nat) : string := NilZero.string_of_uint (Nat.to_uint n).

(** The loop over [line.chars()]: blanks are skipped, each ['>'] adds one
    to the indent, and the first other char ends it (an [Err] when no
    ['>'] came before). *)
Fixpoint quote_line_loop (l : str) (indent offset line_number : nat) : run (nat * nat) :=
  match l with
  | [] => Ok (indent, offset)
  | c :: l' =>
      if ascii_eqb c chr_tab || ascii_eqb c " "%char then quote_line_loop l' indent (S offset) line_number
      else if ascii_eqb c ">"%char then quote_line_loop l' (S indent) (S offset) line_number
      else if indent =? 0 then
        Err (mkParseError ("Found no quote line start character '>' in line " ++ decimal line_number)
               (mkPos line_number (offset + 1)))
      else Ok (indent, offset)
  end.

Fixpoint lines_loop (ls : list str) (line_number : nat) : run (list IndentedQuoteLine) :=
  match ls with
  | [] => Ok []
  | l :: ls' =>
      run_bind (quote_line_loop l 0 0 line_number) (fun '(indent, offset) =>
      run_bind (lines_loop ls' (S line_number)) (fun rest =>
        Ok (mkQuoteLine (skipn offset l) line_number indent offset :: rest)))
  end.

Definition find_indented_quote_lines (src : str) (span : SourceSpan) : run (list IndentedQuoteLine) :=
  lines_loop (lines src) (line (span_start span)).

(** [consume_text_buffer_into_node] (the caller clears the buffer). *)
Definition consume_text_buffer_into_node (tree : QuoteTree) (text_buffer : str)
    (l : IndentedQuoteLine) (current_parent_id start_line_number start_offset : nat) : run QuoteTree :=
  run_bind (TextParser.parse text_buffer
              (mkSpan (mkPos start_line_number (start_offset + 1))
                      (mkPos (q_line_number l) (q_offset l + 1 + length (q_line l)))))
    (fun parsed_block =>
       match pkind parsed_block with
       | PText text_tree =>
           match register_node tree current_parent_id (Leaf text_tree) with
           | Some (_, tree) => Ok tree
           | None => Panic
           end
       | _ => Panic
       end).

(** [while !indents.is_empty() && *indents.last().unwrap() > indent
    { indents.pop(); parent_node_ids.pop(); }]; each round shortens
    [indents], so [length indents] rounds suffice. *)
Fixpoint pop_while (fuel : nat) (indents parent_node_ids : list nat) (indent : nat) : list nat * list nat :=
  match fuel with
  | O => (indents, parent_node_ids)
  | S fuel' =>
      match last indents with
      | Some i => if indent <? i then pop_while fuel' (removelast indents) (removelast parent_node_ids) indent
                  else (indents, parent_node_ids)
      | None => (indents, parent_node_ids)
      end
  end.

(** The loop state after the indent comparison: the tree, the two stacks,
    the text buffer, [current_parent_id], [start_line_number] and
    [start_offset]. *)
Record LoopState := mkLoop {
  ls_tree : QuoteTree; ls_parents : list nat; ls_indents : list nat; ls_buffer : str;
  ls_current : nat; ls_start_line : nat; ls_start_offset : nat }.

(** The [for indented_quote_line in indented_quote_lines] loop. *)
Fixpoint quote_loop (qls : list IndentedQuoteLine) (tree : QuoteTree) (parent_node_ids indents : list nat)
    (text_buffer : str) (counter start_line_number start_offset total : nat) : run QuoteTree :=
  match qls with
  | [] => Ok tree
  | l :: qls' =>
      let '(indents, start_line_number, start_offset) :=
        match indents with
        | [] => ([q_indent l], q_line_number l, q_offset l)
        | _ => (indents, start_line_number, start_offset)
        end in
      match last parent_node_ids, last indents with
      | Some current_parent_id, Some current_indent =>
          let step : run LoopState :=
            if current_indent =? q_indent l then
              Ok (mkLoop tree parent_node_ids indents
                    ((match text_buffer with [] => [] | _ => text_buffer ++ [" "%char] end) ++ q_line l)
                    current_parent_id start_line_number start_offset)
            else if current_indent <? q_indent l then
              run_bind (consume_text_buffer_into_node tree text_buffer l current_parent_id
                          start_line_number start_offset) (fun tree =>
              match register_node tree current_parent_id Parent with
              | None => Panic
              | Some (new_id, tree) =>
                  Ok (mkLoop tree (parent_node_ids ++ [new_id]) (indents ++ [q_indent l]) (q_line l)
                        new_id (q_line_number l) (q_offset l))
              end)
            else
              run_bind (consume_text_buffer_into_node tree text_buffer l current_parent_id
                          start_line_number start_offset) (fun tree =>
              let '(indents, parent_node_ids) :=
                pop_while (length indents) indents parent_node_ids (q_indent l) in
              match last parent_node_ids with
              | None => Panic
              | Some current_parent_id =>
                  Ok (mkLoop tree parent_node_ids indents (q_line l) current_parent_id
                        (q_line_number l) (q_offset l))
              end) in
          run_bind step (fun st =>
            let is_last := counter =? total - 1 in
            run_bind (if is_last then
                        run_bind (consume_text_buffer_into_node (ls_tree st) (ls_buffer st) l
                                    (ls_current st) (ls_start_line st) (ls_start_offset st))
                          (fun tree => Ok (tree, []))
                      else Ok (ls_tree st, ls_buffer st)) (fun '(tree, text_buffer) =>
              quote_loop qls' tree (ls_parents st) (ls_indents st) text_buffer (S counter)
                (ls_start_line st) (ls_start_offset st) total))
      | _, _ => Panic
      end
  end.

Definition parse (src : str) (span : SourceSpan) : run ParsedBlock :=
  run_bind (find_indented_quote_lines src span) (fun qls =>
  run_bind (quote_loop qls new [root new] [] [] 0 0 0 (length qls)) (fun tree =>
    Ok (mkParsed (PQuote tree) span))).

End QuoteParser.

(** ** The whole pipeline, with every block parser of the crate *)
Definition convert_full (input : str) : run str :=
  convert ListBlockParser.parse CodeParser.parse TableParser.parse ImageParser.parse QuoteParser.parse input.

Definition convert_blocks_full (input : str) : run (list ParsedBlock) :=
  convert_blocks ListBlockParser.parse CodeParser.parse TableParser.parse ImageParser.parse
    QuoteParser.parse (S (S (length input))) (Splitter.new input) [].

(** * Proofs *)

(** ** The transformer's tree and its sections *)
Module TransformerProofs.
Import Transformer TreeInvariants.
Import Auxiliary.

Lemma register_node_shape t parent k sp i t' :
  parent < next_id t ->
  register_node t parent k sp = Some (i, t') ->
  i = next_id t /\ next_id t' = S (next_id t) /\ root_id t' = root_id t /\
  exists p, node_lookup t !! parent = Some p /\
    node_lookup t' = <[parent := register_child p i]> (<[i := mkNode i k [] sp]> (node_lookup t)).
Proof.
  intros Hlt Hreg. unfold register_node in Hreg.
  rewrite lookup_insert_ne in Hreg by lia.
  destruct (node_lookup t !! parent) as [p|] eqn:Hp; [|discriminate].
  injection Hreg as <- <-. simpl. repeat split; auto. exists p. auto.
Qed.

Lemma register_node_lookup t parent k sp i t' y :
  parent < next_id t ->
  register_node t parent k sp = Some (i, t') ->
  node_lookup t' !! y =
    if decide (y = parent) then (fun p => register_child p i) <$> node_lookup t !! parent
    else if decide (y = i) then Some (mkNode i k [] sp) else node_lookup t !! y.
Proof.
  intros Hlt Hreg.
  destruct (register_node_shape t parent k sp i t' Hlt Hreg) as (-> & _ & _ & p & Hp & Hl).
  rewrite Hl, Hp. destruct (decide (y = parent)) as [->|Hne].
  - rewrite lookup_insert_eq. reflexivity.
  - rewrite lookup_insert_ne by congruence.
    destruct (decide (y = next_id t)) as [->|Hne2].
    + rewrite lookup_insert_eq. reflexivity.
    + rewrite lookup_insert_ne by congruence. reflexivity.
Qed.

Lemma lookup_ge_none t x : Inv t -> next_id t <= x -> node_lookup t !! x = None.
Proof.
  intros Hi Hx. destruct (node_lookup t !! x) eqn:E; [|reflexivity].
  assert (Hs : is_Some (node_lookup t !! x)) by eauto.
  apply (inv_dom t Hi) in Hs. lia.
Qed.

Lemma register_childrel t parent k sp i t' q x :
  Inv t -> parent < next_id t ->
  register_node t parent k sp = Some (i, t') ->
  childrel t' q x <-> childrel t q x \/ (q = parent /\ x = i).
Proof.
  intros Hi Hlt Hreg. pose proof (register_node_shape _ _ _ _ _ _ Hlt Hreg) as (-> & _ & _ & p & Hp & _).
  unfold childrel. rewrite (register_node_lookup _ _ _ _ _ _ q Hlt Hreg).
  destruct (decide (q = parent)) as [->|Hne].
  - rewrite Hp. simpl. split.
    + intros (n & [= <-] & Hin). unfold register_child in Hin. simpl in Hin.
      apply in_app_or in Hin as [Hin|[<-|[]]]; eauto.
    + intros [(n & Hn & Hin)|[_ ->]]; exists (register_child p (next_id t)); split; auto;
        unfold register_child; simpl; apply in_or_app.
      * assert (n = p) as -> by congruence. left. exact Hin.
      * right. left. reflexivity.
  - destruct (decide (q = next_id t)) as [->|Hne2].
    + rewrite (lookup_ge_none t (next_id t) Hi ltac:(lia)). split.
      * intros (n & [= <-] & []).
      * intros [(n & [=] & _)|[? _]]; lia.
    + split; [intros H; left; exact H|intros [H|[? _]]; [exact H|congruence]].
Qed.

Lemma childrel_lt t p x : Inv t -> childrel t p x -> p < x /\ x < next_id t.
Proof. intros Hi (n & Hn & Hin). eapply inv_child_lt; eauto. Qed.

Lemma register_inv t parent k sp i t' :
  Inv t -> parent < next_id t ->
  register_node t parent k sp = Some (i, t') -> Inv t'.
Proof.
  intros Hi Hlt Hreg.
  pose proof (register_node_shape _ _ _ _ _ _ Hlt Hreg) as (-> & Hnext & Hroot & p & Hp & _).
  pose proof (fun q x => register_childrel t parent k sp _ t' q x Hi Hlt Hreg) as Hc.
  assert (H0 : 0 < next_id t).
  { destruct (inv_root_kind t Hi) as (n & Hn & _). apply (inv_dom t Hi). eauto. }
  constructor.
  - rewrite Hroot. apply (inv_root t Hi).
  - intros x. rewrite (register_node_lookup _ _ _ _ _ _ x Hlt Hreg), Hnext.
    destruct (decide (x = parent)) as [->|Hne].
    + rewrite Hp. simpl. split; [lia|eauto].
    + destruct (decide (x = next_id t)) as [->|Hne2]; [split; [lia|eauto]|].
      rewrite (inv_dom t Hi x). lia.
  - rewrite (register_node_lookup _ _ _ _ _ _ 0 Hlt Hreg).
    destruct (inv_root_kind t Hi) as (n & Hn & Hk).
    destruct (decide (0 = parent)) as [<-|Hne].
    + rewrite Hn. simpl. eexists; split; [reflexivity|]. exact Hk.
    + destruct (decide (0 = next_id t)); [lia|]. eauto.
  - intros q n x Hn Hin. assert (Hcr : childrel t' q x) by (exists n; auto).
    apply Hc in Hcr as [Hcr|[-> ->]].
    + apply childrel_lt in Hcr; [lia|exact Hi].
    + lia.
  - intros x p1 p2 H1 H2. apply Hc in H1, H2.
    destruct H1 as [H1|[E1 E2]], H2 as [H2|[E3 E4]]; subst; auto.
    + eapply inv_parent_unique; eauto.
    + apply childrel_lt in H1; [lia|exact Hi].
    + apply childrel_lt in H2; [lia|exact Hi].
  - intros x Hx. rewrite Hnext in Hx.
    destruct (decide (x = next_id t)) as [->|Hne].
    + exists parent. apply Hc. right. auto.
    + destruct (inv_parent_exists t Hi x ltac:(lia)) as [q Hq]. exists q. apply Hc. left. exact Hq.
Qed.

Lemma register_ext t parent k sp i t' :
  Inv t -> parent < next_id t ->
  register_node t parent k sp = Some (i, t') -> Ext t t'.
Proof.
  intros Hi Hlt Hreg.
  pose proof (register_node_shape _ _ _ _ _ _ Hlt Hreg) as (-> & Hnext & Hroot & p & Hp & _).
  constructor.
  - lia.
  - exact Hroot.
  - intros x Hx. rewrite (register_node_lookup _ _ _ _ _ _ x Hlt Hreg).
    destruct (decide (x = parent)) as [->|Hne].
    + rewrite Hp. reflexivity.
    + destruct (decide (x = next_id t)); [lia|reflexivity].
  - intros q x Hx. rewrite (register_childrel t parent k sp _ t' q x Hi Hlt Hreg).
    split; [intros [H|[_ ->]]; [exact H|lia]|auto].
Qed.

Lemma register_kind t parent k sp i t' :
  parent < next_id t ->
  register_node t parent k sp = Some (i, t') ->
  option_map kind (node_lookup t' !! i) = Some k.
Proof.
  intros Hlt Hreg. rewrite (register_node_lookup _ _ _ _ _ _ i Hlt Hreg).
  pose proof (register_node_shape _ _ _ _ _ _ Hlt Hreg) as (-> & _).
  destruct (decide (next_id t = parent)); [lia|].
  rewrite decide_True by reflexivity. reflexivity.
Qed.

Lemma is_heading_node_kind t y :
  is_heading_node t y =
  match option_map kind (node_lookup t !! y) with Some Heading => true | _ => false end.
Proof. unfold is_heading_node, get_node. destruct (node_lookup t !! y); reflexivity. Qed.

Lemma is_section_node_kind t y :
  is_section_node t y =
  match option_map kind (node_lookup t !! y) with Some Section => true | _ => false end.
Proof. unfold is_section_node, get_node. destruct (node_lookup t !! y); reflexivity. Qed.

Lemma ext_refl t : Ext t t.
Proof. constructor; auto; reflexivity. Qed.

Lemma ext_trans t1 t2 t3 : Ext t1 t2 -> Ext t2 t3 -> Ext t1 t3.
Proof.
  intros [N1 R1 K1 C1] [N2 R2 K2 C2]. constructor.
  - lia.
  - congruence.
  - intros x Hx. rewrite K2 by lia. auto.
  - intros p x Hx. rewrite C2 by lia. auto.
Qed.

Lemma ext_is_heading t t' y : Ext t t' -> y < next_id t -> is_heading_node t' y = is_heading_node t y.
Proof. intros E Hy. rewrite !is_heading_node_kind, (ext_kind t t' E y Hy). reflexivity. Qed.

Lemma ext_is_section t t' y : Ext t t' -> y < next_id t -> is_section_node t' y = is_section_node t y.
Proof. intros E Hy. rewrite !is_section_node_kind, (ext_kind t t' E y Hy). reflexivity. Qed.

Lemma grow_refl t : Inv t -> Grow t t.
Proof. intros Hi. split; [exact Hi|split; [apply ext_refl|intros y Hy; lia]]. Qed.

Lemma grow_trans t1 t2 t3 : Grow t1 t2 -> Grow t2 t3 -> Grow t1 t3.
Proof.
  intros (I2 & E12 & N12) (I3 & E23 & N23). split; [exact I3|split; [eapply ext_trans; eauto|]].
  intros y Hy. destruct (decide (y < next_id t2)).
  - rewrite (ext_is_heading t2 t3 y E23 ltac:(lia)). apply N12. lia.
  - apply N23. pose proof (ext_next _ _ E23). lia.
Qed.

Lemma register_grow t parent k sp i t' :
  Inv t -> parent < next_id t -> k <> Heading ->
  register_node t parent k sp = Some (i, t') -> Grow t t'.
Proof.
  intros Hi Hlt Hk Hreg. split; [eapply register_inv; eauto|split; [eapply register_ext; eauto|]].
  pose proof (register_node_shape _ _ _ _ _ _ Hlt Hreg) as (-> & Hnext & _).
  intros y Hy. assert (y = next_id t) as -> by lia.
  rewrite is_heading_node_kind, (register_kind _ _ _ _ _ _ Hlt Hreg).
  destruct k; congruence.
Qed.

Lemma foldM_inv {A B} (P : A -> Prop) (R : A -> A -> Prop) (f : A -> B -> option A) (xs : list B) :
  (forall a, P a -> R a a) ->
  (forall a b c, R a b -> R b c -> R a c) ->
  (forall a x a', P a -> In x xs -> f a x = Some a' -> R a a' /\ P a') ->
  forall a a', P a -> foldM f xs a = Some a' -> R a a' /\ P a'.
Proof.
  intros Hrefl Htrans. induction xs as [|x xs IH]; simpl; intros Hstep a a' Hp Hf.
  - injection Hf as <-. auto.
  - destruct (f a x) as [b|] eqn:Hfx; [|discriminate]. simpl in Hf.
    destruct (Hstep a x b Hp (or_introl eq_refl) Hfx) as [Rab Pb].
    destruct (IH (fun a0 x0 a1 H1 H2 => Hstep a0 x0 a1 H1 (or_intror H2)) b a' Pb Hf) as [Rb Pa'].
    split; [eapply Htrans; eauto|exact Pa'].
Qed.


Lemma same_stack_trans a b c : SameStack a b -> SameStack b c -> SameStack a c.
Proof. intros [S1 G1] [S2 G2]. split; [congruence|eapply grow_trans; eauto]. Qed.

Lemma same_stack_below a b : StackBelow a -> SameStack a b -> StackBelow b.
Proof.
  intros [I F] [Sab (Ib & E & _)]. split; [exact Ib|]. rewrite Sab.
  pose proof (ext_next _ _ E). eapply Forall_impl; [exact F|]. simpl. intros; lia.
Qed.

Lemma map_text_kind_not_heading k nk : map_text_kind k = Some nk -> nk <> Heading.
Proof. destruct k; simpl; intros [= <-]; discriminate. Qed.

Lemma push_node_grow k sp st st' :
  StackBelow st -> k <> Heading -> push_node k sp st = Some st' ->
  exists i, st'.2 = i :: st.2 /\ Grow st.1 st'.1 /\ StackBelow st'.
Proof.
  destruct st as [t stk]. intros [Hi F] Hk Hp. unfold push_node in Hp. simpl in *.
  destruct stk as [|top rest]; [discriminate|]. simpl in Hp.
  destruct (register_node t top k sp) as [[i t1]|] eqn:Hreg; [|discriminate].
  simpl in Hp. injection Hp as <-. simpl.
  inversion F as [|? ? Htop Frest]; subst.
  pose proof (register_grow t top k sp i t1 Hi Htop Hk Hreg) as G.
  pose proof (register_node_shape _ _ _ _ _ _ Htop Hreg) as (-> & Hnext & _).
  exists (next_id t). split; [reflexivity|split; [exact G|]].
  split; [apply G|]. simpl. rewrite Hnext. constructor; [cbn; lia|].
  constructor; [cbn; lia|]. eapply Forall_impl; [exact Frest|]. intros; cbn in *; lia.
Qed.

Lemma pop_same_stack st st' i :
  st'.2 = i :: st.2 -> Grow st.1 st'.1 -> SameStack st (pop st').
Proof. intros Hs G. unfold pop, SameStack. simpl. rewrite Hs. auto. Qed.

Lemma text_node_same_stack fuel text_tree st x st' :
  StackBelow st -> transform_text_node fuel text_tree st x = Some st' ->
  SameStack st st' /\ StackBelow st'.
Proof.
  revert st x st'. induction fuel as [|fuel IH]; intros [t stk] x st' Hb Ht; [discriminate|].
  cbn -[push_node foldM] in Ht.
  destruct (head stk) as [top|] eqn:Hh; [|discriminate]. cbn -[push_node foldM] in Ht.
  destruct (TextTree.nodes text_tree !! x) as [text_node|]; [|discriminate]. cbn -[push_node foldM] in Ht.
  destruct (map_text_kind (TextTree.kind text_node)) as [nk|] eqn:Hk; [|discriminate]. cbn -[push_node foldM] in Ht.
  destruct (push_node nk (TextTree.span text_node) (t, stk)) as [st1|] eqn:Hp; [|discriminate].
  cbn -[push_node foldM] in Ht.
  destruct (push_node_grow _ _ _ _ Hb (map_text_kind_not_heading _ _ Hk) Hp) as (i & Hs1 & G1 & B1).
  destruct (foldM (transform_text_node fuel text_tree) (TextTree.children text_node) st1)
    as [st2|] eqn:Hf; [|discriminate].
  cbn -[push_node foldM] in Ht. injection Ht as <-.
  destruct (foldM_inv StackBelow SameStack _ _
              (fun a Ha => conj eq_refl (grow_refl _ (proj1 Ha)))
              same_stack_trans
              (fun a y a' Ha _ Hy => IH a y a' Ha Hy) st1 st2 B1 Hf) as [[S12 G12] B2].
  assert (SameStack (t, stk) (pop st2)) as Hsame.
  { apply (pop_same_stack _ _ i); [simpl in *; congruence|]. simpl. eapply grow_trans; eauto. }
  split; [exact Hsame|]. exact (same_stack_below _ _ Hb Hsame).
Qed.

Lemma text_tree_same_stack text_tree st st' :
  StackBelow st -> transform_text_tree text_tree st = Some st' ->
  SameStack st st' /\ StackBelow st'.
Proof.
  intros Hb Ht. unfold transform_text_tree in Ht.
  destruct (TextTree.nodes text_tree !! TextTree.root text_tree) as [root|]; [|discriminate].
  cbn -[transform_text_node foldM] in Ht.
  eapply (foldM_inv StackBelow SameStack); [| |intros a y a' Ha _ Hy; eapply text_node_same_stack; eauto
         |exact Hb|exact Ht].
  - intros a Ha. split; [reflexivity|apply grow_refl, Ha].
  - apply same_stack_trans.
Qed.

Lemma root_lt t : Inv t -> 0 < next_id t.
Proof. intros Hi. destruct (inv_root_kind t Hi) as (n & Hn & _). apply (inv_dom t Hi). eauto. Qed.

Lemma root_not_section t : Inv t -> is_section_node t 0 = false.
Proof.
  intros Hi. destruct (inv_root_kind t Hi) as (n & Hn & Hk).
  unfold is_section_node, get_node. rewrite Hn, Hk. reflexivity.
Qed.

Lemma chain_lt t stk k : Inv t -> Chain t stk k -> Forall (fun y => y < next_id t) stk.
Proof.
  intros Hi Hc. induction Hc as [|x p rest k Hc IH Hs Hr].
  - constructor; [apply root_lt, Hi|constructor].
  - constructor; [|exact IH]. apply childrel_lt in Hr; [lia|exact Hi].
Qed.

Lemma chain_length t stk k : Chain t stk k -> length stk = S k.
Proof. intros Hc. induction Hc; simpl in *; lia. Qed.

Lemma chain_ext t t' stk k : Inv t -> Ext t t' -> Chain t stk k -> Chain t' stk k.
Proof.
  intros Hi E Hc. induction Hc as [|x p rest k Hc IH Hs Hr]; [constructor|].
  pose proof (childrel_lt _ _ _ Hi Hr) as [_ Hx].
  constructor; [exact IH| |].
  - rewrite (ext_is_section t t' x E Hx). exact Hs.
  - apply (ext_child t t' E p x Hx). exact Hr.
Qed.

Lemma chain_tail t stk k : Chain t stk (S k) -> Chain t (tail stk) k.
Proof. intros Hc. inversion Hc; subst. simpl. assumption. Qed.

Lemma chain_iter_tail t stk k j : j <= k -> Chain t stk k -> Chain t (Nat.iter j (@tail nat) stk) (k - j).
Proof.
  intros Hj Hc. induction j as [|j IH]; simpl.
  - rewrite Nat.sub_0_r. exact Hc.
  - apply chain_tail. replace (S (k - S j)) with (k - j) by lia. apply IH. lia.
Qed.

Lemma length_iter_tail (l : list nat) j : length (Nat.iter j (@tail nat) l) = length l - j.
Proof.
  induction j as [|j IH]; simpl; [lia|].
  destruct (Nat.iter j (@tail nat) l) as [|y l'] eqn:E; simpl in *; lia.
Qed.

Lemma foldM_cons {A B} (f : A -> B -> option A) x xs a :
  foldM f (x :: xs) a = f a x ≫= foldM f xs.
Proof. reflexivity. Qed.

Lemma current_level_chain t stk k : Inv t -> Chain t stk k -> current_level t stk = Some (S k).
Proof.
  intros Hi Hc. unfold current_level.
  enough (forall a, foldM (fun acc node_id => n ← get_node t node_id;
                       Some (match kind n with Section => S acc | _ => acc end)) stk a = Some (a + k))
    as H by (rewrite H; f_equal; lia).
  induction Hc as [|x p rest k Hc IH Hs Hr]; intros a.
  - destruct (inv_root_kind t Hi) as (n & Hn & Hk). simpl. unfold get_node. rewrite Hn.
    simpl. rewrite Hk. f_equal. lia.
  - unfold is_section_node, get_node in Hs.
    destruct (node_lookup t !! x) as [n|] eqn:Hn; [|discriminate].
    rewrite foldM_cons. cbv beta. assert (Hg : get_node t x = Some n) by exact Hn. rewrite Hg. cbn -[foldM].
    destruct (kind n); try discriminate. rewrite IH. f_equal. lia.
Qed.

Lemma find_unique {A} (f : A -> bool) (l : list A) (p : A) :
  In p l -> f p = true -> (forall q, In q l -> f q = true -> q = p) -> find f l = Some p.
Proof.
  induction l as [|a l IH]; simpl; [tauto|]. intros Hin Hp Hu.
  destruct (f a) eqn:Ha.
  - f_equal. apply Hu; auto.
  - destruct Hin as [->|Hin]; [congruence|]. apply IH; auto.
Qed.

Lemma has_child_iff t p x : has_child t p x = true <-> childrel t p x.
Proof.
  unfold has_child, get_node, childrel. destruct (node_lookup t !! p) as [n|].
  - rewrite existsb_exists. split.
    + intros (y & Hy & Heq). apply Nat.eqb_eq in Heq. subst. eauto.
    + intros (n' & [= <-] & Hin). exists x. split; [exact Hin|apply Nat.eqb_refl].
  - split; [discriminate|intros (n' & [=] & _)].
Qed.

Lemma parent_of_correct t p x : Inv t -> childrel t p x -> parent_of t x = Some p.
Proof.
  intros Hi Hr. unfold parent_of. apply find_unique.
  - apply in_seq. apply childrel_lt in Hr; [lia|exact Hi].
  - apply has_child_iff. exact Hr.
  - intros q _ Hq. apply has_child_iff in Hq. eapply inv_parent_unique; eauto.
Qed.

Lemma section_ancestors_chain t stk k :
  Inv t -> Chain t stk k ->
  forall x rest, stk = x :: rest -> forall f, x < f ->
  exists j, section_ancestors_fuel f t x = Some j /\ (if is_section_node t x then 1 else 0) + j = k.
Proof.
  intros Hi Hc. induction Hc as [|x p rest k Hc IH Hs Hr]; intros y rest' [= <- <-] f Hf.
  - destruct f as [|f]; [lia|]. simpl. rewrite (inv_root t Hi). simpl.
    exists 0. rewrite (root_not_section t Hi). auto.
  - destruct f as [|f]; [lia|].
    pose proof (childrel_lt _ _ _ Hi Hr) as [Hpx _].
    simpl. rewrite (inv_root t Hi). destruct (Nat.eqb_spec x 0) as [->|_]; [lia|].
    rewrite (parent_of_correct t p x Hi Hr).
    destruct (IH p rest eq_refl f ltac:(lia)) as (j & Hj & Hsum).
    rewrite Hj. simpl. exists ((if is_section_node t p then 1 else 0) + j).
    rewrite Hs. split; [reflexivity|lia].
Qed.

Lemma section_ancestors_ext t t' f x :
  Inv t -> Inv t' -> Ext t t' -> x < next_id t ->
  section_ancestors_fuel f t' x = section_ancestors_fuel f t x.
Proof.
  intros Hi Hi' E. revert x. induction f as [|f IH]; intros x Hx; [reflexivity|]. simpl.
  rewrite (inv_root t Hi), (inv_root t' Hi').
  destruct (Nat.eqb_spec x 0) as [->|Hx0]; [reflexivity|].
  destruct (inv_parent_exists t Hi x ltac:(lia)) as [p Hp].
  pose proof (childrel_lt _ _ _ Hi Hp) as [Hpx _].
  rewrite (parent_of_correct t p x Hi Hp).
  rewrite (parent_of_correct t' p x Hi' (proj2 (ext_child t t' E p x Hx) Hp)).
  rewrite (IH p ltac:(lia)), (ext_is_section t t' p E ltac:(lia)). reflexivity.
Qed.

Lemma push_node_shape k sp t top rest st' :
  push_node k sp (t, top :: rest) = Some st' ->
  exists i t1, st' = (t1, i :: top :: rest) /\ register_node t top k sp = Some (i, t1).
Proof.
  unfold push_node. simpl. destruct (register_node t top k sp) as [[i t1]|]; [|discriminate].
  simpl. intros [= <-]. eauto.
Qed.

Lemma push_sections_chain n sp t stk k st' :
  Inv t -> Chain t stk k -> push_sections n sp (t, stk) = Some st' ->
  Chain st'.1 st'.2 (k + n) /\ Grow t st'.1.
Proof.
  revert t stk k. induction n as [|n IH]; intros t stk k Hi Hc Hp.
  - simpl in Hp. injection Hp as <-. simpl. rewrite Nat.add_0_r. split; [exact Hc|apply grow_refl, Hi].
  - cbn -[push_node] in Hp. destruct (push_node Section sp (t, stk)) as [[t1 stk1]|] eqn:Hpn; [|discriminate].
    cbn -[push_node push_sections] in Hp.
    destruct stk as [|top rest]; [inversion Hc|].
    destruct (push_node_shape _ _ _ _ _ _ Hpn) as (i & t2 & [= E1 E2] & Hreg). subst t2 stk1.
    pose proof (chain_lt t _ _ Hi Hc) as F. inversion F as [|? ? Htop _]; subst.
    pose proof (register_node_shape _ _ _ _ _ _ Htop Hreg) as (-> & _).
    pose proof (register_grow _ _ _ _ _ _ Hi Htop (ltac:(discriminate) : Section <> Heading) Hreg) as G1.
    assert (Hc1 : Chain t1 (next_id t :: top :: rest) (S k)).
    { constructor.
      - eapply chain_ext; [exact Hi|apply G1|exact Hc].
      - rewrite is_section_node_kind, (register_kind _ _ _ _ _ _ Htop Hreg). reflexivity.
      - apply (register_childrel _ _ _ _ _ _ _ _ Hi Htop Hreg). right. auto. }
    destruct (IH t1 _ (S k) (proj1 G1) Hc1 Hp) as [Hc2 G2].
    split; [replace (k + S n) with (S k + n) by lia; exact Hc2|eapply grow_trans; eauto].
Qed.

Lemma heading_ids_ext t t' :
  Ext t t' ->
  heading_ids t' = heading_ids t ++
    List.filter (fun i => is_heading_node t' i) (seq (next_id t) (next_id t' - next_id t)).
Proof.
  intros E. unfold heading_ids. pose proof (ext_next _ _ E) as Hn.
  replace (next_id t') with (next_id t + (next_id t' - next_id t)) at 1 by lia.
  rewrite seq_app, List.filter_app. f_equal.
  apply filter_ext_in. intros y Hy. apply in_seq in Hy. apply ext_is_heading; [exact E|lia].
Qed.

Lemma heading_ids_grow t t' : Grow t t' -> heading_ids t' = heading_ids t.
Proof.
  intros (_ & E & N). rewrite (heading_ids_ext t t' E).
  rewrite <- (app_nil_r (heading_ids t)) at 2. f_equal.
  match goal with |- List.filter ?f ?l = [] =>
    assert (H : forall y, In y l -> f y = false) end.
  { intros y Hy. apply in_seq in Hy. apply N. lia. }
  induction (seq (next_id t) (next_id t' - next_id t)) as [|a l IH]; [reflexivity|].
  simpl. rewrite H by (left; reflexivity). apply IH. intros y Hy. apply H. right. exact Hy.
Qed.

Lemma grow_ext t t' : Grow t t' -> Ext t t'.
Proof. intros (_ & E & _). exact E. Qed.

Lemma heading_adjust t stk k level sp st1 :
  Inv t -> Chain t stk k ->
  (if S k <? level then push_sections (level - S k) sp (t, stk)
   else if level <? S k then Some (t, Nat.iter (S k - level) (@tail nat) stk)
   else Some (t, stk)) = Some st1 ->
  Grow t st1.1 /\ (Chain st1.1 st1.2 (level - 1) \/ (level = 0 /\ st1.2 = [])).
Proof.
  intros Hi Hc Ha.
  destruct (Nat.ltb_spec (S k) level) as [Hlt|Hge].
  - destruct (push_sections_chain _ _ _ _ _ _ Hi Hc Ha) as [Hc1 G].
    split; [exact G|left]. replace (level - 1) with (k + (level - S k)) by lia. exact Hc1.
  - destruct (Nat.ltb_spec level (S k)) as [Hlt2|Hge2]; injection Ha as <-; simpl;
      (split; [apply grow_refl, Hi|]).
    + destruct level as [|level].
      * right. split; [reflexivity|]. apply length_zero_iff_nil.
        rewrite length_iter_tail, (chain_length _ _ _ Hc). lia.
      * left. replace (S level - 1) with (k - (S k - S level)) by lia.
        apply chain_iter_tail; [lia|exact Hc].
    + left. replace (level - 1) with k by lia. exact Hc.
Qed.

Lemma heading_step t stk k level text_tree sp st' :
  Inv t -> Chain t stk k -> transform_heading_block level text_tree sp (t, stk) = Some st' ->
  Inv st'.1 /\ Ext t st'.1 /\ Chain st'.1 st'.2 (level - 1) /\
  exists h, heading_ids st'.1 = heading_ids t ++ [h] /\
    forall f, h < f -> section_ancestors_fuel f st'.1 h = Some (level - 1).
Proof.
  intros Hi Hc Ht. unfold transform_heading_block in Ht.
  rewrite (current_level_chain t stk k Hi Hc) in Ht. cbn -[push_sections push_node transform_text_tree] in Ht.
  match type of Ht with ?a ≫= _ = _ => destruct a as [st1|] eqn:Ha; [|discriminate] end.
  cbn -[push_node transform_text_tree] in Ht.
  destruct (heading_adjust _ _ _ _ _ _ Hi Hc Ha) as [G1 [Hc1|[_ Hnil]]];
    [|destruct st1 as [t1 stk1]; simpl in Hnil; subst stk1; discriminate].
  destruct st1 as [t1 stk1]. simpl in G1, Hc1. destruct G1 as (Hi1 & E1 & N1).
  destruct stk1 as [|top rest]; [inversion Hc1|].
  destruct (push_node Heading sp (t1, top :: rest)) as [st2|] eqn:Hp; [|discriminate].
  cbn -[transform_text_tree] in Ht.
  destruct (push_node_shape _ _ _ _ _ _ Hp) as (h & t2 & -> & Hreg).
  pose proof (chain_lt _ _ _ Hi1 Hc1) as F1. inversion F1 as [|? ? Htop Frest]; subst.
  pose proof (register_node_shape _ _ _ _ _ _ Htop Hreg) as (-> & Hnext2 & _).
  pose proof (register_inv _ _ _ _ _ _ Hi1 Htop Hreg) as Hi2.
  pose proof (register_ext _ _ _ _ _ _ Hi1 Htop Hreg) as E2.
  pose proof (chain_ext _ _ _ _ Hi1 E2 Hc1) as Hc2.
  destruct (transform_text_tree text_tree (t2, next_id t1 :: top :: rest)) as [st3|] eqn:Htt;
    [|discriminate].
  simpl in Ht. injection Ht as <-.
  assert (B2 : StackBelow (t2, next_id t1 :: top :: rest)).
  { split; [exact Hi2|]. simpl. rewrite Hnext2. constructor; [cbn; lia|].
    constructor; [cbn; lia|]. eapply Forall_impl; [exact Frest|]. intros; cbn in *; lia. }
  destruct (text_tree_same_stack _ _ _ B2 Htt) as [[S3 G3] _].
  destruct st3 as [t3 stk3]. simpl in S3, G3. subst stk3. unfold pop. simpl.
  destruct G3 as (Hi3 & E3 & N3).
  split; [exact Hi3|split; [eapply ext_trans; [exact E1|eapply ext_trans; eauto]|split]].
  - eapply chain_ext; [exact Hi2|exact E3|exact Hc2].
  - exists (next_id t1). split.
    + rewrite (heading_ids_grow t2 t3 (conj Hi3 (conj E3 N3))).
      rewrite (heading_ids_ext t1 t2 E2), Hnext2, Nat.sub_succ_l, Nat.sub_diag by lia.
      simpl. rewrite is_heading_node_kind, (register_kind _ _ _ _ _ _ Htop Hreg).
      rewrite (heading_ids_grow t t1 (conj Hi1 (conj E1 N1))). reflexivity.
    + intros f Hf. rewrite (section_ancestors_ext t2 t3 f (next_id t1) Hi2 Hi3 E3 ltac:(lia)).
      destruct f as [|f]; [lia|]. simpl.
      rewrite (inv_root t2 Hi2). pose proof (root_lt t Hi).
      destruct (Nat.eqb_spec (next_id t1) 0) as [Hz|_].
      { pose proof (root_lt t1 Hi1). lia. }
      assert (Hr : childrel t2 top (next_id t1)).
      { apply (register_childrel _ _ _ _ _ _ _ _ Hi1 Htop Hreg). right. auto. }
      rewrite (parent_of_correct _ _ _ Hi2 Hr).
      destruct (section_ancestors_chain _ _ _ Hi2 Hc2 top rest eq_refl f ltac:(lia)) as (j & Hj & Hs).
      rewrite Hj. simpl. f_equal. exact Hs.
Qed.

Lemma heading_ids_lt t x : In x (heading_ids t) -> x < next_id t.
Proof. unfold heading_ids. intros H. apply filter_In in H as [H _]. apply in_seq in H. lia. Qed.

Lemma headings_fold blocks levels :
  Forall2 (fun b h => exists text_tree, pkind b = PHeading h text_tree) blocks levels ->
  forall t stk k st', Inv t -> Chain t stk k -> foldM transform_block blocks (t, stk) = Some st' ->
  Inv st'.1 /\ Ext t st'.1 /\
  exists hs, heading_ids st'.1 = heading_ids t ++ hs /\ length hs = length levels /\
    forall j h l, hs !! j = Some h -> levels !! j = Some l ->
      forall f, h < f -> section_ancestors_fuel f st'.1 h = Some (l - 1).
Proof.
  induction 1 as [|b l blocks levels [text_tree Hb] Hrest IH]; intros t stk k st' Hi Hc Hf.
  - simpl in Hf. injection Hf as <-. simpl. split; [exact Hi|split; [apply ext_refl|]].
    exists []. rewrite app_nil_r. split; [reflexivity|split; [reflexivity|]].
    intros j h l' Hj. discriminate.
  - rewrite foldM_cons in Hf.
    assert (Htb : transform_block (t, stk) b = transform_heading_block l text_tree (pspan b) (t, stk))
      by (unfold transform_block; rewrite Hb; reflexivity).
    rewrite Htb in Hf.
    destruct (transform_heading_block l text_tree (pspan b) (t, stk)) as [[t1 stk1]|] eqn:Hh;
      [|discriminate].
    simpl in Hf.
    destruct (heading_step _ _ _ _ _ _ _ Hi Hc Hh) as (Hi1 & E1 & Hc1 & h & Hids1 & Hsa1).
    simpl in Hi1, E1, Hc1, Hids1, Hsa1.
    destruct (IH t1 stk1 _ st' Hi1 Hc1 Hf) as (Hi2 & E2 & hs & Hids2 & Hlen & Hsa2).
    split; [exact Hi2|split; [eapply ext_trans; eauto|]].
    exists (h :: hs). split; [rewrite Hids2, Hids1, <- app_assoc; reflexivity|].
    split; [simpl; congruence|].
    intros [|j] h' l' Hj Hl f Hfh; simpl in Hj, Hl.
    + injection Hj as <-. injection Hl as <-.
      assert (Hlt : h < next_id t1).
      { apply heading_ids_lt. rewrite Hids1. apply in_or_app. right. left. reflexivity. }
      rewrite (section_ancestors_ext t1 st'.1 f h Hi1 Hi2 E2 Hlt). apply Hsa1. exact Hfh.
    + eapply Hsa2; eauto.
Qed.

Lemma new_inv : Inv new.
Proof.
  constructor; simpl.
  - reflexivity.
  - intros x. destruct (decide (x = 0)) as [->|Hne].
    + rewrite lookup_singleton_eq. split; [lia|eauto].
    + rewrite lookup_singleton_ne by congruence. split; [intros [? [=]]|lia].
  - exists (mkNode 0 Root [] zero_span). rewrite lookup_singleton_eq. auto.
  - intros p n x Hn Hin. simpl in Hn. destruct (decide (p = 0)) as [->|Hne].
    + rewrite lookup_singleton_eq in Hn. injection Hn as <-. destruct Hin.
    + rewrite lookup_singleton_ne in Hn by congruence. discriminate.
  - intros x p1 p2 (n & Hn & Hin). simpl in Hn. destruct (decide (p1 = 0)) as [->|Hne].
    + rewrite lookup_singleton_eq in Hn. injection Hn as <-. destruct Hin.
    + rewrite lookup_singleton_ne in Hn by congruence. discriminate.
  - intros x Hx. lia.
Qed.

(** C2: for blocks that are all headings, of levels [h1, ..., hn], the
    tree built by [transform] has exactly n Heading nodes, in creation
    order, and the i-th one has exactly [hi - 1] Section nodes among its
    ancestors (the walk from the node up to the root). *)
Theorem transform_heading_sections (blocks : list ParsedBlock) (levels : list nat)
    (t : LetterScriptTree) :
  Forall2 (fun b h => exists text_tree, pkind b = PHeading h text_tree) blocks levels ->
  transform blocks = Some t ->
  length (heading_ids t) = length levels /\
  forall i x h, heading_ids t !! i = Some x -> levels !! i = Some h ->
    section_ancestors t x = Some (h - 1).
Proof.
  intros Hf Ht. unfold transform in Ht.
  destruct (foldM transform_block blocks (new, [root_id new])) as [st|] eqn:Hfold; [|discriminate].
  simpl in Ht. injection Ht as <-.
  destruct (headings_fold blocks levels Hf new [0] 0 st new_inv (ch_root new) Hfold)
    as (_ & _ & hs & Hids & Hlen & Hsa).
  assert (Hnew : heading_ids new = []) by reflexivity.
  rewrite Hnew in Hids. simpl in Hids. rewrite Hids.
  split; [exact Hlen|]. intros i x h Hx Hh. unfold section_ancestors.
  apply Hsa with (j := i); [exact Hx|exact Hh|].
  assert (Hin : In x (heading_ids st.1)).
  { rewrite Hids. apply list_elem_of_In. eapply list_elem_of_lookup_2. exact Hx. }
  apply heading_ids_lt in Hin. lia.
Qed.
Lemma transform_heading_sections_witness :
  Forall2 (fun b h => exists text_tree, pkind b = PHeading h text_tree)
    (map heading_block [1; 3; 2; 1]) [1; 3; 2; 1] /\
  exists t, transform (map heading_block [1; 3; 2; 1]) = Some t /\
  length (heading_ids t) = length [1; 3; 2; 1] /\
  forall i x h, heading_ids t !! i = Some x -> [1; 3; 2; 1] !! i = Some h ->
    section_ancestors t x = Some (h - 1).
Proof.
  assert (Hf : Forall2 (fun b h => exists text_tree, pkind b = PHeading h text_tree)
    (map heading_block [1; 3; 2; 1]) [1; 3; 2; 1]) by (repeat constructor; eexists; reflexivity).
  split; [exact Hf|].
  exists (match transform (map heading_block [1; 3; 2; 1]) with Some t => t | None => new end).
  split; [vm_compute; reflexivity|].
  apply (transform_heading_sections (map heading_block [1; 3; 2; 1]) [1; 3; 2; 1]).
  - exact Hf.
  - vm_compute. reflexivity.
Defined.

End TransformerProofs.

(** ** The splitter on leading blank lines *)
Module SplitterProofs.
Import Splitter.
Import Auxiliary.

Lemma ascii_eqb_spec a b : reflect (a = b) (ascii_eqb a b).
Proof. unfold ascii_eqb. destruct (ascii_dec a b); constructor; auto. Qed.

Lemma trim_start_blank l : Forall (fun w => is_whitespace w = true) l -> trim_start l = [].
Proof. induction 1 as [|w l Hw _ IH]; simpl; [reflexivity|]. rewrite Hw. exact IH. Qed.

Lemma trim_blank l : Forall (fun w => is_whitespace w = true) l -> trim l = [].
Proof. intros H. unfold trim. rewrite (trim_start_blank l H). reflexivity. Qed.

Lemma read_reader_cr r : read_reader (chr_cr :: r) = read_reader r.
Proof. reflexivity. Qed.

Lemma read_reader_some (ws : str) (c : ascii) (rest : str) :
  c <> chr_cr -> exists d r', read_reader (ws ++ c :: rest) = Some (d, r').
Proof.
  intros Hc. induction ws as [|w ws IH]; simpl.
  - destruct (ascii_eqb_spec c chr_cr); [congruence|eauto].
  - destruct (ascii_eqb w chr_cr); [exact IH|eauto].
Qed.

Lemma next_loop_read_eq f st1 st2 sp ep buf n k b :
  read_next_char st1 = read_next_char st2 ->
  next_loop (S f) st1 sp ep buf n k b = next_loop (S f) st2 sp ep buf n k b.
Proof. intros H. cbn -[read_next_char]. rewrite H. reflexivity. Qed.

Lemma blank_prefix_loop (ws : str) (c : ascii) (rest : str) :
  c <> chr_cr -> Forall blank ws ->
  forall fuel st sp ep buf n,
  unread_chars_buffer st = [] -> reader st = ws ++ c :: rest -> length ws < fuel ->
  Forall (fun w => is_whitespace w = true) buf ->
  exists fuel' st' buf',
    next_loop fuel st sp ep buf n 0 false =
      next_loop (S fuel') st' sp ep buf' (n + count_occ ascii_dec ws chr_lf) 0 false /\
    unread_chars_buffer st' = [] /\ reader st' = c :: rest /\
    Forall (fun w => is_whitespace w = true) buf'.
Proof.
  intros Hc. induction 1 as [|w ws Hw Hws IH]; intros fuel st sp ep buf n Hu Hr Hlen Hbuf.
  - destruct fuel as [|fuel]; [simpl in Hlen; lia|].
    exists fuel, st, buf. rewrite Nat.add_0_r. auto.
  - destruct fuel as [|fuel]; [simpl in Hlen; lia|].
    destruct st as [r u lp np]. simpl in Hu, Hr. subst u r.
    unfold blank in Hw. simpl in Hw.
    destruct Hw as [<-|[<-|[<-|[<-|[]]]]].
    + (* ' ' *)
      destruct (IH fuel (mkSplitter (ws ++ c :: rest) [] np (advance np chr_space)) sp ep
                  (buf ++ [chr_space]) n eq_refl eq_refl ltac:(simpl in Hlen; lia)
                  ltac:(apply Forall_app; split; [exact Hbuf|repeat constructor]))
        as (f' & st' & b' & Heq & H1 & H2 & H3).
      exists f', st', b'. split; [|auto].
      replace (count_occ ascii_dec (chr_space :: ws) chr_lf) with (count_occ ascii_dec ws chr_lf)
        by reflexivity.
      rewrite <- Heq. reflexivity.
    + (* '\t' *)
      destruct (IH fuel (mkSplitter (ws ++ c :: rest) [] np (advance np chr_tab)) sp ep
                  (buf ++ [chr_tab]) n eq_refl eq_refl ltac:(simpl in Hlen; lia)
                  ltac:(apply Forall_app; split; [exact Hbuf|repeat constructor]))
        as (f' & st' & b' & Heq & H1 & H2 & H3).
      exists f', st', b'. split; [|auto].
      replace (count_occ ascii_dec (chr_tab :: ws) chr_lf) with (count_occ ascii_dec ws chr_lf)
        by reflexivity.
      rewrite <- Heq. reflexivity.
    + (* '\n' *)
      destruct (IH fuel (mkSplitter (ws ++ c :: rest) [] np (advance np chr_lf)) sp ep
                  (buf ++ [chr_lf]) (S n) eq_refl eq_refl ltac:(simpl in Hlen; lia)
                  ltac:(apply Forall_app; split; [exact Hbuf|repeat constructor]))
        as (f' & st' & b' & Heq & H1 & H2 & H3).
      exists f', st', b'. split; [|auto].
      replace (n + count_occ ascii_dec (chr_lf :: ws) chr_lf)
        with (S n + count_occ ascii_dec ws chr_lf) by (simpl; lia).
      rewrite <- Heq. reflexivity.
    + (* '\r' is skipped by the reader *)
      destruct (IH (S fuel) (mkSplitter (ws ++ c :: rest) [] lp np) sp ep buf n eq_refl eq_refl
                  ltac:(simpl in Hlen; lia) Hbuf)
        as (f' & st' & b' & Heq & H1 & H2 & H3).
      exists f', st', b'. split; [|auto].
      replace (count_occ ascii_dec (chr_cr :: ws) chr_lf) with (count_occ ascii_dec ws chr_lf)
        by reflexivity.
      rewrite <- Heq. destruct (read_reader_some ws c rest Hc) as (d & r' & E).
      apply next_loop_read_eq. unfold read_next_char. simpl. rewrite E. reflexivity.
Qed.



Lemma is_blank_blank w : is_blank w = true -> blank w.
Proof.
  unfold is_blank, blank. simpl.
  destruct (ascii_eqb_spec w chr_space); destruct (ascii_eqb_spec w chr_tab);
  destruct (ascii_eqb_spec w chr_lf); destruct (ascii_eqb_spec w chr_cr); simpl; intros H;
  try discriminate; subst; tauto.
Qed.

Lemma whitespace_of_blank w : blank w -> is_whitespace w = true.
Proof. intros [<-|[<-|[<-|[<-|[]]]]]; reflexivity. Qed.

(** Input made of blank chars with at least two line feeds, then a
    non-blank char: the first block the splitter emits is empty and the
    categorizer has no first char to look at. *)
Theorem leading_blank_lines_block (ws rest : str) (c : ascii) :
  Forall (fun w => is_blank w = true) ws -> 2 <= count_occ ascii_dec ws chr_lf ->
  is_blank c = false ->
  exists b st', Splitter.next (Splitter.new (ws ++ c :: rest)) = Some (Some b, st') /\
    Splitter.src b = [] /\ Categorizer.categorize b = None.
Proof.
  intros Hws Hcnt Hc.
  unfold is_blank in Hc. apply orb_false_iff in Hc as [Hc Hcr].
  apply orb_false_iff in Hc as [Hc Hlf]. apply orb_false_iff in Hc as [Hsp Htab].
  assert (Hcr' : c <> chr_cr) by (intros ->; discriminate).
  assert (Hb : Forall blank ws) by (eapply Forall_impl; [exact Hws|]; apply is_blank_blank).
  assert (E : Splitter.next (Splitter.new (ws ++ c :: rest)) =
    next_loop (S (length (ws ++ c :: rest) + 0)) (Splitter.new (ws ++ c :: rest))
      SourcePosition_zero SourcePosition_zero [] 0 0 false) by reflexivity.
  rewrite E.
  destruct (blank_prefix_loop ws c rest Hcr' Hb (S (length (ws ++ c :: rest) + 0)) (Splitter.new (ws ++ c :: rest))
              SourcePosition_zero SourcePosition_zero [] 0 eq_refl eq_refl
              ltac:(rewrite length_app; simpl; lia) (List.Forall_nil _))
    as (f' & st' & buf' & Heq & Hu & Hr & Hbuf).
  rewrite Heq.
  destruct st' as [r u lp np]. simpl in Hu, Hr. subst r u.
  assert (R : read_next_char (mkSplitter (c :: rest) [] lp np) = (Some c, mkSplitter rest [] np (advance np c)))
    by (unfold read_next_char; simpl; rewrite Hcr; reflexivity).
  cbn -[read_next_char ascii_eqb trim]. rewrite R. cbn -[ascii_eqb trim].
  rewrite Hcr, Hlf, Hsp, Htab. simpl.
  destruct (count_occ ascii_dec ws chr_lf) as [|[|m]]; [lia|lia|]. simpl. eexists _, _. split; [reflexivity|]. simpl.
  rewrite trim_blank by exact Hbuf. split; reflexivity.
Qed.

Lemma convert_blocks_step lp cp tp ip qp fuel sp acc :
  convert_blocks lp cp tp ip qp (S fuel) sp acc =
  match Splitter.next sp with
  | None => Panic
  | Some (None, _) => Ok acc
  | Some (Some block, sp') =>
      match Categorizer.categorize block with
      | None => Panic
      | Some categorized_block =>
          run_bind (BlockParser_parse lp cp tp ip qp categorized_block) (fun parsed =>
            convert_blocks lp cp tp ip qp fuel sp' (acc ++ [parsed]))
      end
  end.
Proof. reflexivity. Qed.

(** C10: when the input starts with blank chars (space, tab, line feed,
    carriage return) holding two or more line feeds before its first
    non-blank char, the splitter's first block has the empty source, the
    categorizer is undefined on it (it panics), and so [convert] panics,
    whichever parsers the other block kinds use. *)
Theorem leading_blank_lines_panic (lp cp tp ip qp : str -> SourceSpan -> run ParsedBlock)
    (ws rest : str) (c : ascii) :
  Forall (fun w => is_blank w = true) ws -> 2 <= count_occ ascii_dec ws chr_lf ->
  is_blank c = false ->
  (exists b st', Splitter.next (Splitter.new (ws ++ c :: rest)) = Some (Some b, st') /\
    Splitter.src b = [] /\ Categorizer.categorize b = None) /\
  convert lp cp tp ip qp (ws ++ c :: rest) = Panic.
Proof.
  intros Hws Hcnt Hc.
  destruct (leading_blank_lines_block ws rest c Hws Hcnt Hc) as (b & st' & Hn & Hs & Hcat).
  split; [exists b, st'; auto|].
  unfold convert. rewrite convert_blocks_step, Hn, Hcat. reflexivity.
Qed.

Lemma leading_blank_lines_panic_witness :
  Forall (fun w => is_blank w = true) [chr_lf; chr_lf] /\
  2 <= count_occ ascii_dec [chr_lf; chr_lf] chr_lf /\ is_blank "x"%char = false /\
  (exists b st', Splitter.next (Splitter.new ([chr_lf; chr_lf] ++ ["x"%char])) = Some (Some b, st') /\
    Splitter.src b = [] /\ Categorizer.categorize b = None) /\
  forall lp cp tp ip qp, convert lp cp tp ip qp ([chr_lf; chr_lf] ++ ["x"%char]) = Panic.
Proof.
  assert (H1 : Forall (fun w => is_blank w = true) [chr_lf; chr_lf]) by (repeat constructor).
  assert (H2 : 2 <= count_occ ascii_dec [chr_lf; chr_lf] chr_lf) by (simpl; lia).
  assert (H3 : is_blank "x"%char = false) by reflexivity.
  split; [exact H1|]. split; [exact H2|]. split; [exact H3|]. split.
  - exact (proj1 (leading_blank_lines_panic (fun _ _ => Panic) (fun _ _ => Panic)
      (fun _ _ => Panic) (fun _ _ => Panic) (fun _ _ => Panic) [chr_lf; chr_lf] [] "x"%char H1 H2 H3)).
  - intros lp cp tp ip qp.
    exact (proj2 (leading_blank_lines_panic lp cp tp ip qp [chr_lf; chr_lf] [] "x"%char H1 H2 H3)).
Defined.

End SplitterProofs.

(** ** The tokenizer on sample blocks *)
Module TokenizerFacts.
Import Tokenizer.

(** C3: the star tokens are not balanced.  On ["*a*aa*"] the tokenizer
    opens italic twice and closes it once; on ["******"] it emits a
    [BoldEnd] that no [BoldStart] precedes. *)
Theorem star_tokens_unbalanced :
  kinds (s "*a*aa*") = Some [ItalicStart; Text (s "a"); ItalicStart; Text (s "aa"); ItalicEnd] /\
  kinds (s "******") = Some [ItalicStart; Text (s "***"); BoldEnd].
Proof. split; vm_compute; reflexivity. Qed.

(** C4: a run of spaces is not collapsed: each space or tab becomes one
    space of the Text token, so ["a  b"] gives the Text ["a  b"] with two
    consecutive spaces. *)
Theorem double_space_kept :
  kinds (s "a  b") = Some [Text (s "a  b")] /\
  kinds (s "a" ++ [chr_tab] ++ s "b") = Some [Text (s "a b")].
Proof. split; vm_compute; reflexivity. Qed.

(** C7: a backtick with no closing backtick, at line 1 column 1, gives an
    Error token (and a [ParseError] of the text parser) whose position is
    line 1 column 2, the position after the backtick. *)
Theorem unclosed_backtick_position :
  tokenize (s "`") Transformer.zero_span =
    Some [mkToken (Error "Could not find closing backtick" (mkPos 1 2))
            (mkSpan (mkPos 1 1) (mkPos 1 2))] /\
  TextParser.parse (s "`") Transformer.zero_span =
    Err (mkParseError "Could not find closing backtick" (mkPos 1 2)).
Proof. split; vm_compute; reflexivity. Qed.

End TokenizerFacts.

(** ** The splitter on sample inputs *)
Module SplitterFacts.
Import Splitter Auxiliary.

(** C5: the block flushed at the end of the input is not trimmed: ["a\n"]
    gives the block ["a\n"], and the all-blank input ["  "] gives one
    block, ["  "]. *)
Theorem final_block_untrimmed :
  block_srcs (s "a" ++ [chr_lf]) = Some [s "a" ++ [chr_lf]] /\
  block_srcs (s "  ") = Some [s "  "].
Proof. split; vm_compute; reflexivity. Qed.

(** C6: splitting, rejoining the blocks with one blank line between them
    and splitting again does not give the same blocks: ["  ```\nfoo\n\nbar"]
    splits into ["```\nfoo"] and ["bar"], whose rejoining splits into the
    single block ["```\nfoo\n\nbar"]. *)
Theorem resplit_merges_code_block :
  let input := s "  ```" ++ [chr_lf] ++ s "foo" ++ [chr_lf; chr_lf] ++ s "bar" in
  block_srcs input = Some [s "```" ++ [chr_lf] ++ s "foo"; s "bar"] /\
  join_blocks [s "```" ++ [chr_lf] ++ s "foo"; s "bar"] =
    s "```" ++ [chr_lf] ++ s "foo" ++ [chr_lf; chr_lf] ++ s "bar" /\
  block_srcs (join_blocks [s "```" ++ [chr_lf] ++ s "foo"; s "bar"]) =
    Some [s "```" ++ [chr_lf] ++ s "foo" ++ [chr_lf; chr_lf] ++ s "bar"].
Proof. cbv zeta. split; [|split]; vm_compute; reflexivity. Qed.

End SplitterFacts.

(** ** The list parser on a sample block *)
Module ListParserFacts.
Import ListParser.

(** C9: a continuation line is appended to the item's content with no
    joining char: ["- a\nb"] gives one item whose content is ["ab"]. *)
Theorem continuation_line_no_space :
  match find_items_in_src (s "- a" ++ [chr_lf] ++ s "b") Transformer.zero_span with
  | Ok items => Some (map content items)
  | _ => None
  end = Some [s "ab"].
Proof. vm_compute. reflexivity. Qed.

End ListParserFacts.

(** ** The conversion pipeline *)
Module PipelineFacts.

Lemma convert_ok_empty lp cp tp ip qp input out :
  convert lp cp tp ip qp input = Ok out -> out = [].
Proof.
  unfold convert. destruct (convert_blocks _ _ _ _ _ _ _ _); simpl; intros H;
    [injection H as <-; reflexivity|discriminate|discriminate].
Qed.

(** C1: [convert] never returns a rendered tree: whatever the parsers of
    the other block kinds, a successful conversion returns the empty
    string.  On ["# Hi"] it returns [Ok ""], while transforming the
    collected blocks and writing the tree out gives
    ["<heading>\n    Hi\n</heading>\n"]. *)
Theorem convert_returns_empty_string (lp cp tp ip qp : str -> SourceSpan -> run ParsedBlock) :
  (forall input out, convert lp cp tp ip qp input = Ok out -> out = []) /\
  convert lp cp tp ip qp (s "# Hi") = Ok [] /\
  match convert_blocks lp cp tp ip qp (S (S (length (s "# Hi")))) (Splitter.new (s "# Hi")) [] with
  | Ok blocks => t ← Transformer.transform blocks; Transformer.to_string t
  | _ => None
  end = Some (s "<heading>" ++ [chr_lf] ++ s "    Hi" ++ [chr_lf] ++ s "</heading>" ++ [chr_lf]).
Proof.
  split; [intros input out; apply convert_ok_empty|].
  split; vm_compute; reflexivity.
Qed.

(** C8: a function block whose parameter has no [':'] is not parsed with
    the parameter left out: ["#fn(foo)"] is categorized as a function
    block, its parser panics (the [unwrap] of the missing value), and so
    does [convert] on it, whatever the other parsers. *)
Theorem function_param_without_colon_panics (lp cp tp ip qp : str -> SourceSpan -> run ParsedBlock) :
  option_map Categorizer.kind
    (Categorizer.categorize (Splitter.mkBlock (s "#fn(foo)") Transformer.zero_span)) =
    Some Categorizer.Function /\
  FunctionParser.parse (s "#fn(foo)") Transformer.zero_span = Panic /\
  convert lp cp tp ip qp (s "#fn(foo)") = Panic.
Proof. split; [|split]; vm_compute; reflexivity. Qed.

End PipelineFacts.


(** General facts on characters. *)
Module StrFacts.

Lemma ascii_eqb_reflect a b : reflect (a = b) (ascii_eqb a b).
Proof. unfold ascii_eqb. destruct (ascii_dec a b); constructor; auto. Qed.

Lemma ascii_eqb_refl a : ascii_eqb a a = true.
Proof. destruct (ascii_eqb_reflect a a); congruence. Qed.

Lemma ascii_eqb_neq a b : a <> b -> ascii_eqb a b = false.
Proof. destruct (ascii_eqb_reflect a b); congruence. Qed.

Ltac split_ifs :=
  repeat match goal with
  | |- context [if ?b then _ else _] => destruct b
  end.

Lemma existsb_ascii_In c l : existsb (ascii_eqb c) l = true <-> In c l.
Proof.
  rewrite existsb_exists. split.
  - intros (x & Hx & E). destruct (ascii_eqb_reflect c x); [subst; auto|discriminate].
  - intros H. exists c. split; [exact H|apply ascii_eqb_refl].
Qed.

Lemma trim_start_app l m :
  trim_start (l ++ m) = match trim_start l with [] => trim_start m | x => x ++ m end.
Proof.
  induction l as [|c l IH]; [reflexivity|]. cbn.
  destruct (is_whitespace c); [exact IH|reflexivity].
Qed.

Lemma trim_start_blank_app ws l :
  Forall (fun w => is_whitespace w = true) ws -> trim_start (ws ++ l) = trim_start l.
Proof. induction 1 as [|w ws Hw _ IH]; [reflexivity|]. cbn. rewrite Hw. exact IH. Qed.

Lemma trim_cons_ws w l : is_whitespace w = true -> trim (w :: l) = trim l.
Proof. intros Hw. unfold trim. cbn. rewrite Hw. reflexivity. Qed.

Lemma trim_snoc_ws l w : is_whitespace w = true -> trim (l ++ [w]) = trim l.
Proof.
  intros Hw. unfold trim. rewrite trim_start_app.
  destruct (trim_start l) as [|a r] eqn:E.
  - cbn. rewrite Hw. reflexivity.
  - rewrite rev_app_distr. cbn. rewrite Hw. reflexivity.
Qed.

Lemma trim_inner a m b :
  is_whitespace a = false -> is_whitespace b = false -> trim (a :: m ++ [b]) = a :: m ++ [b].
Proof.
  intros Ha Hb. unfold trim.
  assert (E1 : trim_start (a :: m ++ [b]) = a :: m ++ [b]) by (cbn; rewrite Ha; reflexivity).
  assert (E2 : rev (a :: m ++ [b]) = b :: rev m ++ [a])
    by (cbn; rewrite rev_app_distr; reflexivity).
  rewrite E1, E2. cbn [trim_start]. rewrite Hb, <- E2, rev_involutive. reflexivity.
Qed.

Lemma skipn_prefix {A} (l m : list A) n : skipn (length l + n) (l ++ m) = skipn n m.
Proof. induction l as [|a l IH]; [reflexivity|]. exact IH. Qed.

Lemma firstn_prefix {A} (l m : list A) n : firstn (length l + n) (l ++ m) = l ++ firstn n m.
Proof. induction l as [|a l IH]; [reflexivity|]. cbn. f_equal. exact IH. Qed.



Lemma exists_last_or_nil {A} (l : list A) : l = [] \/ exists l' x, l = l' ++ [x].
Proof. induction l as [|x l _] using rev_ind; [left; reflexivity|right; eauto]. Qed.

End StrFacts.

Module CategorizerFacts.
Import Categorizer.

Import StrFacts.

Lemma kind_of_heading c src : kind_of c src = Heading -> c = "#"%char /\ is_heading src = true.
Proof.
  unfold kind_of. destruct (ascii_eqb_reflect c "#"%char) as [->|Hne].
  - destruct (is_heading src); [auto|]. split_ifs; discriminate.
  - split_ifs; discriminate.
Qed.

Lemma is_heading_rest_iff l :
  is_heading_rest l = true <-> exists k rest, l = repeat "#"%char k ++ " "%char :: rest.
Proof.
  induction l as [|c l IH]; simpl.
  - split; [discriminate|]. intros (k & rest & H). destruct k; discriminate.
  - destruct (ascii_eqb_reflect c " "%char) as [->|Hsp].
    + split; [intros _; exists 0, l; reflexivity|auto].
    + destruct (ascii_eqb_reflect c "#"%char) as [->|Hh].
      * rewrite IH. split.
        -- intros (k & rest & ->). exists (S k), rest. reflexivity.
        -- intros (k & rest & H). destruct k as [|k]; simpl in H; [discriminate H|].
           injection H as H2. exists k, rest. exact H2.
      * split; [discriminate|]. intros (k & rest & H).
        destruct k; simpl in H; injection H as H1 _; congruence.
Qed.

(** A block is categorized as a heading exactly when it is one or more
    ['#'] followed by a space. *)
Theorem categorize_heading_iff (src : str) (sp : SourceSpan) :
  option_map kind (categorize (Splitter.mkBlock src sp)) = Some Heading <->
  exists k rest, src = repeat "#"%char (S k) ++ " "%char :: rest.
Proof.
  unfold categorize. simpl. destruct src as [|c src'].
  - simpl. split; [discriminate|]. intros (k & rest & H). discriminate.
  - simpl. split.
    + intros H. injection H as H. apply kind_of_heading in H as [-> Hh].
      change (is_heading_rest src' = true) in Hh. apply is_heading_rest_iff in Hh as (k & rest & ->).
      exists k, rest. reflexivity.
    + intros (k & rest & H). simpl in H. injection H as -> ->.
      assert (Hh : is_heading ("#"%char :: repeat "#"%char k ++ " "%char :: rest) = true).
      { change (is_heading_rest (repeat "#"%char k ++ " "%char :: rest) = true). apply is_heading_rest_iff. eauto. }
      unfold kind_of. rewrite ascii_eqb_refl, Hh. reflexivity.
Qed.

Lemma kind_of_code c src : kind_of c src = Code -> c = "`"%char /\ is_code_block src = true.
Proof.
  unfold kind_of. destruct (ascii_eqb_reflect c "`"%char) as [->|Hne].
  - cbn -[is_code_block]. destruct (is_code_block src); [auto|discriminate].
  - split_ifs; discriminate.
Qed.

(** A block is categorized as a code block exactly when it starts with
    three backticks. *)
Theorem categorize_code_iff (src : str) (sp : SourceSpan) :
  option_map kind (categorize (Splitter.mkBlock src sp)) = Some Code <->
  exists rest, src = "`"%char :: "`"%char :: "`"%char :: rest.
Proof.
  unfold categorize. simpl. destruct src as [|c src'].
  - simpl. split; [discriminate|]. intros (rest & H). discriminate.
  - simpl. split.
    + intros H. injection H as H. apply kind_of_code in H as [-> Hc].
      unfold is_code_block in Hc.
      destruct src' as [|a [|b src'']]; cbn in Hc; [discriminate|..].
      * destruct (ascii_eqb_reflect a "`"%char); discriminate.
      * destruct (ascii_eqb_reflect a "`"%char) as [->|]; [|discriminate].
        destruct (ascii_eqb_reflect b "`"%char) as [->|]; [|discriminate].
        exists src''. reflexivity.
    + intros (rest & H). injection H as -> ->. reflexivity.
Qed.

Lemma is_ordered_list_iff src :
  is_ordered_list src = true <-> exists d rest, src = d :: "."%char :: " "%char :: rest.
Proof.
  unfold is_ordered_list. destruct src as [|d [|p [|q rest]]]; cbn.
  - split; [discriminate|]. intros (? & ? & H). discriminate.
  - split; [discriminate|]. intros (? & ? & H). discriminate.
  - destruct (ascii_eqb p "."%char); cbn; split; try discriminate; intros (? & ? & H); discriminate.
  - destruct (ascii_eqb_reflect p "."%char) as [->|Hp]; destruct (ascii_eqb_reflect q " "%char) as [->|Hq];
      cbn; split; try discriminate; eauto; intros (d' & r & H); injection H; congruence.
Qed.

Lemma is_unordered_list_iff src c :
  is_unordered_list src c = true <-> exists d rest, src = d :: " "%char :: rest.
Proof.
  unfold is_unordered_list. destruct src as [|d [|p rest]]; cbn.
  - split; [discriminate|]. intros (? & ? & H). discriminate.
  - split; [discriminate|]. intros (? & ? & H). discriminate.
  - destruct (ascii_eqb_reflect p " "%char) as [->|Hp]; split; try discriminate; eauto.
    intros (d' & r & H); injection H; congruence.
Qed.

Lemma kind_of_list c src :
  kind_of c src = List ->
  (In c (s "123456789") /\ is_ordered_list src = true) \/
  (In c (s "-+*") /\ is_unordered_list src c = true).
Proof.
  unfold kind_of.
  destruct (ascii_eqb_reflect c "#"%char) as [->|H1]; [cbn; split_ifs; discriminate|].
  destruct (ascii_eqb_reflect c "!"%char) as [->|H2]; [cbn; split_ifs; discriminate|].
  destruct (existsb (ascii_eqb c) (s "123456789")) eqn:Ed.
  - destruct (is_ordered_list src); [|discriminate]. intros _. left.
    split; [apply existsb_ascii_In; exact Ed|reflexivity].
  - destruct (ascii_eqb c "-"%char || ascii_eqb c "+"%char || ascii_eqb c "*"%char) eqn:Eu.
    + destruct (is_horizontal_rule src c); [discriminate|].
      destruct (is_unordered_list src c) eqn:El; [|discriminate]. intros _. right.
      split; [|reflexivity].
      apply orb_true_iff in Eu as [Eu|Eu]; [apply orb_true_iff in Eu as [Eu|Eu]|];
        destruct (ascii_eqb_reflect c "-"%char); destruct (ascii_eqb_reflect c "+"%char);
        destruct (ascii_eqb_reflect c "*"%char); subst; cbn; try discriminate; tauto.
    + split_ifs; discriminate.
Qed.

(** A block is categorized as a list exactly when it starts with a digit
    from 1 to 9, a period and a space, or with one of ['-'], ['+'], ['*']
    and a space. *)
Theorem categorize_list_iff (src : str) (sp : SourceSpan) :
  option_map kind (categorize (Splitter.mkBlock src sp)) = Some List <->
  (exists d rest, In d (s "123456789") /\ src = d :: "."%char :: " "%char :: rest) \/
  (exists c rest, In c (s "-+*") /\ src = c :: " "%char :: rest).
Proof.
  unfold categorize. simpl. destruct src as [|c src'].
  - simpl. split; [discriminate|]. intros [(? & ? & _ & H)|(? & ? & _ & H)]; discriminate.
  - simpl. split.
    + intros H. injection H as H. apply kind_of_list in H as [[Hd Ho]|[Hu Hl]].
      * left. apply is_ordered_list_iff in Ho as (d & rest & H). injection H as <- ->.
        exists c, rest. auto.
      * right. apply is_unordered_list_iff in Hl as (d & rest & H). injection H as <- ->.
        exists c, rest. auto.
    + intros [(d & rest & Hd & H)|(d & rest & Hd & H)]; injection H as -> ->.
      * cbn in Hd. repeat (destruct Hd as [<-|Hd]; [reflexivity|]). destruct Hd.
      * cbn in Hd. repeat (destruct Hd as [<-|Hd]; [reflexivity|]). destruct Hd.
Qed.

Lemma count_leading_split c l : l = repeat c (count_leading c l) ++ skipn (count_leading c l) l.
Proof.
  induction l as [|a l IH]; [reflexivity|]. cbn.
  destruct (ascii_eqb_reflect a c) as [->|]; cbn; [f_equal; exact IH|reflexivity].
Qed.

Lemma count_leading_app c n l : count_leading c (repeat c n ++ l) = n + count_leading c l.
Proof. induction n; cbn; [reflexivity|]. rewrite ascii_eqb_refl, IHn. reflexivity. Qed.

Definition tab_or_space (w : ascii) : Prop := w = " "%char \/ w = chr_tab.

Lemma blank_forallb ws :
  forallb (fun c => ascii_eqb c " "%char || ascii_eqb c chr_tab) ws = true <-> Forall tab_or_space ws.
Proof.
  rewrite forallb_forall, List.Forall_forall. unfold tab_or_space.
  split; intros H x Hx; specialize (H x Hx).
  - apply orb_true_iff in H as [H|H];
      [left|right]; destruct (ascii_eqb_reflect x " "%char); destruct (ascii_eqb_reflect x chr_tab);
      auto; discriminate.
  - destruct H as [-> | ->]; reflexivity.
Qed.

Lemma is_horizontal_rule_sound src c :
  is_horizontal_rule src c = true ->
  exists k ws, src = repeat c (3 + k) ++ ws /\ Forall tab_or_space ws.
Proof.
  unfold is_horizontal_rule. cbv zeta.
  destruct (3 <=? count_leading c src) eqn:E; [|discriminate].
  apply Nat.leb_le in E. intros Hf. apply blank_forallb in Hf.
  exists (count_leading c src - 3), (skipn (count_leading c src) src). split; [|exact Hf].
  replace (3 + (count_leading c src - 3)) with (count_leading c src) by lia.
  apply count_leading_split.
Qed.

Lemma is_horizontal_rule_complete c k ws :
  c <> " "%char -> c <> chr_tab -> Forall tab_or_space ws ->
  is_horizontal_rule (repeat c (3 + k) ++ ws) c = true.
Proof.
  intros Hs Ht Hws. unfold is_horizontal_rule. cbv zeta.
  assert (Hc : count_leading c ws = 0).
  { destruct ws as [|w ws']; [reflexivity|]. cbn. inversion Hws as [|? ? Hw]; subst.
    destruct (ascii_eqb_reflect w c) as [->|]; [destruct Hw; contradiction|reflexivity]. }
  rewrite count_leading_app, Hc, Nat.add_0_r.
  replace (3 <=? 3 + k) with true by (symmetry; apply Nat.leb_le; lia).
  rewrite skipn_app, repeat_length, Nat.sub_diag.
  replace (skipn (3 + k) (repeat c (3 + k))) with (@nil ascii)
    by (symmetry; apply List.skipn_all2; rewrite repeat_length; lia).
  change (forallb (fun c0 => ascii_eqb c0 " "%char || ascii_eqb c0 chr_tab) ws = true).
  apply blank_forallb. exact Hws.
Qed.

Lemma kind_of_hr c src :
  kind_of c src = HorizontalRule -> In c (s "-+*_") /\ is_horizontal_rule src c = true.
Proof.
  unfold kind_of.
  destruct (ascii_eqb_reflect c "#"%char) as [->|H1]; [cbn; split_ifs; discriminate|].
  destruct (ascii_eqb_reflect c "!"%char) as [->|H2]; [cbn; split_ifs; discriminate|].
  destruct (existsb (ascii_eqb c) (s "123456789")); [split_ifs; discriminate|].
  destruct (ascii_eqb_reflect c "-"%char) as [->|H3].
  { cbn -[is_horizontal_rule]. destruct (is_horizontal_rule src "-"%char); [|split_ifs; discriminate].
    intros _. split; [left; reflexivity|reflexivity]. }
  destruct (ascii_eqb_reflect c "+"%char) as [->|H4].
  { cbn -[is_horizontal_rule]. destruct (is_horizontal_rule src "+"%char); [|split_ifs; discriminate].
    intros _. split; [right; left; reflexivity|reflexivity]. }
  destruct (ascii_eqb_reflect c "*"%char) as [->|H5].
  { cbn -[is_horizontal_rule]. destruct (is_horizontal_rule src "*"%char); [|split_ifs; discriminate].
    intros _. split; [right; right; left; reflexivity|reflexivity]. }
  destruct (ascii_eqb_reflect c "_"%char) as [->|H6].
  { cbn -[is_horizontal_rule]. destruct (is_horizontal_rule src "_"%char); [|discriminate].
    intros _. split; [right; right; right; left; reflexivity|reflexivity]. }
  cbn. split_ifs; discriminate.
Qed.

(** A block is categorized as a horizontal rule exactly when it is three or
    more copies of one of ['-'], ['+'], ['*'], ['_'] followed only by spaces
    and tabs. *)
Theorem categorize_horizontal_rule_iff (src : str) (sp : SourceSpan) :
  option_map kind (categorize (Splitter.mkBlock src sp)) = Some HorizontalRule <->
  exists c k ws, In c (s "-+*_") /\ src = repeat c (3 + k) ++ ws /\ Forall tab_or_space ws.
Proof.
  unfold categorize. simpl. destruct src as [|c src'].
  - simpl. split; [discriminate|]. intros (? & ? & ? & _ & H & _). discriminate.
  - simpl. split.
    + intros H. injection H as H. apply kind_of_hr in H as [Hin Hhr].
      apply is_horizontal_rule_sound in Hhr as (k & ws & E & Hws).
      exists c, k, ws. auto.
    + intros (d & k & ws & Hd & H & Hws).
      assert (Hhr : is_horizontal_rule (c :: src') d = true).
      { rewrite H. apply is_horizontal_rule_complete; [| |exact Hws];
          cbn in Hd; intros ->; repeat (destruct Hd as [Hd|Hd]; [discriminate|]); destruct Hd. }
      cbn in H. injection H as <- _.
      cbn in Hd. repeat (destruct Hd as [<-|Hd]; [unfold kind_of; cbn -[is_horizontal_rule]; rewrite Hhr; reflexivity|]).
      destruct Hd.
Qed.

End CategorizerFacts.

Module HeadingParserFacts.
Import StrFacts CategorizerFacts.



(** HeadingParser: a source made only of ['#'] (or empty) makes the
    [self.src[offset..]] slice go past the end and panics. *)
Theorem heading_parse_only_hashes (k : nat) (sp : SourceSpan) :
  HeadingParser.parse (repeat "#"%char k) sp = Panic.
Proof.
  unfold HeadingParser.parse.
  assert (E : Categorizer.count_leading "#"%char (repeat "#"%char k) = k).
  { rewrite <- (app_nil_r (repeat "#"%char k)), count_leading_app. cbn. lia. }
  rewrite E, repeat_length.
  replace (k <? k + 1) with true by (symmetry; apply Nat.ltb_lt; lia). reflexivity.
Qed.

End HeadingParserFacts.

Module CodeParserFacts.
Import StrFacts CodeParser.

Definition not_lang_end (c : ascii) : Prop := ~ In c [" "%char; chr_tab; chr_lf; "`"%char].

Lemma language_loop_lang lang r acc :
  Forall not_lang_end lang -> language_loop (lang ++ chr_lf :: r) acc = acc ++ lang.
Proof.
  intros H. revert acc. induction H as [|c lang Hc _ IH]; intros acc.
  - cbn. rewrite app_nil_r. reflexivity.
  - unfold not_lang_end in Hc. cbn.
    rewrite (ascii_eqb_neq c " "%char), (ascii_eqb_neq c chr_tab), (ascii_eqb_neq c chr_lf),
      (ascii_eqb_neq c "`"%char) by (intros ->; apply Hc; cbn; tauto).
    cbn. rewrite IH, <- app_assoc. reflexivity.
Qed.

Lemma find_header_fence ws r sp :
  Forall (fun w => is_whitespace w = true) ws ->
  let li := language_loop r [] in
  find_header (ws ++ fence ++ r) sp =
  Ok (mkHeader (length ws + 3 + length li) (match li with [] => None | _ => Some li end)).
Proof.
  intros Hws li. unfold find_header.
  rewrite trim_start_blank_app by exact Hws.
  change (trim_start (fence ++ r)) with (fence ++ r).
  replace (length (ws ++ fence ++ r) - length (fence ++ r)) with (length ws)
    by (rewrite length_app; lia).
  reflexivity.
Qed.

Lemma find_footer_fence x sp : find_footer (x ++ fence) sp = Ok (length x).
Proof.
  unfold find_footer, ends_with, trim_end.
  rewrite rev_app_distr. change (rev fence) with fence.
  change (trim_start (fence ++ rev x)) with (fence ++ rev x).
  rewrite length_rev, length_app.
  change (starts_with fence (fence ++ rev x)) with true. cbn [length fence s list_ascii_of_string].
  rewrite length_rev.
  replace (3 + length x <? 3) with false by (symmetry; apply Nat.ltb_ge; lia).
  f_equal. lia.
Qed.

(** CodeParser: a fenced block, possibly indented by whitespace, gives the
    language identifier written after the opening fence ([None] when there
    is none) and the code between the two fences, trimmed. *)
Theorem code_parse_fenced (ws lang code : str) (sp : SourceSpan) :
  Forall (fun w => is_whitespace w = true) ws ->
  Forall not_lang_end lang ->
  CodeParser.parse (ws ++ s "```" ++ lang ++ chr_lf :: code ++ chr_lf :: s "```") sp =
  Ok (mkParsed (PCode (match lang with [] => None | _ => Some lang end) (trim code)) sp).
Proof.
  intros Hws Hl. unfold CodeParser.parse.
  change (s "```") with fence.
  rewrite find_header_fence by exact Hws. cbv zeta.
  rewrite language_loop_lang by exact Hl. cbn [app].
  replace (ws ++ fence ++ lang ++ chr_lf :: code ++ chr_lf :: fence)
    with (((ws ++ fence ++ lang) ++ (chr_lf :: code ++ [chr_lf])) ++ fence)
    by (rewrite <- !app_assoc; cbn [app]; rewrite <- ?app_assoc; reflexivity).
  rewrite find_footer_fence. cbn [run_bind header_offset language_identifier].
  replace (length ws + 3 + length lang) with (length (ws ++ fence ++ lang) + 0)
    by (rewrite !length_app; cbn; lia).
  set (pre := ws ++ fence ++ lang). set (mid := chr_lf :: code ++ [chr_lf]).
  rewrite length_app.
  replace (length pre + length mid <? length pre + 0) with false
    by (symmetry; apply Nat.ltb_ge; lia).
  rewrite <- app_assoc, skipn_prefix. change (skipn 0 (mid ++ fence)) with (mid ++ fence).
  replace (length pre + length mid - (length pre + 0)) with (length mid + 0) by lia.
  rewrite firstn_prefix. change (firstn 0 fence) with (@nil ascii). rewrite app_nil_r.
  unfold mid. rewrite trim_cons_ws, trim_snoc_ws by reflexivity. reflexivity.
Qed.

Lemma code_parse_fenced_witness :
  Forall (fun w => is_whitespace w = true) (s " ") /\ Forall not_lang_end (s "rust") /\
  CodeParser.parse (s " " ++ s "```" ++ s "rust" ++ chr_lf :: s " fn f() {} " ++ chr_lf :: s "```")
    (mkSpan (mkPos 1 1) (mkPos 3 4)) =
  Ok (mkParsed (PCode (Some (s "rust")) (trim (s " fn f() {} "))) (mkSpan (mkPos 1 1) (mkPos 3 4))).
Proof.
  assert (H1 : Forall (fun w => is_whitespace w = true) (s " ")) by repeat constructor.
  assert (H2 : Forall not_lang_end (s "rust"))
    by (repeat constructor; unfold not_lang_end; cbn; intuition discriminate).
  split; [exact H1|]. split; [exact H2|].
  exact (code_parse_fenced (s " ") (s "rust") (s " fn f() {} ") (mkSpan (mkPos 1 1) (mkPos 3 4)) H1 H2).
Defined.

(** CodeParser: a block of three to five backticks and nothing else (after
    leading whitespace) panics, since the closing fence overlaps the
    opening one and the code slice is reversed. *)
Theorem code_parse_lone_fence_panics (ws : str) (n : nat) (sp : SourceSpan) :
  Forall (fun w => is_whitespace w = true) ws -> 3 <= n <= 5 ->
  CodeParser.parse (ws ++ repeat "`"%char n) sp = Panic.
Proof.
  intros Hws Hn. unfold CodeParser.parse.
  replace n with (3 + (n - 3)) by lia. rewrite repeat_app.
  change (repeat "`"%char 3) with fence.
  rewrite find_header_fence by exact Hws. cbv zeta.
  replace (language_loop (repeat "`"%char (n - 3)) []) with (@nil ascii)
    by (destruct (n - 3); reflexivity).
  replace (ws ++ fence ++ repeat "`"%char (n - 3)) with ((ws ++ repeat "`"%char (n - 3)) ++ fence).
  2:{ rewrite <- !app_assoc. f_equal. change fence with (repeat "`"%char 3).
      rewrite <- !repeat_app, Nat.add_comm. reflexivity. }
  rewrite find_footer_fence. cbn [run_bind header_offset].
  rewrite length_app, repeat_length. cbn [length].
  replace (length ws + (n - 3) <? length ws + 3 + 0) with true
    by (symmetry; apply Nat.ltb_lt; lia).
  reflexivity.
Qed.

Lemma code_parse_lone_fence_panics_witness :
  Forall (fun w => is_whitespace w = true) (s "  ") /\ 3 <= 4 <= 5 /\
  CodeParser.parse (s "  " ++ repeat "`"%char 4) (mkSpan (mkPos 1 1) (mkPos 1 7)) = Panic.
Proof.
  assert (H1 : Forall (fun w => is_whitespace w = true) (s "  ")) by repeat constructor.
  split; [exact H1|]. split; [lia|].
  apply code_parse_lone_fence_panics; [exact H1|lia].
Defined.

End CodeParserFacts.

Module ImageParserFacts.
Import StrFacts ImageParser.

Definition not_bracket (c : ascii) : Prop := c <> "["%char /\ c <> "]"%char.

Lemma closing_bracket_loop_label label r i :
  Forall not_bracket label -> closing_bracket_loop (label ++ "]"%char :: r) i 0 = i + length label.
Proof.
  intros H. revert i. induction H as [|c label [H1 H2] _ IH]; intros i.
  - cbn. lia.
  - cbn. rewrite (ascii_eqb_neq _ _ H1), (ascii_eqb_neq _ _ H2). rewrite IH. lia.
Qed.

Lemma image_src_loop_url url r : ~ In ")"%char url -> image_src_loop (url ++ ")"%char :: r) = url.
Proof.
  induction url as [|c url IH]; intros Hn; cbn.
  - reflexivity.
  - rewrite ascii_eqb_neq by (intros ->; apply Hn; left; reflexivity).
    rewrite IH by (intros H; apply Hn; right; exact H). reflexivity.
Qed.

(** ImageParser: on [![label](url)] with no brackets in the label and no
    [')'] in the url, the image source is the url and the label, trimmed,
    is parsed as text with a span from column 2 to column [2 + length label]
    on the block's first line. *)
Theorem image_parse_link (label url : str) (sp : SourceSpan) :
  Forall not_bracket label -> ~ In ")"%char url ->
  ImageParser.parse (s "![" ++ label ++ s "](" ++ url ++ s ")") sp =
  run_bind (TextParser.parse_tree (trim label)
              (mkSpan (mkPos (line (span_start sp)) 2)
                      (mkPos (line (span_start sp)) (2 + length label))))
    (fun t => Ok (mkParsed (PImage t url) sp)).
Proof.
  intros Hl Hu. unfold ImageParser.parse.
  assert (Ht : trim (s "![" ++ label ++ s "](" ++ url ++ s ")") = s "![" ++ label ++ s "](" ++ url ++ s ")").
  { replace (s "![" ++ label ++ s "](" ++ url ++ s ")")
      with ("!"%char :: ("["%char :: label ++ s "](" ++ url) ++ [")"%char])
      by (cbn; rewrite <- !app_assoc; reflexivity).
    apply trim_inner; reflexivity. }
  rewrite Ht, Nat.sub_diag.
  replace (length (s "![" ++ label ++ s "](" ++ url ++ s ")") <? 2) with false
    by (symmetry; apply Nat.ltb_ge; cbn; lia).
  change (skipn 2 (s "![" ++ label ++ s "](" ++ url ++ s ")"))
    with (label ++ "]"%char :: "("%char :: url ++ [")"%char]).
  rewrite closing_bracket_loop_label by exact Hl. cbn [Nat.add].
  replace (firstn (length label) (label ++ "]"%char :: "("%char :: url ++ [")"%char])) with label
    by (rewrite firstn_app, Nat.sub_diag, firstn_all; cbn; rewrite app_nil_r; reflexivity).
  unfold TextParser.parse.
  destruct (TextParser.parse_tree (trim label) _) as [t|e|]; cbn [run_bind]; [|reflexivity|reflexivity].
  cbn [pkind]. rewrite length_app. cbn [length].
  replace (length label + S (S (length (url ++ [")"%char]))) <? length label + 2) with false
    by (symmetry; apply Nat.ltb_ge; lia).
  change (label ++ "]"%char :: "("%char :: url ++ [")"%char])
    with (label ++ ["]"%char; "("%char] ++ url ++ [")"%char]).
  rewrite app_assoc.
  replace (length label + 2) with (length (label ++ ["]"%char; "("%char]) + 0)
    by (rewrite length_app; cbn; lia).
  rewrite skipn_prefix. change (skipn 0 (url ++ [")"%char])) with (url ++ [")"%char]).
  rewrite image_src_loop_url by exact Hu. reflexivity.
Qed.

Lemma image_parse_link_witness :
  Forall not_bracket (s " Logo ") /\ ~ In ")"%char (s "logo.png") /\
  ImageParser.parse (s "![" ++ s " Logo " ++ s "](" ++ s "logo.png" ++ s ")") (mkSpan (mkPos 4 1) (mkPos 4 22)) =
  run_bind (TextParser.parse_tree (trim (s " Logo ")) (mkSpan (mkPos 4 2) (mkPos 4 8)))
    (fun t => Ok (mkParsed (PImage t (s "logo.png")) (mkSpan (mkPos 4 1) (mkPos 4 22)))).
Proof.
  assert (H1 : Forall not_bracket (s " Logo "))
    by (repeat constructor; unfold not_bracket; discriminate).
  assert (H2 : ~ In ")"%char (s "logo.png")) by (cbn; intuition discriminate).
  split; [exact H1|]. split; [exact H2|].
  exact (image_parse_link (s " Logo ") (s "logo.png") (mkSpan (mkPos 4 1) (mkPos 4 22)) H1 H2).
Defined.

End ImageParserFacts.

Module FunctionParserFacts.
Import StrFacts FunctionParser.

(** The text [key:value] of one parameter and the comma-separated text of
    a parameter list. *)
Definition entry (kv : str * str) : str := fst kv ++ ":"%char :: snd kv.


Definition name_char (c : ascii) : Prop := ~ In c ["#"%char; " "%char; chr_tab; "("%char].





Lemma name_loop_name nm r acc off :
  Forall name_char nm -> name_loop (nm ++ "("%char :: r) acc off = inr (acc ++ nm, off + length nm).
Proof.
  intros H. revert acc off. induction H as [|c nm Hc _ IH]; intros acc off.
  - cbn. rewrite app_nil_r, Nat.add_0_r. reflexivity.
  - unfold name_char in Hc. cbn.
    rewrite (ascii_eqb_neq c "#"%char), (ascii_eqb_neq c " "%char), (ascii_eqb_neq c chr_tab),
      (ascii_eqb_neq c "("%char) by (intros ->; apply Hc; cbn; tauto).
    cbn. rewrite IH, <- app_assoc. f_equal. f_equal. lia.
Qed.





(** FunctionParser: a space or tab inside the function name is an error
    reported at the start of the block. *)
Theorem function_parse_whitespace_in_name (a b : str) (w e : ascii) (sp : SourceSpan) :
  Forall name_char a -> (w = " "%char \/ w = chr_tab) -> is_whitespace e = false ->
  FunctionParser.parse ("#"%char :: a ++ w :: b ++ [e]) sp =
  Err (mkParseError "Unexpected whitespace in function name" (span_start sp)).
Proof.
  intros Ha Hw He. unfold FunctionParser.parse.
  replace (trim ("#"%char :: a ++ w :: b ++ [e])) with ("#"%char :: a ++ w :: b ++ [e]).
  2:{ symmetry. replace (a ++ w :: b ++ [e]) with ((a ++ w :: b) ++ [e])
        by (rewrite <- app_assoc; reflexivity).
      apply trim_inner; [reflexivity|exact He]. }
  cbn [name_loop]. change (ascii_eqb "#"%char "#"%char) with true. cbv iota.
  assert (E : forall acc off, name_loop (a ++ w :: b ++ [e]) acc off = inl tt).
  { induction Ha as [|c a Hc _ IH]; intros acc off.
    - cbn. destruct Hw as [-> | ->]; reflexivity.
    - unfold name_char in Hc. cbn.
      rewrite (ascii_eqb_neq c "#"%char), (ascii_eqb_neq c " "%char), (ascii_eqb_neq c chr_tab),
        (ascii_eqb_neq c "("%char) by (intros ->; apply Hc; cbn; tauto).
      apply IH. }
  rewrite E. reflexivity.
Qed.

Lemma function_parse_whitespace_in_name_witness :
  Forall name_char (s "Table") /\ (" "%char = " "%char \/ " "%char = chr_tab) /\
  is_whitespace "s"%char = false /\
  FunctionParser.parse ("#"%char :: s "Table" ++ " "%char :: s "Of" ++ ["s"%char]) (mkSpan (mkPos 2 1) (mkPos 2 10)) =
  Err (mkParseError "Unexpected whitespace in function name" (mkPos 2 1)).
Proof.
  assert (H1 : Forall name_char (s "Table"))
    by (repeat constructor; unfold name_char; cbn; intuition discriminate).
  assert (H2 : " "%char = " "%char \/ " "%char = chr_tab) by (left; reflexivity).
  assert (H3 : is_whitespace "s"%char = false) by reflexivity.
  split; [exact H1|]. split; [exact H2|]. split; [exact H3|].
  exact (function_parse_whitespace_in_name (s "Table") (s "Of") " "%char "s"%char
           (mkSpan (mkPos 2 1) (mkPos 2 10)) H1 H2 H3).
Defined.

(** FunctionParser: an opening parenthesis after the name without a
    closing one at the end of the block is an error reported at the start
    of the block. *)
Theorem function_parse_unclosed (nm params : str) (e : ascii) (sp : SourceSpan) :
  nm <> [] -> Forall name_char nm -> e <> ")"%char -> is_whitespace e = false ->
  FunctionParser.parse ("#"%char :: nm ++ "("%char :: params ++ [e]) sp =
  Err (mkParseError "Expected closing parenthesis for function parameters" (span_start sp)).
Proof.
  intros Hne Hn He Hw. unfold FunctionParser.parse.
  replace (trim ("#"%char :: nm ++ "("%char :: params ++ [e])) with ("#"%char :: nm ++ "("%char :: params ++ [e]).
  2:{ symmetry. replace (nm ++ "("%char :: params ++ [e]) with ((nm ++ "("%char :: params) ++ [e])
        by (rewrite <- app_assoc; reflexivity).
      apply trim_inner; [reflexivity|exact Hw]. }
  cbn [name_loop]. change (ascii_eqb "#"%char "#"%char) with true. cbv iota.
  rewrite name_loop_name by exact Hn. cbn [app].
  destruct nm as [|n0 nm']; [contradiction|]. cbv iota.
  replace (1 + length (n0 :: nm')) with (length ("#"%char :: n0 :: nm') + 0) by (cbn; lia).
  change ("#"%char :: (n0 :: nm') ++ "("%char :: params ++ [e])
    with (("#"%char :: n0 :: nm') ++ "("%char :: params ++ [e]).
  rewrite skipn_prefix. change (skipn 0 ("("%char :: params ++ [e])) with ("("%char :: params ++ [e]).
  cbv iota.
  rewrite app_comm_cons, last_snoc, (ascii_eqb_neq _ _ He). reflexivity.
Qed.

Lemma function_parse_unclosed_witness :
  s "Sign" <> [] /\ Forall name_char (s "Sign") /\ "x"%char <> ")"%char /\ is_whitespace "x"%char = false /\
  FunctionParser.parse ("#"%char :: s "Sign" ++ "("%char :: s "a:" ++ ["x"%char]) (mkSpan (mkPos 3 1) (mkPos 3 10)) =
  Err (mkParseError "Expected closing parenthesis for function parameters" (mkPos 3 1)).
Proof.
  assert (H1 : s "Sign" <> []) by discriminate.
  assert (H2 : Forall name_char (s "Sign"))
    by (repeat constructor; unfold name_char; cbn; intuition discriminate).
  assert (H3 : "x"%char <> ")"%char) by discriminate.
  assert (H4 : is_whitespace "x"%char = false) by reflexivity.
  split; [exact H1|]. split; [exact H2|]. split; [exact H3|]. split; [exact H4|].
  exact (function_parse_unclosed (s "Sign") (s "a:") "x"%char (mkSpan (mkPos 3 1) (mkPos 3 10)) H1 H2 H3 H4).
Defined.

End FunctionParserFacts.

Module TransformerFacts.
Import Transformer TreeInvariants TransformerProofs.

Lemma forall_tail {A} (P : A -> Prop) (l : list A) : Forall P l -> Forall P (tail l).
Proof. destruct 1; [constructor|assumption]. Qed.

Lemma below_mono t t' stk :
  next_id t <= next_id t' -> Forall (fun y => y < next_id t) stk -> Forall (fun y => y < next_id t') stk.
Proof. intros Hle F. eapply Forall_impl; [exact F|]. intros; cbn in *; lia. Qed.

Lemma register_below t stk parent k sp i t' :
  StackBelow (t, stk) -> parent < next_id t -> register_node t parent k sp = Some (i, t') ->
  StackBelow (t', stk) /\ i < next_id t'.
Proof.
  intros [Hi F] Hlt Hreg.
  pose proof (register_node_shape _ _ _ _ _ _ Hlt Hreg) as (-> & Hnext & _).
  split; [split; [eapply register_inv; eauto|]|]; cbn; rewrite ?Hnext; [|lia].
  eapply Forall_impl; [exact F|]. cbn. intros; lia.
Qed.

Lemma push_node_below k sp st st' :
  StackBelow st -> push_node k sp st = Some st' -> StackBelow st'.
Proof.
  destruct st as [t stk]. intros Hb Hp. unfold push_node in Hp.
  destruct stk as [|top rest]; [discriminate|]. cbn in Hp.
  destruct (register_node t top k sp) as [[i t1]|] eqn:Hreg; [|discriminate].
  cbn in Hp. injection Hp as <-.
  assert (Htop : top < next_id t) by (destruct Hb as [_ F]; inversion F; assumption).
  destruct (register_below _ _ _ _ _ _ _ Hb Htop Hreg) as [[Hi1 F1] Hlt].
  split; [exact Hi1|]. constructor; assumption.
Qed.

Lemma pop_below st : StackBelow st -> StackBelow (pop st).
Proof. intros [Hi F]. split; [exact Hi|]. apply forall_tail. exact F. Qed.

Lemma foldM_below {B} (f : State -> B -> option State) xs st st' :
  (forall a x a', StackBelow a -> In x xs -> f a x = Some a' -> StackBelow a') ->
  StackBelow st -> foldM f xs st = Some st' -> StackBelow st'.
Proof.
  intros Hstep Hb Hf.
  apply (proj2 (foldM_inv StackBelow (fun _ _ => True) f xs (fun _ _ => I) (fun _ _ _ _ _ => I)
                  (fun a x a' Ha Hx Hy => conj I (Hstep a x a' Ha Hx Hy)) st st' Hb Hf)).
Qed.

Lemma text_tree_below text_tree st st' :
  StackBelow st -> transform_text_tree text_tree st = Some st' -> StackBelow st'.
Proof. intros Hb Ht. exact (proj2 (text_tree_same_stack _ _ _ Hb Ht)). Qed.

Ltac step_below :=
  repeat match goal with
  | H : (?x ≫= _) = Some _ |- _ =>
      let y := fresh "st" in let E := fresh "E" in
      destruct x as [y|] eqn:E; [cbn -[push_node foldM transform_text_tree Nat.ltb] in H|discriminate H]
  | H : Some _ = Some _ |- _ => injection H as <-
  end.

Lemma list_item_below fuel list_tree sp st x st' :
  StackBelow st -> transform_list_item fuel list_tree sp st x = Some st' -> StackBelow st'.
Proof.
  revert st x st'. induction fuel as [|fuel IH]; intros st x st' Hb Ht; [discriminate|].
  cbn -[push_node foldM transform_text_tree] in Ht.
  destruct (ListTree.items list_tree !! x) as [ln|]; [|discriminate].
  cbn -[push_node foldM transform_text_tree] in Ht.
  destruct (ListTree.kind ln); step_below; apply pop_below.
  - eapply foldM_below; [intros a y a' Ha _ Hy; eapply IH; eauto| |eassumption].
    eapply push_node_below; eassumption.
  - eapply text_tree_below; [|eassumption]. eapply push_node_below; eassumption.
Qed.

Lemma quote_node_below fuel quote_tree sp st x st' :
  StackBelow st -> transform_quote_node fuel quote_tree sp st x = Some st' -> StackBelow st'.
Proof.
  revert st x st'. induction fuel as [|fuel IH]; intros st x st' Hb Ht; [discriminate|].
  cbn -[push_node foldM transform_text_tree] in Ht.
  destruct (QuoteTree.nodes quote_tree !! x) as [qn|]; [|discriminate].
  cbn -[push_node foldM transform_text_tree] in Ht.
  destruct (QuoteTree.kind qn).
  - step_below. apply pop_below.
    eapply foldM_below; [intros a y a' Ha _ Hy; eapply IH; eauto| |eassumption].
    eapply push_node_below; eassumption.
  - eapply text_tree_below; eassumption.
Qed.

Lemma push_sections_below n sp st st' :
  StackBelow st -> push_sections n sp st = Some st' -> StackBelow st'.
Proof.
  revert st. induction n as [|n IH]; intros st Hb Hp; cbn -[push_node] in Hp.
  - injection Hp as <-. exact Hb.
  - destruct (push_node Section sp st) as [st1|] eqn:E; [|discriminate].
    cbn -[push_node] in Hp. eapply IH; [|exact Hp]. eapply push_node_below; eassumption.
Qed.

Lemma iter_tail_below (P : nat -> Prop) j (stk : list nat) :
  Forall P stk -> Forall P (Nat.iter j (@tail nat) stk).
Proof. induction j as [|j IH]; intros F; [exact F|]. cbn. apply forall_tail, IH, F. Qed.

Lemma head_below t stk top : StackBelow (t, stk) -> head stk = Some top -> top < next_id t.
Proof. intros [_ F] Hh. destruct stk; [discriminate|]. injection Hh as ->. inversion F. assumption. Qed.

Lemma table_cell_below sp a cell a' :
  StackBelow a -> transform_table_cell sp a cell = Some a' -> StackBelow a'.
Proof.
  intros Ha Hc. unfold transform_table_cell in Hc. step_below.
  apply pop_below. eapply text_tree_below; [|eassumption]. eapply push_node_below; eassumption.
Qed.

Lemma table_row_below k sp a row a' :
  StackBelow a -> transform_table_row k sp a row = Some a' -> StackBelow a'.
Proof.
  intros Ha Hr. unfold transform_table_row in Hr. step_below. apply pop_below.
  eapply foldM_below; [intros c cell c' Hc _ Hcell; eapply table_cell_below; eassumption| |eassumption].
  eapply push_node_below; eassumption.
Qed.

Lemma transform_block_below st block st' :
  StackBelow st -> transform_block st block = Some st' -> StackBelow st'.
Proof.
  intros Hb Ht. destruct block as [k sp]. unfold transform_block in Ht. cbn [pkind pspan] in Ht.
  unfold transform_text_block, transform_list_block, transform_heading_block, transform_table_block,
    transform_image_block, transform_quote_block, transform_code_block, register_leaf in Ht.
  destruct k; cbn -[push_node foldM transform_text_tree transform_list_item transform_quote_node
                    register_node push_sections current_level Nat.ltb] in Ht.
  - (* Text *)
    step_below. apply pop_below. eapply text_tree_below; [|eassumption].
    eapply push_node_below; eassumption.
  - (* List *)
    destruct (ListTree.items tree !! ListTree.root tree); [|discriminate].
    cbn -[transform_list_item] in Ht. eapply list_item_below; eassumption.
  - (* Heading *)
    destruct st as [t stk]. step_below. apply pop_below.
    eapply text_tree_below; [|eassumption]. eapply push_node_below; [|eassumption].
    destruct (st <? level); [eapply push_sections_below; eassumption|].
    destruct (level <? st); injection E0 as <-; [|exact Hb].
    split; [apply Hb|]. apply iter_tail_below, Hb.
  - (* Table *)
    step_below. apply pop_below.
    eapply foldM_below; [intros a r a' Ha _ Hr; eapply table_row_below; eassumption| |eassumption].
    eapply table_row_below; [|eassumption]. eapply push_node_below; eassumption.
  - (* Image *)
    unfold transform_image_block in Ht. step_below. apply pop_below.
    eapply text_tree_below; [|eassumption]. eapply push_node_below; eassumption.
  - (* Quote *)
    unfold transform_quote_block in Ht.
    destruct (QuoteTree.nodes tree !! QuoteTree.root tree); [|discriminate].
    cbn -[transform_quote_node] in Ht. eapply quote_node_below; eassumption.
  - (* Code *)
    destruct st as [t stk]. cbn in Ht.
    destruct (head stk) as [top|] eqn:Hh; [|discriminate]. cbn in Ht.
    destruct (register_node t top (Code language) sp) as [[i t1]|] eqn:R1; [|discriminate]. cbn in Ht.
    destruct (register_node t1 i (Text src) sp) as [[j t2]|] eqn:R2; [|discriminate]. cbn in Ht.
    injection Ht as <-.
    destruct (register_below _ _ _ _ _ _ _ Hb (head_below _ _ _ Hb Hh) R1) as [B1 Hi1].
    exact (proj1 (register_below _ _ _ _ _ _ _ B1 Hi1 R2)).
  - (* Function *)
    destruct st as [t stk]. unfold register_leaf in Ht. cbn in Ht.
    destruct (head stk) as [top|] eqn:Hh; [|discriminate]. cbn in Ht.
    destruct (register_node t top _ sp) as [[i t1]|] eqn:R1; [|discriminate]. cbn in Ht.
    injection Ht as <-. exact (proj1 (register_below _ _ _ _ _ _ _ Hb (head_below _ _ _ Hb Hh) R1)).
  - (* HorizontalRule *)
    destruct st as [t stk]. unfold register_leaf in Ht. cbn in Ht.
    destruct (head stk) as [top|] eqn:Hh; [|discriminate]. cbn in Ht.
    destruct (register_node t top _ sp) as [[i t1]|] eqn:R1; [|discriminate]. cbn in Ht.
    injection Ht as <-. exact (proj1 (register_below _ _ _ _ _ _ _ Hb (head_below _ _ _ Hb Hh) R1)).
Qed.

(** Transformer: whatever the blocks, a tree that [transform] returns is
    well formed: its ids are [0 .. next_id), node [0] is the [Root], every
    child has a larger id than its parent and every other node has exactly
    one parent. *)
Theorem transform_well_formed (blocks : list ParsedBlock) (t : LetterScriptTree) :
  transform blocks = Some t -> Inv t.
Proof.
  unfold transform. intros Ht.
  destruct (foldM transform_block blocks (new, [root_id new])) as [st|] eqn:Hf; [|discriminate].
  cbn in Ht. injection Ht as <-.
  enough (StackBelow st) by apply H.
  eapply foldM_below; [intros a b a' Ha _ Hb'; eapply transform_block_below; eassumption| |exact Hf].
  split; [exact new_inv|]. constructor; [cbn; lia|constructor].
Qed.

Lemma transform_well_formed_witness :
  transform [mkParsed PHorizontalRule (mkSpan (mkPos 1 1) (mkPos 1 4))] =
    Some (mkTree (<[0 := mkNode 0 Root [1] zero_span]>
                  (<[1 := mkNode 1 HorizontalRule [] (mkSpan (mkPos 1 1) (mkPos 1 4))]>
                   {[0 := mkNode 0 Root [] zero_span]})) 0 2) /\
  Inv (mkTree (<[0 := mkNode 0 Root [1] zero_span]>
                (<[1 := mkNode 1 HorizontalRule [] (mkSpan (mkPos 1 1) (mkPos 1 4))]>
                 {[0 := mkNode 0 Root [] zero_span]})) 0 2).
Proof.
  assert (H : transform [mkParsed PHorizontalRule (mkSpan (mkPos 1 1) (mkPos 1 4))] =
    Some (mkTree (<[0 := mkNode 0 Root [1] zero_span]>
                  (<[1 := mkNode 1 HorizontalRule [] (mkSpan (mkPos 1 1) (mkPos 1 4))]>
                   {[0 := mkNode 0 Root [] zero_span]})) 0 2)) by reflexivity.
  split; [exact H|]. exact (transform_well_formed _ _ H).
Defined.

End TransformerFacts.

Module ListBlockFacts.
Import Transformer TreeInvariants TransformerProofs TransformerFacts.

(** The root of a list tree: id [0], a [Parent] with the [Unordered] style. *)
Definition RootKept (t : ListTree.ListTree) : Prop :=
  ListTree.root t = 0 /\ 0 < ListTree.next_id t /\
  exists n, ListTree.items t !! 0 = Some n /\ ListTree.id n = 0 /\
            ListTree.kind n = ListTree.Parent /\ ListTree.style n = ListTree.Unordered.

Lemma reg_root_kept t p k st i t' :
  RootKept t -> ListBlockParser.reg t p k st = Ok (i, t') -> RootKept t'.
Proof.
  intros (Hr & Hlt & n & Hn & Hid & Hk & Hs) Hreg.
  unfold ListBlockParser.reg, ListBlockParser.register_node in Hreg.
  destruct (<[ListTree.next_id t := ListTree.mkNode (ListTree.next_id t) k st []]> (ListTree.items t) !! p)
    as [q|] eqn:Hq; [|discriminate].
  injection Hreg as <- <-. unfold RootKept. cbn. split; [exact Hr|]. split; [lia|].
  destruct (decide (p = 0)) as [->|Hp].
  - rewrite lookup_insert_ne in Hq by lia. rewrite Hn in Hq. injection Hq as <-.
    eexists. rewrite lookup_insert_eq. split; [reflexivity|]. cbn. auto.
  - exists n. rewrite lookup_insert_ne by congruence. rewrite lookup_insert_ne by lia. auto.
Qed.

Lemma items_parse_loop_root_kept items tree pstk req tr :
  RootKept tree -> ListBlockParser.items_parse_loop items tree pstk req = Ok tr -> RootKept tr.
Proof.
  revert tree pstk req. induction items as [|item items IH]; intros tree pstk req Hk Hl.
  - cbn in Hl. injection Hl as <-. exact Hk.
  - cbn [ListBlockParser.items_parse_loop] in Hl.
    destruct (last pstk) as [pid|]; [|discriminate].
    destruct (nth_error req (length pstk - 1)) as [ri|]; [|discriminate].
    destruct (TextParser.parse (ListParser.content item) (ListParser.item_span item)) as [b|e|];
      cbn [run_bind] in Hl; try discriminate.
    destruct (pkind b); try discriminate.
    destruct (ListBlockParser.indent_eqb _ _).
    + destruct (ListBlockParser.reg tree pid _ _) as [[i1 t1]|e|] eqn:R1; cbn [run_bind] in Hl; try discriminate.
      eapply IH; [eapply reg_root_kept; eassumption|exact Hl].
    + destruct (ListParser.Indent_count ri <? ListParser.Indent_count (ListParser.indent item)).
      * destruct (ListBlockParser.reg tree pid _ _) as [[i1 t1]|e|] eqn:R1; cbn [run_bind] in Hl; try discriminate.
        destruct (ListBlockParser.reg t1 i1 _ _) as [[i2 t2]|e|] eqn:R2; cbn [run_bind] in Hl; try discriminate.
        eapply IH; [|exact Hl]. eapply reg_root_kept; [eapply reg_root_kept|]; eassumption.
      * destruct (last (removelast pstk)) as [pid'|]; [|discriminate].
        destruct (ListBlockParser.reg tree pid' _ _) as [[i1 t1]|e|] eqn:R1; cbn [run_bind] in Hl; try discriminate.
        eapply IH; [eapply reg_root_kept; eassumption|exact Hl].
Qed.

Lemma push_node_ext k sp st st' :
  StackBelow st -> push_node k sp st = Some st' -> Ext st.1 st'.1.
Proof.
  destruct st as [t stk]. intros Hb Hp. unfold push_node in Hp.
  destruct stk as [|top rest]; [discriminate|]. cbn in Hp.
  destruct (register_node t top k sp) as [[i t1]|] eqn:Hreg; [|discriminate].
  cbn in Hp. injection Hp as <-. cbn.
  eapply register_ext; [apply Hb|eapply head_below; [exact Hb|reflexivity]|exact Hreg].
Qed.

Definition ExtBelow (a b : State) : Prop := Ext a.1 b.1.

Lemma list_item_ext fuel list_tree sp st x st' :
  StackBelow st -> transform_list_item fuel list_tree sp st x = Some st' -> Ext st.1 st'.1.
Proof.
  revert st x st'. induction fuel as [|fuel IH]; intros st x st' Hb Ht; [discriminate|].
  cbn -[push_node foldM transform_text_tree] in Ht.
  destruct (ListTree.items list_tree !! x) as [ln|]; [|discriminate].
  cbn -[push_node foldM transform_text_tree] in Ht.
  destruct (ListTree.kind ln); step_below; cbn [pop fst].
  - pose proof (push_node_ext _ _ _ _ Hb E) as X1.
    pose proof (push_node_below _ _ _ _ Hb E) as B1.
    destruct (foldM_inv StackBelow ExtBelow _ _ (fun a _ => ext_refl _)
                (fun a b c => ext_trans a.1 b.1 c.1)
                (fun a y a' Ha _ Hy => conj (IH a y a' Ha Hy) (list_item_below _ _ _ _ _ _ Ha Hy))
                _ _ B1 E0) as [X2 _].
    eapply ext_trans; eassumption.
  - pose proof (push_node_ext _ _ _ _ Hb E) as X1.
    pose proof (push_node_below _ _ _ _ Hb E) as B1.
    destruct (text_tree_same_stack _ _ _ B1 E0) as [[_ G] _].
    eapply ext_trans; [exact X1|]. apply grow_ext. exact G.
Qed.

Lemma new_below : StackBelow (new, [root_id new]).
Proof. split; [exact new_inv|]. constructor; [cbn; lia|constructor]. Qed.

(** ListParser and Transformer: the root of a parsed list tree has the
    [Unordered] style, so the outermost [List] node that [transform] makes
    for a list block is unordered, also for a list of ["1."] items. *)
Theorem list_block_outer_list_unordered (src : str) (sp : SourceSpan) (b : ParsedBlock)
    (t : LetterScriptTree) :
  ListBlockParser.parse src sp = Ok b -> transform [b] = Some t ->
  option_map kind (node_lookup t !! 1) = Some (List false).
Proof.
  intros Hp Ht. unfold ListBlockParser.parse in Hp.
  destruct (ListParser.find_items_in_src src sp) as [items|e|]; cbn in Hp; try discriminate.
  destruct (ListBlockParser.items_parse_loop items ListTree.new [0] [ListParser.Zero])
    as [tr|e|] eqn:Hl; cbn in Hp; try discriminate.
  injection Hp as <-.
  assert (Hk0 : RootKept ListTree.new).
  { split; [reflexivity|]. split; [cbn; lia|]. eexists. split; [reflexivity|]. auto. }
  destruct (items_parse_loop_root_kept _ _ _ _ _ Hk0 Hl) as (Hr & _ & n & Hn & Hid & Hk & Hs).
  unfold transform in Ht. cbn [foldM] in Ht.
  destruct (transform_block (new, [root_id new]) (mkParsed (PList tr) sp)) as [st|] eqn:Hb;
    [|discriminate].
  cbn in Ht. injection Ht as <-.
  unfold transform_block, transform_list_block in Hb. cbn [pkind pspan] in Hb.
  rewrite Hr, Hn in Hb. cbn -[transform_list_item] in Hb. rewrite Hid in Hb.
  cbn -[push_node foldM] in Hb. rewrite Hn in Hb. cbn -[push_node foldM] in Hb. rewrite Hk, Hs in Hb. cbn -[push_node foldM] in Hb.
  destruct (push_node (List false) sp (new, [0])) as [st1|] eqn:E1; [|discriminate].
  cbn -[push_node foldM] in Hb.
  destruct (foldM (transform_list_item (ListTree.next_id tr) tr sp) (ListTree.children n) st1)
    as [st2|] eqn:E2; [|discriminate]. cbn in Hb. injection Hb as <-.
  assert (Hst1 : option_map kind (node_lookup st1.1 !! 1) = Some (List false)).
  { cbn in E1. injection E1 as <-. reflexivity. }
  pose proof (push_node_below _ _ _ _ new_below E1) as B1.
  destruct (foldM_inv StackBelow ExtBelow _ _ (fun a _ => ext_refl _)
              (fun a b c => ext_trans a.1 b.1 c.1)
              (fun a y a' Ha _ Hy => conj (list_item_ext _ _ _ _ _ _ Ha Hy) (list_item_below _ _ _ _ _ _ Ha Hy))
              _ _ B1 E2) as [X2 _].
  cbn [pop fst]. rewrite (ext_kind _ _ X2); [exact Hst1|].
  assert (Hn1 : next_id st1.1 = 2) by (injection E1 as <-; reflexivity).
  lia.
Qed.

Lemma list_block_outer_list_unordered_witness :
  exists b t,
    ListBlockParser.parse (s "1. a" ++ chr_lf :: s "2. b") (mkSpan (mkPos 1 1) (mkPos 2 5)) = Ok b /\
    transform [b] = Some t /\ option_map kind (node_lookup t !! 1) = Some (List false).
Proof.
  destruct (ListBlockParser.parse (s "1. a" ++ chr_lf :: s "2. b") (mkSpan (mkPos 1 1) (mkPos 2 5)))
    as [b|e|] eqn:E1; [|vm_compute in E1; discriminate E1|vm_compute in E1; discriminate E1].
  destruct (transform [b]) as [t|] eqn:E2.
  - exists b, t. split; [reflexivity|]. split; [exact E2|].
    exact (list_block_outer_list_unordered _ _ _ _ E1 E2).
  - exfalso. vm_compute in E1. injection E1 as <-. vm_compute in E2. discriminate E2.
Defined.

End ListBlockFacts.

Module QuoteParserFacts.
Import StrFacts QuoteParser.

Definition quote_prefix_char (c : ascii) : Prop := c = " "%char \/ c = chr_tab \/ c = ">"%char.

Lemma quote_line_loop_prefix p r ind off n :
  Forall quote_prefix_char p ->
  quote_line_loop (p ++ r) ind off n =
  quote_line_loop r (ind + count_occ ascii_dec p ">"%char) (off + length p) n.
Proof.
  intros H. revert ind off. induction H as [|c p Hc _ IH]; intros ind off.
  - cbn. rewrite !Nat.add_0_r. reflexivity.
  - cbn [app quote_line_loop count_occ length].
    destruct Hc as [-> | [-> | ->]]; cbn -[quote_line_loop]; rewrite IH; f_equal; lia.
Qed.

(** QuoteParser, the scan of one line: after leading spaces, tabs and
    ['>'], the quote depth is the number of ['>'] read and the content
    starts at the first other char; when that char comes before any
    ['>'], the line is an error located at its column. *)
Theorem quote_line_loop_result (p r : str) (n : nat) :
  Forall quote_prefix_char p ->
  (match r with [] => True | c :: _ => ~ quote_prefix_char c end) ->
  quote_line_loop (p ++ r) 0 0 n =
  match r with
  | [] => Ok (count_occ ascii_dec p ">"%char, length p)
  | _ :: _ =>
      if count_occ ascii_dec p ">"%char =? 0 then
        Err (mkParseError ("Found no quote line start character '>' in line " ++ decimal n)
               (mkPos n (length p + 1)))
      else Ok (count_occ ascii_dec p ">"%char, length p)
  end.
Proof.
  intros Hp Hr. rewrite quote_line_loop_prefix by exact Hp. cbn [Nat.add].
  destruct r as [|c r]; [reflexivity|]. cbn [quote_line_loop].
  unfold quote_prefix_char in Hr.
  rewrite (ascii_eqb_neq c chr_tab), (ascii_eqb_neq c " "%char), (ascii_eqb_neq c ">"%char)
    by (intros ->; apply Hr; tauto).
  reflexivity.
Qed.

Lemma quote_line_loop_result_witness :
  Forall quote_prefix_char (s " > >") /\ ~ quote_prefix_char "a"%char /\
  quote_line_loop (s " > >" ++ s "a b") 0 0 3 = Ok (2, 4).
Proof.
  assert (H1 : Forall quote_prefix_char (s " > >"))
    by (repeat constructor; unfold quote_prefix_char; auto).
  assert (H2 : ~ quote_prefix_char "a"%char)
    by (unfold quote_prefix_char; intuition discriminate).
  split; [exact H1|]. split; [exact H2|].
  exact (quote_line_loop_result (s " > >") (s "a b") 3 H1 H2).
Defined.

Lemma pop_while_prefix fuel indents parents j :
  length parents = length indents -> length indents <= fuel ->
  exists k, k <= length indents /\
    pop_while fuel indents parents j = (firstn k indents, firstn k parents) /\
    Forall (fun x => j < x) (skipn k indents) /\
    (forall x, 0 < k -> nth_error indents (k - 1) = Some x -> x <= j).
Proof.
  revert indents parents. induction fuel as [|fuel IH]; intros indents parents Hl Hf.
  - destruct indents; [|cbn in Hf; lia]. destruct parents; [|discriminate].
    exists 0. repeat split; auto. intros x Hk. lia.
  - destruct (exists_last_or_nil indents) as [-> | (I' & i & ->)].
    + destruct parents; [|discriminate]. exists 0. repeat split; auto. intros x Hk. lia.
    + destruct (exists_last_or_nil parents) as [-> | (P' & p & ->)];
        [rewrite length_app in Hl; cbn in Hl; lia|].
      rewrite !length_app in Hl. cbn in Hl. rewrite length_app in Hf. cbn in Hf.
      cbn [pop_while]. rewrite last_snoc.
      destruct (j <? i) eqn:Hji.
      * rewrite !removelast_last.
        destruct (IH I' P' ltac:(lia) ltac:(lia)) as (k & Hk & Hpw & Hall & Hle).
        exists k. split; [rewrite length_app; lia|]. split.
        { rewrite Hpw, !firstn_app. replace (k - length I') with 0 by lia.
          replace (k - length P') with 0 by lia. cbn. rewrite !app_nil_r. reflexivity. }
        split.
        { rewrite skipn_app. replace (k - length I') with 0 by lia. apply Forall_app. split; [exact Hall|].
          constructor; [apply Nat.ltb_lt; exact Hji|constructor]. }
        { intros x Hk0 Hx. apply Hle; [exact Hk0|]. rewrite nth_error_app1 in Hx by lia. exact Hx. }
      * exists (length (I' ++ [i])). split; [lia|]. split.
        { rewrite !firstn_all2 by (rewrite ?length_app; cbn; lia). reflexivity. }
        split.
        { rewrite skipn_all. constructor. }
        { intros x _ Hx. rewrite length_app in Hx. cbn in Hx.
          replace (length I' + 1 - 1) with (length I') in Hx by lia.
          rewrite nth_error_app2, Nat.sub_diag in Hx by lia. cbn in Hx. injection Hx as <-.
          apply Nat.ltb_ge. exact Hji. }
Qed.

(** The stacks of the loop: [indents] starts with the first line's depth
    [i0], none is below it, and [parent_node_ids] has one id per depth. *)
Definition Stacks (i0 : nat) (parents indents : list nat) : Prop :=
  hd_error indents = Some i0 /\ Forall (fun x => i0 <= x) indents /\ length parents = length indents.

Lemma stacks_last i0 parents indents :
  Stacks i0 parents indents ->
  exists cp ci, last parents = Some cp /\ last indents = Some ci /\ i0 <= ci.
Proof.
  intros (Hh & Hf & Hl).
  destruct (exists_last_or_nil indents) as [-> | (I' & ci & ->)]; [discriminate|].
  destruct (exists_last_or_nil parents) as [-> | (P' & cp & ->)]; [rewrite length_app in Hl; cbn in Hl; lia|].
  exists cp, ci. rewrite !last_snoc. split; [reflexivity|]. split; [reflexivity|].
  apply Forall_app in Hf as [_ Hf]. inversion Hf. assumption.
Qed.

Lemma stacks_push i0 parents indents new_id j ci :
  Stacks i0 parents indents -> last indents = Some ci -> ci < j ->
  Stacks i0 (parents ++ [new_id]) (indents ++ [j]).
Proof.
  intros (Hh & Hf & Hl) Hci Hj. split; [|split].
  - destruct indents; [discriminate|]. exact Hh.
  - apply Forall_app. split; [exact Hf|]. constructor; [|constructor].
    destruct (exists_last_or_nil indents) as [-> | (I' & c & ->)]; [discriminate|].
    rewrite last_snoc in Hci. injection Hci as ->. apply Forall_app in Hf as [_ Hf].
    inversion Hf. lia.
  - rewrite !length_app. cbn. lia.
Qed.

Lemma stacks_pop i0 parents indents j :
  Stacks i0 parents indents -> i0 <= j ->
  let '(indents', parents') := pop_while (length indents) indents parents j in
  Stacks i0 parents' indents'.
Proof.
  intros (Hh & Hf & Hl) Hj.
  destruct (pop_while_prefix (length indents) indents parents j Hl (le_n _)) as (k & Hk & -> & Hall & Hle).
  destruct indents as [|a I']; [discriminate|]. injection Hh as ->.
  destruct k as [|k].
  - cbn in Hall. inversion Hall. lia.
  - split; [reflexivity|]. split.
    + rewrite <- (firstn_skipn (S k) (i0 :: I')) in Hf. apply Forall_app in Hf. apply Hf.
    + rewrite !length_firstn. lia.
Qed.

Lemma stacks_pop_all i0 parents indents j :
  Stacks i0 parents indents -> j < i0 ->
  pop_while (length indents) indents parents j = ([], []).
Proof.
  intros (Hh & Hf & Hl) Hj.
  destruct (pop_while_prefix (length indents) indents parents j Hl (le_n _)) as (k & Hk & -> & Hall & Hle).
  destruct k as [|k]; [reflexivity|].
  exfalso. destruct (nth_error indents k) as [x|] eqn:Hx.
  - specialize (Hle x ltac:(lia)). cbn in Hle. rewrite Nat.sub_0_r in Hle. specialize (Hle Hx).
    apply nth_error_In in Hx. rewrite List.Forall_forall in Hf. specialize (Hf x Hx). lia.
  - apply nth_error_None in Hx. lia.
Qed.

Lemma quote_loop_dedent_fails qls tree parents indents buf counter sl so total i0 v :
  Stacks i0 parents indents -> Exists (fun l => q_indent l < i0) qls ->
  quote_loop qls tree parents indents buf counter sl so total <> Ok v.
Proof.
  revert tree parents indents buf counter sl so.
  induction qls as [|l qls IH]; intros tree parents indents buf counter sl so Hs Hex;
    [inversion Hex|].
  assert (Hne : indents <> []) by (destruct Hs as [Hh _]; destruct indents; discriminate).
  cbn [quote_loop].
  replace (match indents with [] => ([q_indent l], q_line_number l, q_offset l) | _ => (indents, sl, so) end)
    with (indents, sl, so) by (destruct indents; [contradiction|reflexivity]).
  destruct (stacks_last _ _ _ Hs) as (cp & ci & Hcp & Hci & Hi0). rewrite Hcp, Hci.
  (* after a step that keeps the stacks good, the rest of the loop fails *)
  assert (Hrest : forall st, Stacks i0 (ls_parents st) (ls_indents st) ->
            Exists (fun l => q_indent l < i0) qls ->
            run_bind (if counter =? total - 1 then
                        run_bind (consume_text_buffer_into_node (ls_tree st) (ls_buffer st) l
                                    (ls_current st) (ls_start_line st) (ls_start_offset st))
                          (fun tree => Ok (tree, []))
                      else Ok (ls_tree st, ls_buffer st)) (fun '(tree, text_buffer) =>
              quote_loop qls tree (ls_parents st) (ls_indents st) text_buffer (S counter)
                (ls_start_line st) (ls_start_offset st) total) <> Ok v).
  { intros st Hst Hq.
    destruct (if counter =? total - 1 then _ else _) as [[tr b]|e|]; cbn [run_bind]; try discriminate.
    apply IH; assumption. }
  destruct (ci =? q_indent l) eqn:Heq.
  - apply Nat.eqb_eq in Heq. cbn [run_bind]. apply Hrest; [exact Hs|].
    inversion Hex as [? ? Hl|? ? Hq]; subst; [lia|exact Hq].
  - destruct (ci <? q_indent l) eqn:Hlt.
    + apply Nat.ltb_lt in Hlt.
      destruct (consume_text_buffer_into_node tree buf l cp sl so) as [tr|e|]; cbn [run_bind]; try discriminate.
      destruct (register_node tr cp QuoteTree.Parent) as [[new_id tr']|]; cbn [run_bind]; [|discriminate].
      apply Hrest; [eapply stacks_push; eassumption|].
      inversion Hex as [? ? Hl|? ? Hq]; subst; [lia|exact Hq].
    + destruct (consume_text_buffer_into_node tree buf l cp sl so) as [tr|e|]; cbn [run_bind]; try discriminate.
      destruct (Nat.lt_ge_cases (q_indent l) i0) as [Hj|Hj].
      * rewrite (stacks_pop_all _ _ _ _ Hs Hj). discriminate.
      * pose proof (stacks_pop _ _ _ _ Hs Hj) as Hp.
        destruct (pop_while (length indents) indents parents (q_indent l)) as [indents' parents'].
        destruct (stacks_last _ _ _ Hp) as (cp' & ci' & Hcp' & _ & _). rewrite Hcp'.
        cbn [run_bind]. apply Hrest; [exact Hp|].
        inversion Hex as [? ? Hl|? ? Hq]; subst; [lia|exact Hq].
Qed.

(** QuoteParser: when a later line of a quote has fewer ['>'] than the
    first line, every depth is popped from the stacks and the parser does
    not return a quote (it panics on the empty parent stack, unless an
    earlier text error stops it). *)
Theorem quote_parse_dedent_below_first (src : str) (sp : SourceSpan) (l0 : IndentedQuoteLine)
    (ls : list IndentedQuoteLine) (v : ParsedBlock) :
  find_indented_quote_lines src sp = Ok (l0 :: ls) ->
  Exists (fun l => q_indent l < q_indent l0) ls ->
  QuoteParser.parse src sp <> Ok v.
Proof.
  intros Hf Hex. unfold QuoteParser.parse. rewrite Hf. cbn [run_bind quote_loop].
  change (last [QuoteTree.root new]) with (Some 0). change (last [q_indent l0]) with (Some (q_indent l0)).
  cbv iota beta. rewrite Nat.eqb_refl. cbn [run_bind].
  assert (Hs : Stacks (q_indent l0) [QuoteTree.root new] [q_indent l0])
    by (split; [reflexivity|split; [constructor; [lia|constructor]|reflexivity]]).
  destruct (if 0 =? length (l0 :: ls) - 1 then _ else _) as [[tr b]|e|]; cbn [run_bind]; try discriminate.
  cbn [ls_parents ls_indents ls_start_line ls_start_offset].
  match goal with
  | |- context [quote_loop ls tr ?p ?i b ?c ?x ?y ?z] =>
      destruct (quote_loop ls tr p i b c x y z) as [q|e|] eqn:Hq; cbn [run_bind]; try discriminate
  end.
  exfalso. eapply quote_loop_dedent_fails; [exact Hs|exact Hex|exact Hq].
Qed.

Lemma quote_parse_dedent_below_first_witness :
  find_indented_quote_lines (s ">> a" ++ chr_lf :: s "> b") (mkSpan (mkPos 1 1) (mkPos 2 4)) =
    Ok [mkQuoteLine (s "a") 1 2 3; mkQuoteLine (s "b") 2 1 2] /\
  Exists (fun l => q_indent l < q_indent (mkQuoteLine (s "a") 1 2 3)) [mkQuoteLine (s "b") 2 1 2] /\
  (forall v, QuoteParser.parse (s ">> a" ++ chr_lf :: s "> b") (mkSpan (mkPos 1 1) (mkPos 2 4)) <> Ok v).
Proof.
  assert (H1 : find_indented_quote_lines (s ">> a" ++ chr_lf :: s "> b") (mkSpan (mkPos 1 1) (mkPos 2 4)) =
    Ok [mkQuoteLine (s "a") 1 2 3; mkQuoteLine (s "b") 2 1 2]) by reflexivity.
  assert (H2 : Exists (fun l => q_indent l < q_indent (mkQuoteLine (s "a") 1 2 3)) [mkQuoteLine (s "b") 2 1 2])
    by (constructor; cbn; lia).
  split; [exact H1|]. split; [exact H2|].
  intros v. exact (quote_parse_dedent_below_first _ _ _ _ v H1 H2).
Defined.

End QuoteParserFacts.

Module TableParserFacts.
Import StrFacts TableParser.

Definition count_pipes (l : str) : nat := count_occ ascii_dec l "|"%char.

Lemma split_on_no_sep sep l : Forall (fun p => ~ In sep p) (split_on sep l).
Proof.
  induction l as [|c l IH]; cbn; [constructor; [intros []|constructor]|].
  destruct (ascii_eqb_reflect c sep) as [->|Hne].
  - constructor; [intros []|exact IH].
  - destruct (split_on sep l) as [|p ps]; [constructor; [intros [H|[]]; congruence|constructor]|].
    inversion IH as [|? ? Hp Hps]; subst. constructor; [|exact Hps].
    intros [H|H]; [congruence|contradiction].
Qed.

Lemma in_removelast {A} (x : A) l : In x (removelast l) -> In x l.
Proof.
  induction l as [|a l IH]; [intros []|]. destruct l as [|b l]; [intros []|].
  intros [H|H]; [left; exact H|right; apply IH, H].
Qed.

Lemma in_strip_cr c p : In c (strip_cr p) -> In c p.
Proof.
  unfold strip_cr. destruct (last p); [|auto]. destruct (ascii_eqb _ _); [apply in_removelast|auto].
Qed.

Lemma lines_no_lf src : Forall (fun l => ~ In chr_lf l) (lines src).
Proof.
  unfold lines. apply List.Forall_map.
  assert (H : Forall (fun p => ~ In chr_lf p) (split_on chr_lf src)) by apply split_on_no_sep.
  assert (H' : Forall (fun p => ~ In chr_lf p)
                 (match last (split_on chr_lf src) with
                  | Some [] => removelast (split_on chr_lf src) | _ => split_on chr_lf src end)).
  { destruct (last (split_on chr_lf src)) as [[|]|]; [|exact H|exact H].
    rewrite List.Forall_forall in *. intros p Hp. apply H, in_removelast, Hp. }
  eapply Forall_impl; [exact H'|]. intros p Hp Hc. apply Hp, in_strip_cr, Hc.
Qed.

Lemma create_cell_header tp buf ln off tp' :
  consume_buffer_and_register_cell tp buf ln off 0 = Ok tp' ->
  rows tp' = rows tp /\ length (header_row tp') = S (length (header_row tp)).
Proof.
  unfold consume_buffer_and_register_cell. cbn [for_line_index].
  destruct (create_cell buf ln off) as [c|e|]; cbn; try discriminate.
  intros [= <-]. cbn. rewrite length_app. cbn. split; [reflexivity|lia].
Qed.

(** The header line: one cell per ['|'] after the first. *)
Lemma header_line_loop tp line started off buf ln tp' :
  ~ In chr_lf line ->
  line_loop tp line started off buf ln 0 = Ok tp' ->
  rows tp' = rows tp /\
  length (header_row tp') =
    length (header_row tp) + (if started then count_pipes line else pred (count_pipes line)).
Proof.
  revert tp started off buf. induction line as [|c line IH]; intros tp started off buf Hlf Hl.
  - cbn in Hl. injection Hl as <-. destruct started; cbn; split; auto; lia.
  - assert (Hlf' : ~ In chr_lf line) by (intros H; apply Hlf; right; exact H).
    cbn [line_loop] in Hl. unfold count_pipes. cbn [count_occ].
    destruct (ascii_eqb_reflect c "|"%char) as [->|Hp].
    + destruct (ascii_dec "|"%char "|"%char) as [_|]; [|contradiction].
      destruct started.
      * destruct (consume_buffer_and_register_cell tp buf ln off 0) as [tp1|e|] eqn:Hc;
          cbn [run_bind] in Hl; try discriminate.
        destruct (create_cell_header _ _ _ _ _ Hc) as [R1 L1].
        destruct (IH _ _ _ _ Hlf' Hl) as [R2 L2]. split; [congruence|].
        unfold count_pipes in L2. lia.
      * destruct (IH _ _ _ _ Hlf' Hl) as [R2 L2]. split; [exact R2|]. unfold count_pipes in L2. cbn. lia.
    + destruct (ascii_dec c "|"%char) as [|_]; [contradiction|].
      rewrite ascii_eqb_neq in Hl by (intros ->; apply Hlf; left; reflexivity).
      exact (IH _ _ _ _ Hlf' Hl).
Qed.

(** The separator line registers no cell. *)
Lemma separator_line_loop tp line started off buf ln tp' :
  line_loop tp line started off buf ln 1 = Ok tp' -> tp' = tp.
Proof.
  revert started off buf. induction line as [|c line IH]; intros started off buf Hl.
  - cbn in Hl. injection Hl as <-. reflexivity.
  - cbn [line_loop] in Hl.
    destruct (ascii_eqb c "|"%char); [destruct started|]; [cbn in Hl| |destruct (ascii_eqb c chr_lf)];
      eapply IH; exact Hl.
Qed.

Lemma register_body tp buf ln off ri tp' :
  2 <= ri -> ri - 2 <= length (rows tp) <= ri - 1 ->
  consume_buffer_and_register_cell tp buf ln off ri = Ok tp' ->
  header_row tp' = header_row tp /\
  exists R r cell, length R = ri - 2 /\ rows tp' = R ++ [r ++ [cell]] /\
    (length (rows tp) = ri - 2 -> R = rows tp /\ r = []) /\
    (length (rows tp) = ri - 1 -> rows tp = R ++ [r]).
Proof.
  intros Hri Hlen. destruct ri as [|[|ri']]; [lia|lia|].
  unfold consume_buffer_and_register_cell. cbn [for_line_index].
  destruct (create_cell buf ln off) as [cell|e|]; cbn [run_bind]; try discriminate.
  destruct (Nat.le_gt_cases (length (rows tp)) (S (S ri') - 2)) as [Hle|Hgt].
  - replace (length (rows tp) <=? S (S ri') - 2) with true by (symmetry; apply Nat.leb_le; lia).
    rewrite last_snoc. intros [= <-]. cbn. split; [reflexivity|].
    exists (rows tp), [], cell. rewrite removelast_last. repeat split; auto; lia.
  - replace (length (rows tp) <=? S (S ri') - 2) with false by (symmetry; apply Nat.leb_gt; lia).
    destruct (exists_last_or_nil (rows tp)) as [E | (R & r & E)]; [rewrite E in Hgt; cbn in Hgt; lia|].
    rewrite E, last_snoc, removelast_last. intros [= <-]. cbn. split; [reflexivity|].
    exists R, r, cell. rewrite E, length_app in Hlen, Hgt. cbn in Hlen, Hgt.
    split; [lia|]. split; [reflexivity|]. split; [|intros _; reflexivity].
    intros H. exfalso. rewrite length_app in H. cbn in H. lia.
Qed.

Lemma body_line_exists tp line started off buf ln ri tp' R r0 :
  2 <= ri -> ~ In chr_lf line -> length R = ri - 2 -> rows tp = R ++ [r0] ->
  line_loop tp line started off buf ln ri = Ok tp' ->
  header_row tp' = header_row tp /\
  exists r, rows tp' = R ++ [r0 ++ r] /\
    length r = (if started then count_pipes line else pred (count_pipes line)).
Proof.
  revert tp started off buf r0. induction line as [|c line IH]; intros tp started off buf r0 Hri Hlf HR Hrows Hl.
  - cbn in Hl. injection Hl as <-. split; [reflexivity|]. exists []. rewrite app_nil_r.
    destruct started; auto.
  - assert (Hlf' : ~ In chr_lf line) by (intros H; apply Hlf; right; exact H).
    cbn [line_loop] in Hl. unfold count_pipes. cbn [count_occ].
    destruct (ascii_eqb_reflect c "|"%char) as [->|Hp].
    + destruct (ascii_dec "|"%char "|"%char) as [_|]; [|contradiction].
      destruct started.
      * destruct (consume_buffer_and_register_cell tp buf ln off ri) as [tp1|e|] eqn:Hc;
          cbn [run_bind] in Hl; try discriminate.
        assert (Hlen : length (rows tp) = ri - 1) by (rewrite Hrows, length_app; cbn; lia).
        destruct (register_body tp buf ln off ri tp1 Hri ltac:(lia) Hc) as [H1 (R1 & r1 & cell & HR1 & Hr1 & _ & Hold)].
        specialize (Hold Hlen). rewrite Hrows in Hold. apply app_inj_tail in Hold as [<- <-].
        destruct (IH _ _ _ _ _ Hri Hlf' HR Hr1 Hl) as [H2 (r & Hr & Hlr)].
        split; [congruence|]. exists ([cell] ++ r). rewrite app_assoc. split; [exact Hr|].
        cbn. unfold count_pipes in Hlr. lia.
      * destruct (IH _ _ _ _ _ Hri Hlf' HR Hrows Hl) as [H2 (r & Hr & Hlr)].
        split; [exact H2|]. exists r. split; [exact Hr|]. unfold count_pipes in Hlr. cbn. lia.
    + destruct (ascii_dec c "|"%char) as [|_]; [contradiction|].
      rewrite ascii_eqb_neq in Hl by (intros ->; apply Hlf; left; reflexivity).
      exact (IH _ _ _ _ _ Hri Hlf' HR Hrows Hl).
Qed.

Lemma body_line_new tp line started off buf ln ri tp' :
  2 <= ri -> ~ In chr_lf line -> length (rows tp) = ri - 2 ->
  line_loop tp line started off buf ln ri = Ok tp' ->
  header_row tp' = header_row tp /\
  (0 < (if started then count_pipes line else pred (count_pipes line)) ->
   exists r, rows tp' = rows tp ++ [r] /\
     length r = (if started then count_pipes line else pred (count_pipes line))).
Proof.
  revert tp started off buf. induction line as [|c line IH]; intros tp started off buf Hri Hlf Hlen Hl.
  - cbn in Hl. injection Hl as <-. split; [reflexivity|]. destruct started; cbn; intros; lia.
  - assert (Hlf' : ~ In chr_lf line) by (intros H; apply Hlf; right; exact H).
    cbn [line_loop] in Hl. unfold count_pipes. cbn [count_occ].
    destruct (ascii_eqb_reflect c "|"%char) as [->|Hp].
    + destruct (ascii_dec "|"%char "|"%char) as [_|]; [|contradiction].
      destruct started.
      * destruct (consume_buffer_and_register_cell tp buf ln off ri) as [tp1|e|] eqn:Hc;
          cbn [run_bind] in Hl; try discriminate.
        destruct (register_body tp buf ln off ri tp1 Hri ltac:(lia) Hc) as [H1 (R1 & r1 & cell & HR1 & Hr1 & Hnew & _)].
        destruct (Hnew Hlen) as [-> ->].
        destruct (body_line_exists _ _ _ _ _ _ _ _ _ _ Hri Hlf' HR1 Hr1 Hl) as [H2 (r & Hr & Hlr)].
        split; [congruence|]. intros _. exists ([cell] ++ r). split; [exact Hr|].
        cbn. unfold count_pipes in Hlr. lia.
      * destruct (IH _ _ _ _ Hri Hlf' Hlen Hl) as [H2 H3]. split; [exact H2|].
        unfold count_pipes in H3. cbn. exact H3.
    + destruct (ascii_dec c "|"%char) as [|_]; [contradiction|].
      rewrite ascii_eqb_neq in Hl by (intros ->; apply Hlf; left; reflexivity).
      exact (IH _ _ _ _ Hri Hlf' Hlen Hl).
Qed.

Lemma rows_loop_body tp body ri start tp' :
  2 <= ri -> length (rows tp) = ri - 2 ->
  Forall (fun l => ~ In chr_lf l) body -> Forall (fun l => 2 <= count_pipes l) body ->
  rows_loop tp body ri start = Ok tp' ->
  header_row tp' = header_row tp /\
  map (@length _) (rows tp') = map (@length _) (rows tp) ++ map (fun l => count_pipes l - 1) body.
Proof.
  revert tp ri. induction body as [|l body IH]; intros tp ri Hri Hlen Hlf Hc Hr.
  - cbn in Hr. injection Hr as <-. rewrite app_nil_r. auto.
  - inversion Hlf as [|? ? Hl1 Hlf']; inversion Hc as [|? ? Hc1 Hc']; subst.
    cbn [rows_loop] in Hr.
    destruct (line_loop tp l false 1 [] (start + ri) ri) as [tp1|e|] eqn:Hl; cbn [run_bind] in Hr; try discriminate.
    destruct (body_line_new _ _ _ _ _ _ _ _ Hri Hl1 Hlen Hl) as [H1 H2].
    destruct (H2 ltac:(lia)) as (r & Hr1 & Hlr).
    destruct (IH tp1 (S ri) ltac:(lia) ltac:(rewrite Hr1, length_app; cbn; lia) Hlf' Hc' Hr) as [H3 H4].
    split; [congruence|]. rewrite H4, Hr1, map_app, <- app_assoc. cbn. rewrite Hlr. f_equal. f_equal. lia.
Qed.

(** TableParser: when every body line (after the header and separator
    lines) has at least two ['|'], the header has one cell fewer than its
    line has ['|'], and there is one row per body line with one cell fewer
    than that line has ['|']. *)
Theorem table_parse_shape (src : str) (sp : SourceSpan) (h : list TextTree.TextTree)
    (rs : list (list TextTree.TextTree)) (l0 l1 : str) (body : list str) :
  lines src = l0 :: l1 :: body ->
  Forall (fun l => 2 <= count_pipes l) body ->
  TableParser.parse src sp = Ok (mkParsed (PTable h rs) sp) ->
  length h = pred (count_pipes l0) /\ map (@length _) rs = map (fun l => count_pipes l - 1) body.
Proof.
  intros Hls Hc Hp. unfold TableParser.parse in Hp.
  destruct (rows_loop (mkRows [] []) (lines src) 0 (line (span_start sp))) as [tp|e|] eqn:Hr;
    cbn [run_bind] in Hp; try discriminate.
  injection Hp as <- <-.
  pose proof (lines_no_lf src) as Hlf. rewrite Hls in Hlf, Hr.
  inversion Hlf as [|? ? Hlf0 Hlf1]; subst. inversion Hlf1 as [|? ? _ Hlfb]; subst.
  cbn [rows_loop] in Hr.
  destruct (line_loop (mkRows [] []) l0 false 1 [] _ 0) as [tp0|e|] eqn:H0; cbn [run_bind] in Hr; try discriminate.
  destruct (header_line_loop _ _ _ _ _ _ _ Hlf0 H0) as [R0 L0]. cbn in R0, L0.
  destruct (line_loop tp0 l1 false 1 [] _ 1) as [tp1|e|] eqn:H1; cbn [run_bind] in Hr; try discriminate.
  apply separator_line_loop in H1. subst tp1.
  destruct (rows_loop_body _ _ _ _ _ (le_n 2) ltac:(rewrite R0; reflexivity) Hlfb Hc Hr) as [H2 H3].
  split; [rewrite H2; exact L0|]. rewrite H3, R0. reflexivity.
Qed.

Lemma table_parse_shape_witness :
  exists h rs,
    lines (s "|a|b|" ++ chr_lf :: s "|-|-|" ++ chr_lf :: s "|1|2|") = [s "|a|b|"; s "|-|-|"; s "|1|2|"] /\
    Forall (fun l => 2 <= count_pipes l) [s "|1|2|"] /\
    TableParser.parse (s "|a|b|" ++ chr_lf :: s "|-|-|" ++ chr_lf :: s "|1|2|") (mkSpan (mkPos 1 1) (mkPos 3 6)) =
      Ok (mkParsed (PTable h rs) (mkSpan (mkPos 1 1) (mkPos 3 6))) /\
    length h = 2 /\ map (@length _) rs = [2].
Proof.
  assert (H1 : lines (s "|a|b|" ++ chr_lf :: s "|-|-|" ++ chr_lf :: s "|1|2|") = [s "|a|b|"; s "|-|-|"; s "|1|2|"])
    by reflexivity.
  assert (H2 : Forall (fun l => 2 <= count_pipes l) [s "|1|2|"]) by (constructor; [cbn; lia|constructor]).
  destruct (TableParser.parse (s "|a|b|" ++ chr_lf :: s "|-|-|" ++ chr_lf :: s "|1|2|") (mkSpan (mkPos 1 1) (mkPos 3 6)))
    as [[k sp']|e|] eqn:E; [|vm_compute in E; discriminate E..].
  destruct k; try (vm_compute in E; discriminate E).
  assert (Hsp : sp' = mkSpan (mkPos 1 1) (mkPos 3 6)) by (vm_compute in E; congruence). subst sp'.
  lazymatch type of E with _ = Ok (mkParsed (PTable ?h ?rs) _) =>
    exists h, rs;
    destruct (table_parse_shape _ _ h rs _ _ _ H1 H2 E) as [A B] end.
  split; [exact H1|]. split; [exact H2|]. split; [reflexivity|].
  split; [rewrite A; reflexivity | rewrite B; reflexivity].
Defined.

End TableParserFacts.
